(** * CLIP: signed Lightning-node records over Nostr

    A shallow embedding of the [clip] package (event model, verification,
    dual signer, trust store, client pipeline) and the proofs of its
    specification. *)

From Stdlib Require Import ZArith Ascii String List Lia Sorted.
From stdpp Require Import base tactics option list strings pretty gmap.

Local Open Scope string_scope.
Local Open Scope list_scope.
Local Open Scope Z_scope.

(** ** Go runtime: [int], [strconv], [strings] *)

(** Go's [int] and [nostr.Timestamp] are 64-bit two's complement integers. *)
Definition int_min : Z := - 2 ^ 63.
Definition int_max : Z := 2 ^ 63 - 1.
Definition in_int (n : Z) : Prop := int_min <= n <= int_max.
Definition in_intb (n : Z) : bool := (int_min <=? n) && (n <=? int_max).

(** 64-bit wrap-around of an arithmetic result. *)
Definition wrap64 (n : Z) : Z := (n - int_min) mod 2 ^ 64 + int_min.

(** [strconv.Itoa]: canonical decimal rendering, a leading '-' for negatives. *)
Definition Itoa (n : Z) : string := pretty n.

Definition digit_of (c : ascii) : option Z :=
  let n := Z.of_N (N_of_ascii c) in
  if (48 <=? n) && (n <=? 57) then Some (n - 48) else None.

Fixpoint parse_digits (s : string) (acc : Z) : option Z :=
  match s with
  | EmptyString => Some acc
  | String c r =>
      match digit_of c with
      | Some d => parse_digits r (acc * 10 + d)
      | None => None
      end
  end.

(** [strconv.Atoi]: an optional sign, then one or more decimal digits, the
    value within the range of [int]; anything else is an error ([None]). *)
Definition Atoi (s : string) : option Z :=
  match s with
  | EmptyString => None
  | String c r =>
      let neg := Ascii.eqb c "-"%char in
      let body := if Ascii.eqb c "-"%char || Ascii.eqb c "+"%char then r else s in
      match body with
      | EmptyString => None
      | _ =>
          match parse_digits body 0 with
          | None => None
          | Some u =>
              let n := if neg then - u else u in
              if in_intb n then Some n else None
          end
      end
  end.

(** [strings.Split(s, ":")]: the pieces of [s] between colons; never empty. *)
Fixpoint Split (s : string) : list string :=
  match s with
  | EmptyString => [EmptyString]
  | String c r =>
      if Ascii.eqb c ":"%char then EmptyString :: Split r
      else match Split r with
           | h :: t => String c h :: t
           | [] => [String c EmptyString]
           end
  end.

(** [strings.Join(parts, ":")]. *)
Fixpoint Join (parts : list string) : string :=
  match parts with
  | [] => EmptyString
  | [p] => p
  | p :: rest => p +:+ ":" +:+ Join rest
  end.

(** A string without the separator. *)
Fixpoint no_colon (s : string) : bool :=
  match s with
  | EmptyString => true
  | String c r => negb (Ascii.eqb c ":"%char) && no_colon r
  end.

(** ** The [go-nostr] event model (the transport library's types) *)

Module nostr.

Definition Tag := list string.
Definition Tags := list Tag.
Definition Timestamp := Z.

Module Event.
Record t := mk {
  ID : string;
  PubKey : string;
  CreatedAt : Timestamp;
  Kind : Z;
  Tags : Tags;
  Content : string;
  Sig : string
}.
End Event.

(** [len(tag) >= 2 && tag[0] == key] *)
Definition has_key (key : string) (tag : Tag) : bool :=
  match tag with
  | name :: _ :: _ => String.eqb name key
  | _ => false
  end.

(** [Tags.Find]: the first tag named [key] that also carries a value. *)
Definition Find (tags : Tags) (key : string) : option Tag :=
  List.find (has_key key) tags.

(** [Tags.FindAll]: every tag named [key] that also carries a value. *)
Definition FindAll (tags : Tags) (key : string) : list Tag :=
  List.filter (has_key key) tags.

(** [Event.Serialize]: the canonical form that is hashed and signed, built
    from the public key, the time stamp, the wire kind, the tags and the
    content (the ID and the signature are not part of it). *)
Definition Serialized : Type := string * Timestamp * Z * Tags * string.

Definition Serialize (ev : Event.t) : Serialized :=
  (Event.PubKey ev, Event.CreatedAt ev, Event.Kind ev, Event.Tags ev,
   Event.Content ev).

End nostr.

(** [tag[1]] on a tag known to have a value. *)
Definition tag_value (tag : nostr.Tag) : string := nth 1 tag EmptyString.

Definition with_tags (ev : nostr.Event.t) (tags : nostr.Tags) : nostr.Event.t :=
  nostr.Event.mk (nostr.Event.ID ev) (nostr.Event.PubKey ev)
    (nostr.Event.CreatedAt ev) (nostr.Event.Kind ev) tags
    (nostr.Event.Content ev) (nostr.Event.Sig ev).

Definition with_kind (ev : nostr.Event.t) (k : Z) : nostr.Event.t :=
  nostr.Event.mk (nostr.Event.ID ev) (nostr.Event.PubKey ev)
    (nostr.Event.CreatedAt ev) k (nostr.Event.Tags ev)
    (nostr.Event.Content ev) (nostr.Event.Sig ev).

(** ** Constants of the package *)

Definition Kind := Z.

Definition KindLightningInformation : Z := 38171.
Definition KindNodeAnnouncement : Kind := 0.
Definition KindNodeInfo : Kind := 1.
Definition MaxContentSize : Z := 1 * 1024 * 1024.
Definition EventGracePeriodSeconds : Z := 600.
Definition signedMsgPrefix : string := "Lightning Signed Message:".

(** ** Errors

    One constructor per [fmt.Errorf] site of the package; errors that come out
    of a collaborator are carried as [ErrExternal]. *)

Inductive Error :=
| ErrDuplicateTag (t : string)
| ErrFutureTimestamp
| ErrIDMismatch
| ErrContentTooLarge (len : Z)
| ErrMissingTagD
| ErrMissingTagK
| ErrInvalidKind (value : string)
| ErrTagDFormat (kind : Kind)
| ErrInvalidNetwork (network : string)
| ErrKindTag
| ErrMoreThanOneSig
| ErrNoSig
| ErrDecodeSig
| ErrRecoverPubKey
| ErrPubKeyMismatch
| ErrNotFinalized
| ErrAlreadySigTag
| ErrStaleAnnouncement (stored incoming : nostr.Timestamp)
| ErrUntrustedSigner (evPub lastPub : string)
| ErrStaleRecord (stored incoming : nostr.Timestamp)
| ErrCancelled
| ErrExternal (msg : string)
| ErrWrap (context : string) (cause : Error).

Inductive result (A : Type) :=
| Ok (a : A)
| Err (e : Error).
Arguments Ok {A} a.
Arguments Err {A} e.

(** ** Identifier and Event *)

Module Identifier.
Record t := mk {
  TagD : string;
  Network : string;
  PubKey : string;
  Kind : Kind;
  Opts : list string
}.
End Identifier.

Module Event.
Record t := mk {
  NostrEvent : nostr.Event.t;
  kind : Kind;
  finalized : bool;
  id : option Identifier.t
}.
End Event.

(** [&Event{NostrEvent: ev}]: the zero value of the unexported fields. *)
Definition wrap (ev : nostr.Event.t) : Event.t :=
  Event.mk ev 0 false None.

Definition IsValidNetwork (network : string) : bool :=
  if String.eqb network "mainnet" then true
  else if String.eqb network "testnet" then true
  else if String.eqb network "testnet4" then true
  else if String.eqb network "signet" then true
  else if String.eqb network "simnet" then true
  else if String.eqb network "regtest" then true
  else false.

(** The body of [GetIdentifier] past the cache test: the identifier is read
    off the first valued "d" tag and the first valued "k" tag. *)
Definition parseIdentifier (tags : nostr.Tags) : result Identifier.t :=
  match nostr.Find tags "d" with
  | None => Err ErrMissingTagD
  | Some tagD =>
      if (Z.of_nat (length tagD) <? 2) then Err ErrMissingTagD else
      match nostr.Find tags "k" with
      | None => Err ErrMissingTagK
      | Some tagK =>
          if (Z.of_nat (length tagK) <? 2) then Err ErrMissingTagK else
          match Atoi (tag_value tagK) with
          | None => Err (ErrInvalidKind (tag_value tagK))
          | Some kind =>
              if kind =? KindNodeAnnouncement then
                Ok (Identifier.mk (tag_value tagD) EmptyString (tag_value tagD) kind [])
              else
                let parts := Split (tag_value tagD) in
                if (Z.of_nat (length parts) <? 3) then Err (ErrTagDFormat kind)
                else Ok (Identifier.mk (tag_value tagD) (nth 2 parts EmptyString)
                           (nth 1 parts EmptyString) kind (skipn 3 parts))
          end
      end
  end.

(** [GetIdentifier] returns the cached identifier when there is one, and on a
    successful parse stores it in the event; the event after the call is
    returned with the result. *)
Definition GetIdentifier (e : Event.t) : Event.t * result Identifier.t :=
  match Event.id e with
  | Some i => (e, Ok i)
  | None =>
      match parseIdentifier (nostr.Event.Tags (Event.NostrEvent e)) with
      | Err x => (e, Err x)
      | Ok i =>
          (Event.mk (Event.NostrEvent e) (Event.kind e) (Event.finalized e) (Some i),
           Ok i)
      end
  end.

Definition NewEventFromNostrRelay (ev : nostr.Event.t) : result Event.t :=
  match GetIdentifier (wrap ev) with
  | (_, Err x) => Err (ErrWrap "getting identifier" x)
  | (e, Ok i) => Ok (Event.mk (Event.NostrEvent e) (Identifier.Kind i) true (Event.id e))
  end.

Definition is_sig_tag (tag : nostr.Tag) : bool :=
  match tag with
  | name :: _ => String.eqb name "sig"
  | [] => false
  end.

(** [copyWithoutSig]: a fresh record with the tags named "sig" dropped; the ID
    and the signature are left at their zero value. *)
Definition copyWithoutSig (e : Event.t) : nostr.Event.t :=
  let ev := Event.NostrEvent e in
  nostr.Event.mk EmptyString (nostr.Event.PubKey ev) (nostr.Event.CreatedAt ev)
    (nostr.Event.Kind ev)
    (List.filter (fun tag => negb (is_sig_tag tag)) (nostr.Event.Tags ev))
    (nostr.Event.Content ev) EmptyString.

Definition tagD_of (network pubkey : string) (kind : Kind) (opts : list string) : string :=
  if kind =? KindNodeAnnouncement then pubkey
  else Join ([Itoa kind; pubkey; network] ++ opts).

Definition Finalize (e : Event.t) (network pubkey : string) (kind : Kind)
    (opts : list string) : result Event.t :=
  let ev := Event.NostrEvent e in
  match nostr.Find (nostr.Event.Tags ev) "d" with
  | Some _ => Err (ErrDuplicateTag "d")
  | None =>
      match nostr.Find (nostr.Event.Tags ev) "k" with
      | Some _ => Err (ErrDuplicateTag "k")
      | None =>
          let kindStr := Itoa kind in
          let tagD := tagD_of network pubkey kind opts in
          let ev' :=
            with_tags (with_kind ev KindLightningInformation)
              (nostr.Event.Tags ev ++ [["d"; tagD]; ["k"; kindStr]]) in
          Ok (Event.mk ev' kind true (Event.id e))
      end
  end.

Definition IsFinalized (e : Event.t) : bool := Event.finalized e.

Definition RequiresLnSignature (e : Event.t) : bool :=
  Event.kind e =? KindNodeAnnouncement.

(** ** Collaborators

    The hash and signature primitives of the libraries the package calls, the
    two signers, the Lightning node, the relay pool and the clock are
    interfaces; the code is modelled over any implementation of them. *)

(** [go-nostr]: the SHA-256 of the serialized record (hex) and the check of the
    record's Schnorr signature. *)
Class NostrCrypto := {
  sha256hex : nostr.Serialized -> string;
  CheckSignature : nostr.Event.t -> bool * option Error
}.

(** [zbase32], [chainhash] and [btcec/ecdsa], as [checkLightningSig] uses them;
    [RecoverCompact] yields the compressed serialization of the recovered key. *)
Class LnCrypto := {
  zbase32_DecodeString : string -> option string;
  DoubleHashB : string -> string;
  RecoverCompact : string -> string -> option string;
  hex_EncodeToString : string -> string
}.

(** [nostr.Now()]: the clock, read at successive logical steps. *)
Class Clock := {
  Now : nat -> nostr.Timestamp
}.

(** [nostr.Signer]: signing returns the record as the signer left it. *)
Class NostrSigner := {
  Signer_SignEvent : nostr.Event.t -> result nostr.Event.t;
  Signer_GetPublicKey : result string
}.

Record NodeInfoResponse := {
  info_PubKey : string;
  info_Network : string
}.

(** [LightningNode], which embeds [LnSigner]. *)
Class LightningNode := {
  SignMessage : string -> result string;
  GetAlias : string -> result string;
  ln_GetNodeInfo : result NodeInfoResponse
}.

(** The request sent to the relays: wire kinds, lower time bound, "k" tag. *)
Record Filter := {
  filter_Kinds : list Z;
  filter_Since : nostr.Timestamp;
  filter_TagK : string
}.

(** [SimplePool.FetchManyReplaceable]: the records the relays hand back, in
    the order in which [Range] visits them. *)
Class RelayPool := {
  FetchManyReplaceable : list string -> Filter -> list nostr.Event.t
}.

(** A [context.Context]: never cancelled ([None]) or cancelled from some
    logical step on. *)
Definition Ctx := option nat.

Definition ctx_Err (ctx : Ctx) (step : nat) : option Error :=
  match ctx with
  | Some n => if (n <=? step)%nat then Some ErrCancelled else None
  | None => None
  end.

Definition checkNetwork (n : NodeInfoResponse) : bool :=
  IsValidNetwork (info_Network n).

(** ** Hashing, verification and signing *)

Section Signing.
Context `{NostrCrypto} `{LnCrypto} `{NostrSigner} `{LightningNode}.

(** [nostr.Event.GetID] *)
Definition GetID (ev : nostr.Event.t) : string :=
  sha256hex (nostr.Serialize ev).

(** [Hash]: the bytes of the ID of the copy without "sig" tags. *)
Definition Hash (e : Event.t) : string :=
  GetID (copyWithoutSig e).

Definition checkLightningSig (e : Event.t) (pubKeyID : string) : bool * option Error :=
  let sigs := nostr.FindAll (nostr.Event.Tags (Event.NostrEvent e)) "sig" in
  if (1 <? Z.of_nat (length sigs)) then (false, Some ErrMoreThanOneSig)
  else
    match sigs with
    | [] => (false, Some ErrNoSig)
    | sigt :: _ =>
        let sig := tag_value sigt in
        match zbase32_DecodeString sig with
        | None => (false, Some ErrDecodeSig)
        | Some s =>
            let msg := Hash e in
            let b := DoubleHashB (signedMsgPrefix +:+ msg) in
            match RecoverCompact s b with
            | None => (false, Some ErrRecoverPubKey)
            | Some pubKey =>
                let pubKeyHex := hex_EncodeToString pubKey in
                if negb (String.eqb pubKeyHex pubKeyID)
                then (false, Some ErrPubKeyMismatch)
                else (true, None)
            end
        end
    end.

(** The test of [Verify] on the "k" tag:
    [k == nil || len(k) < 2 || k[1] != strconv.Itoa(int(idx.Kind))]. *)
Definition kTagInvalid (tags : nostr.Tags) (idx : Identifier.t) : bool :=
  match nostr.Find tags "k" with
  | None => true
  | Some k =>
      (Z.of_nat (length k) <? 2)
      || negb (String.eqb (tag_value k) (Itoa (Identifier.Kind idx)))
  end.

Definition is_nil (err : option Error) : bool :=
  match err with
  | None => true
  | Some _ => false
  end.

(** [Verify], at clock reading [now]. The event comes back with the
    identifier cached by [GetIdentifier]. *)
Definition Verify (now : nostr.Timestamp) (e : Event.t) : Event.t * (bool * option Error) :=
  let ev := Event.NostrEvent e in
  let createdAtLimitUpper := wrap64 (now + EventGracePeriodSeconds) in
  if (createdAtLimitUpper <? nostr.Event.CreatedAt ev) then (e, (false, Some ErrFutureTimestamp))
  else if negb (String.eqb (nostr.Event.ID ev) (GetID ev)) then (e, (false, Some ErrIDMismatch))
  else if (MaxContentSize <? Z.of_nat (String.length (nostr.Event.Content ev)))
  then (e, (false, Some (ErrContentTooLarge (Z.of_nat (String.length (nostr.Event.Content ev))))))
  else
    match GetIdentifier e with
    | (e1, Err err) => (e1, (false, Some err))
    | (e1, Ok idx) =>
        if negb (Identifier.Kind idx =? KindNodeAnnouncement)
           && negb (IsValidNetwork (Identifier.Network idx))
        then (e1, (false, Some (ErrInvalidNetwork (Identifier.Network idx))))
        else if kTagInvalid (nostr.Event.Tags ev) idx then (e1, (false, Some ErrKindTag))
        else
          let '(ok, err) := CheckSignature ev in
          if negb (is_nil err) || negb ok then (e1, (false, err))
          else if RequiresLnSignature e1 then
            let '(ok, err) := checkLightningSig e1 (Identifier.PubKey idx) in
            if negb (is_nil err) || negb ok then (e1, (false, err))
            else (e1, (true, None))
          else (e1, (true, None))
    end.

Definition append_tag (e : Event.t) (tag : nostr.Tag) : Event.t :=
  Event.mk
    (with_tags (Event.NostrEvent e) (nostr.Event.Tags (Event.NostrEvent e) ++ [tag]))
    (Event.kind e) (Event.finalized e) (Event.id e).

Definition signWithLn (ev : Event.t) : result Event.t :=
  match nostr.Find (nostr.Event.Tags (Event.NostrEvent ev)) "sig" with
  | Some _ => Err ErrAlreadySigTag
  | None =>
      match SignMessage (Hash ev) with
      | Err err => Err err
      | Ok sig => Ok (append_tag ev ["sig"; sig])
      end
  end.

(** [CombinedSigner.SignEvent]: the Lightning signature first (when the kind
    asks for it), the Nostr signature over the fully tagged record last. *)
Definition SignEvent (ev : Event.t) : result Event.t :=
  if negb (IsFinalized ev) then Err ErrNotFinalized
  else
    let signed_ln :=
      if RequiresLnSignature ev then
        match signWithLn ev with
        | Err err => Err (ErrWrap "signing with ln" err)
        | Ok ev1 => Ok ev1
        end
      else Ok ev in
    match signed_ln with
    | Err err => Err err
    | Ok ev1 =>
        match Signer_SignEvent (Event.NostrEvent ev1) with
        | Err err => Err (ErrWrap "signing with nostr" err)
        | Ok nev => Ok (Event.mk nev (Event.kind ev1) (Event.finalized ev1) (Event.id ev1))
        end
    end.

End Signing.

(** ** The trust store

    The mutexes only serialize the calls; the store is modelled as the value
    the calls transform one after the other. *)

Record announcementState := {
  createdAt : nostr.Timestamp;
  pub : string
}.

Record nodeState := {
  lastAnnouncement : announcementState;
  events : gmap string Event.t
}.

Definition newNodeState : nodeState :=
  {| lastAnnouncement := {| createdAt := 0; pub := EmptyString |};
     events := ∅ |}.

Record MapStore := {
  records : gmap string nodeState
}.

Definition NewMapStore : MapStore := {| records := ∅ |}.

Definition ev_CreatedAt (ev : Event.t) : nostr.Timestamp :=
  nostr.Event.CreatedAt (Event.NostrEvent ev).

Definition ev_PubKey (ev : Event.t) : string :=
  nostr.Event.PubKey (Event.NostrEvent ev).

Definition registerAnnouncement (ns : nodeState) (ev : Event.t) (id : Identifier.t)
    : nodeState * option Error :=
  if (createdAt (lastAnnouncement ns) >=? ev_CreatedAt ev)
  then (ns, Some (ErrStaleAnnouncement (createdAt (lastAnnouncement ns)) (ev_CreatedAt ev)))
  else
    let kept : gmap string Event.t :=
      if negb (String.eqb (pub (lastAnnouncement ns)) (ev_PubKey ev))
      then ∅ else events ns in
    ({| lastAnnouncement := {| createdAt := ev_CreatedAt ev; pub := ev_PubKey ev |};
        events := <[Identifier.TagD id := ev]> kept |},
     None).

Definition storeRegularEvent (ns : nodeState) (ev : Event.t) (id : Identifier.t)
    : nodeState * option Error :=
  if negb (String.eqb (pub (lastAnnouncement ns)) (ev_PubKey ev))
  then (ns, Some (ErrUntrustedSigner (ev_PubKey ev) (pub (lastAnnouncement ns))))
  else
    let stored :=
      {| lastAnnouncement := lastAnnouncement ns;
         events := <[Identifier.TagD id := ev]> (events ns) |} in
    match events ns !! Identifier.TagD id with
    | Some lastRecord =>
        if (ev_CreatedAt lastRecord >=? ev_CreatedAt ev)
        then (ns, Some (ErrStaleRecord (ev_CreatedAt lastRecord) (ev_CreatedAt ev)))
        else (stored, None)
    | None => (stored, None)
    end.

(** [getNodeState]: the node's state, created empty when the key is new. *)
Definition getNodeState (s : MapStore) (pubkey : string) : MapStore * nodeState :=
  match records s !! pubkey with
  | Some ns => (s, ns)
  | None => ({| records := <[pubkey := newNodeState]> (records s) |}, newNodeState)
  end.

(** [StoreEvent]: the node state is held by reference in the map, so what the
    two branches do to it is written back under the node's key. *)
Definition StoreEvent (s : MapStore) (ev : Event.t) : MapStore * option Error :=
  match GetIdentifier ev with
  | (_, Err err) => (s, Some err)
  | (ev1, Ok id) =>
      let '(s1, ns) := getNodeState s (Identifier.PubKey id) in
      let '(ns1, err) :=
        if Event.kind ev1 =? KindNodeAnnouncement
        then registerAnnouncement ns ev1 id
        else storeRegularEvent ns ev1 id in
      ({| records := <[Identifier.PubKey id := ns1]> (records s1) |}, err)
  end.

Definition newInFilter (set : gset string) (item : string) : bool :=
  if decide (size set = 0%nat) then true else bool_decide (item ∈ set).

(** [MapStore.GetEvents]: the order is that of the iteration over the maps. *)
Definition MapStore_GetEvents (s : MapStore) (kind : Kind) (pubKeys : gset string)
    : list Event.t :=
  let nodes :=
    List.map snd
      (List.filter (fun kv => newInFilter pubKeys (fst kv)) (map_to_list (records s))) in
  List.flat_map
    (fun ns =>
       List.filter (fun ev => Event.kind ev =? kind)
         (List.map snd (map_to_list (events ns))))
    nodes.

(** ** The client *)

Module Client.
Record t := mk {
  store : MapStore;
  pub : string;
  info : NodeInfoResponse
}.
End Client.

(** Serialization of a payload, [json.Marshal]. *)
Class Marshal (A : Type) := {
  json_Marshal : A -> result string
}.

Section Pipeline.
Context `{NostrCrypto} `{LnCrypto} `{NostrSigner} `{LightningNode} `{RelayPool} `{Clock}.

Definition Client_GetNodeInfo : result NodeInfoResponse :=
  match ln_GetNodeInfo with
  | Err err => Err err
  | Ok info =>
      if negb (checkNetwork info) then Err (ErrInvalidNetwork (info_Network info))
      else Ok info
  end.

Definition NewClient : result Client.t :=
  match Signer_GetPublicKey with
  | Err err => Err err
  | Ok pub =>
      match Client_GetNodeInfo with
      | Err err => Err err
      | Ok info => Ok (Client.mk NewMapStore pub info)
      end
  end.

(** The body of the [Range] callback of [syncStoreWithPool] past the
    cancellation test: the store after the record and the warnings it adds. *)
Definition processEvent (now : nostr.Timestamp) (s : MapStore) (ev : nostr.Event.t)
    : MapStore * list Error :=
  match NewEventFromNostrRelay ev with
  | Err err => (s, [ErrWrap "creating event from nostr relay" err])
  | Ok lev =>
      match Verify now lev with
      | (lev1, (ok, err)) =>
          if negb ok || negb (is_nil err)
          then (s, [ErrWrap "invalid event"
                      (match err with Some x => x | None => ErrExternal "<nil>" end)])
          else
            match StoreEvent s lev1 with
            | (s1, Some err) => (s1, [ErrWrap "storing event failed" err])
            | (s1, None) => (s1, [])
            end
      end
  end.

(** [res.Range]: one cancellation test per record; the walk stops at the
    first record that sees the context cancelled. *)
Fixpoint rangeEvents (ctx : Ctx) (step : nat) (s : MapStore)
    (evs : list nostr.Event.t) (fetchErrors : list Error)
    : nat * MapStore * list Error :=
  match evs with
  | [] => (step, s, fetchErrors)
  | ev :: rest =>
      match ctx_Err ctx step with
      | Some _ => (step, s, fetchErrors)
      | None =>
          let '(s1, errs) := processEvent (Now step) s ev in
          rangeEvents ctx (S step) s1 rest (fetchErrors ++ errs)
      end
  end.

(** [syncStoreWithPool]: the step reached, the store, the fatal error and the
    warnings. *)
Definition syncStoreWithPool (ctx : Ctx) (step : nat) (s : MapStore)
    (urls : list string) (filter : Filter)
    : nat * MapStore * option Error * list Error :=
  let res := FetchManyReplaceable urls filter in
  let '(step1, s1, fetchErrors) := rangeEvents ctx step s res [] in
  match ctx_Err ctx step1 with
  | Some err => (step1, s1, Some err, [])
  | None => (step1, s1, None, fetchErrors)
  end.

Definition kindFilter (since : nostr.Timestamp) (kind : Kind) : Filter :=
  {| filter_Kinds := [KindLightningInformation];
     filter_Since := since;
     filter_TagK := Itoa kind |}.

(** [Client.GetEvents]: the client after the call (its store is shared), the
    events, the fatal error and the warnings. *)
Definition Client_GetEvents (c : Client.t) (ctx : Ctx) (step : nat) (kind : Kind)
    (pubkeys : gset string) (urls : list string) (since : nostr.Timestamp)
    : Client.t * (list Event.t * option Error * list Error) :=
  let with_store s := Client.mk s (Client.pub c) (Client.info c) in
  let '(step1, s1, err, err2) :=
    syncStoreWithPool ctx step (Client.store c) urls (kindFilter since KindNodeAnnouncement) in
  match err with
  | Some e => (with_store s1, ([], Some (ErrWrap "fetching node announcements" e), []))
  | None =>
      if negb (kind =? KindNodeAnnouncement) then
        let '(step2, s2, err, err3) :=
          syncStoreWithPool ctx step1 s1 urls (kindFilter since kind) in
        match err with
        | Some e => (with_store s2, ([], Some (ErrWrap "fetching events of kind" e), []))
        | None => (with_store s2, (MapStore_GetEvents s2 kind pubkeys, None, err2 ++ err3))
        end
      else (with_store s1, (MapStore_GetEvents s1 kind pubkeys, None, err2))
  end.

(** [Client.Publish], up to the hand-over to the pool: the record that is
    transmitted. The clock is read at [step] for the time stamp and at the
    next step by [Verify]. *)
Definition Publish {A} `{Marshal A} (c : Client.t) (step : nat) (data : A)
    (kind : Kind) (opts : list string) : result nostr.Event.t :=
  match json_Marshal data with
  | Err err => Err (ErrWrap "marshaling node info" err)
  | Ok b =>
      let ev := wrap (nostr.Event.mk EmptyString (Client.pub c) (Now step) 0 [] b EmptyString) in
      match Finalize ev (info_Network (Client.info c)) (info_PubKey (Client.info c)) kind opts with
      | Err err => Err (ErrWrap "finalizing event" err)
      | Ok ev1 =>
          match SignEvent ev1 with
          | Err err => Err (ErrWrap "signing event" err)
          | Ok ev2 =>
              match Verify (Now (S step)) ev2 with
              | (ev3, (ok, err)) =>
                  if negb ok || negb (is_nil err)
                  then Err (ErrWrap "verifying event before publish"
                              (match err with Some x => x | None => ErrExternal "<nil>" end))
                  else Ok (Event.NostrEvent ev3)
              end
          end
      end
  end.

End Pipeline.

(** ** Vocabulary of the specification *)

(** A tag named [name], with or without a value. *)
Definition tag_named (name : string) (tag : nostr.Tag) : bool :=
  match tag with
  | n :: _ => String.eqb n name
  | [] => false
  end.

Definition count_named (name : string) (tags : nostr.Tags) : nat :=
  length (List.filter (tag_named name) tags).

(** The errors of [GetIdentifier], the specification's MalformedTag. *)
Definition MalformedTag (e : Error) : bool :=
  match e with
  | ErrMissingTagD | ErrMissingTagK | ErrInvalidKind _ | ErrTagDFormat _ => true
  | _ => false
  end.

(** The tail [:<opt>...] of an encoded identifier. *)
Fixpoint encode_opts (opts : list string) : string :=
  match opts with
  | [] => EmptyString
  | o :: rest => ":" +:+ o +:+ encode_opts rest
  end.

Definition ev_Tags (e : Event.t) : nostr.Tags :=
  nostr.Event.Tags (Event.NostrEvent e).

(** The identifier an event answers with is the one its tags spell: true of
    an event without cached identifier, and of one whose cache was filled from
    the tags it still carries. *)
Definition cache_coherent (e : Event.t) : Prop :=
  snd (GetIdentifier e) = parseIdentifier (ev_Tags e).

(** What of two events has to agree for them to be the same to the Lightning
    signature: the author, the time stamp, the wire kind, the content, and
    the tags that are not named "sig", in order. *)
Definition signed_fields_agree (e e' : Event.t) : Prop :=
  nostr.Event.PubKey (Event.NostrEvent e) = nostr.Event.PubKey (Event.NostrEvent e')
  /\ nostr.Event.CreatedAt (Event.NostrEvent e)
     = nostr.Event.CreatedAt (Event.NostrEvent e')
  /\ nostr.Event.Kind (Event.NostrEvent e) = nostr.Event.Kind (Event.NostrEvent e')
  /\ nostr.Event.Content (Event.NostrEvent e) = nostr.Event.Content (Event.NostrEvent e')
  /\ List.filter (fun tag => negb (tag_named "sig" tag)) (ev_Tags e)
     = List.filter (fun tag => negb (tag_named "sig" tag)) (ev_Tags e').

(** ** The verification pipeline, as the specification lists it

    Eight checks, each passing or failing with the error it reports (the
    signature check of the transport may fail without one), run in order up
    to the first failure. Checks 5 to 8 read the identifier that check 4
    derived. *)

Inductive outcome :=
| Pass
| Fail (err : option Error).

Fixpoint first_failure (checks : list outcome) : option (option Error) :=
  match checks with
  | [] => None
  | Pass :: rest => first_failure rest
  | Fail err :: _ => Some err
  end.

Section VerifySpec.
Context `{NostrCrypto} `{LnCrypto}.

Definition check_timestamp (now : nostr.Timestamp) (e : Event.t) : outcome :=
  if (ev_CreatedAt e <=? now + 600) then Pass else Fail (Some ErrFutureTimestamp).

Definition check_id (e : Event.t) : outcome :=
  if String.eqb (nostr.Event.ID (Event.NostrEvent e)) (GetID (Event.NostrEvent e))
  then Pass else Fail (Some ErrIDMismatch).

Definition content_length (e : Event.t) : Z :=
  Z.of_nat (String.length (nostr.Event.Content (Event.NostrEvent e))).

Definition check_content (e : Event.t) : outcome :=
  if (content_length e <=? 1048576) then Pass
  else Fail (Some (ErrContentTooLarge (content_length e))).

Definition check_identifier (e : Event.t) : outcome :=
  match snd (GetIdentifier e) with
  | Ok _ => Pass
  | Err err => Fail (Some err)
  end.

Definition check_network (e : Event.t) : outcome :=
  match snd (GetIdentifier e) with
  | Ok idx =>
      if Identifier.Kind idx =? KindNodeAnnouncement then Pass
      else if IsValidNetwork (Identifier.Network idx) then Pass
      else Fail (Some (ErrInvalidNetwork (Identifier.Network idx)))
  | Err _ => Pass
  end.

Definition check_kind_tag (e : Event.t) : outcome :=
  match snd (GetIdentifier e) with
  | Ok idx =>
      match nostr.Find (ev_Tags e) "k" with
      | Some k =>
          if String.eqb (tag_value k) (Itoa (Identifier.Kind idx)) then Pass
          else Fail (Some ErrKindTag)
      | None => Fail (Some ErrKindTag)
      end
  | Err _ => Pass
  end.

Definition check_identity_sig (e : Event.t) : outcome :=
  match CheckSignature (Event.NostrEvent e) with
  | (true, None) => Pass
  | (_, err) => Fail err
  end.

Definition lightning_sig_recovers (e : Event.t) (sig pubKeyID : string) : outcome :=
  match zbase32_DecodeString sig with
  | None => Fail (Some ErrDecodeSig)
  | Some s =>
      match RecoverCompact s (DoubleHashB (signedMsgPrefix +:+ Hash e)) with
      | None => Fail (Some ErrRecoverPubKey)
      | Some pubKey =>
          if String.eqb (hex_EncodeToString pubKey) pubKeyID then Pass
          else Fail (Some ErrPubKeyMismatch)
      end
  end.

Definition check_lightning_sig (e : Event.t) : outcome :=
  if Event.kind e =? KindNodeAnnouncement then
    match snd (GetIdentifier e) with
    | Ok idx =>
        match nostr.FindAll (ev_Tags e) "sig" with
        | [] => Fail (Some ErrNoSig)
        | [sigt] => lightning_sig_recovers e (tag_value sigt) (Identifier.PubKey idx)
        | _ :: _ :: _ => Fail (Some ErrMoreThanOneSig)
        end
    | Err _ => Pass
    end
  else Pass.

Definition verify_checks (now : nostr.Timestamp) (e : Event.t) : list outcome :=
  [ check_timestamp now e;
    check_id e;
    check_content e;
    check_identifier e;
    check_network e;
    check_kind_tag e;
    check_identity_sig e;
    check_lightning_sig e ].

End VerifySpec.

(** ** A small implementation of the collaborators

    Stand-ins for the digest, the two signature schemes, the signers, the node
    and the clock, simple enough to run inside Rocq; the examples below are
    evaluated on them. A Schnorr signature is the signer's key next to the
    digest it signed, a Lightning signature the node's name next to the
    message. *)

Definition demo_NostrCrypto : NostrCrypto :=
  {| sha256hex := fun ser =>
       let '(pk, t, k, tags, content) := ser in
       Join ([pk; Itoa t; Itoa k; content] ++ List.concat tags);
     CheckSignature := fun ev =>
       (String.eqb (nostr.Event.Sig ev)
          ("schnorr/" +:+ nostr.Event.PubKey ev +:+ "/" +:+
           Join ([nostr.Event.PubKey ev; Itoa (nostr.Event.CreatedAt ev);
                  Itoa (nostr.Event.Kind ev); nostr.Event.Content ev]
                 ++ List.concat (nostr.Event.Tags ev))),
        None) |}.

Definition demo_LnCrypto : LnCrypto :=
  {| zbase32_DecodeString := fun s => Some s;
     DoubleHashB := fun m => "dh(" +:+ m +:+ ")";
     RecoverCompact := fun s b =>
       if String.eqb s ("node1/" +:+ b) then Some "02node1" else None;
     hex_EncodeToString := fun b => b |}.

Definition demo_sign (ev : nostr.Event.t) : nostr.Event.t :=
  let digest :=
    Join (["npub1"; Itoa (nostr.Event.CreatedAt ev); Itoa (nostr.Event.Kind ev);
           nostr.Event.Content ev] ++ List.concat (nostr.Event.Tags ev)) in
  nostr.Event.mk digest "npub1" (nostr.Event.CreatedAt ev) (nostr.Event.Kind ev)
    (nostr.Event.Tags ev) (nostr.Event.Content ev)
    ("schnorr/npub1/" +:+ digest).

Definition demo_NostrSigner : NostrSigner :=
  {| Signer_SignEvent := fun ev => Ok (demo_sign ev);
     Signer_GetPublicKey := Ok "npub1" |}.

Definition demo_LightningNode : LightningNode :=
  {| SignMessage := fun msg => Ok ("node1/dh(" +:+ signedMsgPrefix +:+ msg +:+ ")");
     GetAlias := fun _ => Ok "alice";
     ln_GetNodeInfo := Ok {| info_PubKey := "02node1"; info_Network := "mainnet" |} |}.

Definition demo_Clock : Clock := {| Now := fun _ => 1000 |}.

Definition demo_Marshal : Marshal string := {| json_Marshal := fun s => Ok s |}.

(** A record as a relay delivers it, signed by the demo signer. *)
Definition demo_record (createdAt : nostr.Timestamp) (tags : nostr.Tags) : nostr.Event.t :=
  demo_sign (nostr.Event.mk "" "" createdAt KindLightningInformation tags "{}" "").

(** An unsigned record of a given author. *)
Definition plain_record (author : string) (createdAt : nostr.Timestamp)
    (tags : nostr.Tags) : nostr.Event.t :=
  nostr.Event.mk "" author createdAt KindLightningInformation tags "{}" "".

(** The event [NewEventFromNostrRelay] makes of a record that parses. *)
Definition relay_event (ev : nostr.Event.t) : Event.t :=
  match NewEventFromNostrRelay ev with
  | Ok e => e
  | Err _ => wrap ev
  end.

(** A digest without collisions, to stand for SHA-256 where a statement asks
    for one: the serialized record written out with every string and every
    list preceded by its length in unary. *)
Fixpoint unary (n : nat) : string :=
  match n with
  | O => "0"
  | S n => String "1" (unary n)
  end.

Definition enc_str (s rest : string) : string :=
  unary (String.length s) +:+ s +:+ rest.

Definition enc_list {A : Type} (f : A -> string -> string) (l : list A) (rest : string)
    : string :=
  unary (length l) +:+ fold_right f rest l.

Definition enc_serialized (ser : nostr.Serialized) : string :=
  let '(pk, t, k, tags, content) := ser in
  enc_str pk
    (enc_str (Itoa t)
       (enc_str (Itoa k)
          (enc_list (enc_list enc_str) tags (enc_str content EmptyString)))).

Definition injective_NostrCrypto : NostrCrypto :=
  {| sha256hex := enc_serialized;
     CheckSignature := fun _ => (true, None) |}.

(** ** Runs of the trust store *)

(** The state of a node as [StoreEvent] finds it: the recorded one, or the
    empty state that [getNodeState] creates for a new key. *)
Definition node_of (s : MapStore) (P : string) : nodeState :=
  default newNodeState (records s !! P).

(** The store after a sequence of [StoreEvent] calls. *)
Definition StoreAll (s : MapStore) (evs : list Event.t) : MapStore :=
  fold_left (fun s ev => fst (StoreEvent s ev)) evs s.

(** What a branch of [StoreEvent] leaves in the node, and the error. *)
Definition store_branch (ns : nodeState) (ev1 : Event.t) (id : Identifier.t)
    : nodeState * option Error :=
  if Event.kind ev1 =? KindNodeAnnouncement
  then registerAnnouncement ns ev1 id
  else storeRegularEvent ns ev1 id.

(** A trust-anchor event addressed to node [P]. *)
Definition is_anchor_for (P : string) (ev : Event.t) : bool :=
  (Event.kind ev =? KindNodeAnnouncement)
  && match snd (GetIdentifier ev) with
     | Ok id => String.eqb (Identifier.PubKey id) P
     | Err _ => false
     end.

(** An event addressed to the slot [X] of node [P]. *)
Definition hits_slot (P X : string) (ev : Event.t) : bool :=
  match snd (GetIdentifier ev) with
  | Ok id => String.eqb (Identifier.PubKey id) P && String.eqb (Identifier.TagD id) X
  | Err _ => false
  end.

(** The time stamps of the trust anchors accepted for [P] along a run. *)
Fixpoint announcement_history (P : string) (s : MapStore) (evs : list Event.t)
    : list nostr.Timestamp :=
  match evs with
  | [] => []
  | ev :: rest =>
      (if is_nil (snd (StoreEvent s ev)) && is_anchor_for P ev
       then [ev_CreatedAt ev] else [])
      ++ announcement_history P (fst (StoreEvent s ev)) rest
  end.

(** The time stamps of the events accepted into slot [X] of [P] along a run. *)
Fixpoint slot_history (P X : string) (s : MapStore) (evs : list Event.t)
    : list nostr.Timestamp :=
  match evs with
  | [] => []
  | ev :: rest =>
      (if is_nil (snd (StoreEvent s ev)) && hits_slot P X ev
       then [ev_CreatedAt ev] else [])
      ++ slot_history P X (fst (StoreEvent s ev)) rest
  end.

(** Whether a run accepts a trust anchor that changes the identity bound to
    [P], which is when the slots of [P] are discarded. *)
Fixpoint purges (P : string) (s : MapStore) (evs : list Event.t) : bool :=
  match evs with
  | [] => false
  | ev :: rest =>
      (is_nil (snd (StoreEvent s ev)) && is_anchor_for P ev
       && negb (String.eqb (pub (lastAnnouncement (node_of s P))) (ev_PubKey ev)))
      || purges P (fst (StoreEvent s ev)) rest
  end.

(** The kind of the event is the kind of its identifier, and the identifier
    has the shape of its kind: the key itself for a trust anchor, a longer
    string otherwise. Both constructors of events establish this. *)
Definition kind_coherent (ev : Event.t) : bool :=
  match snd (GetIdentifier ev) with
  | Ok id =>
      (Event.kind ev =? Identifier.Kind id)
      && (if Identifier.Kind id =? KindNodeAnnouncement
          then String.eqb (Identifier.TagD id) (Identifier.PubKey id)
          else negb (String.eqb (Identifier.TagD id) (Identifier.PubKey id)))
  | Err _ => true
  end.

(** The slot under the node's own key, where its trust anchor is kept, holds
    nothing newer than the recorded announcement. *)
Definition anchor_slot_ok (s : MapStore) (P : string) : bool :=
  match events (node_of s P) !! P with
  | Some ev => ev_CreatedAt ev <=? createdAt (lastAnnouncement (node_of s P))
  | None => true
  end.

(** Every slot of the node holds an event of the bound identity. *)
Definition slots_signed_by_bound (s : MapStore) (P : string) : Prop :=
  forall X e, events (node_of s P) !! X = Some e ->
              ev_PubKey e = pub (lastAnnouncement (node_of s P)).

(** Four records of one Lightning node: an announcement by identity A, a
    node-info record by A, a later announcement by identity B, and a
    node-info record by B that is older than the one of A. *)
Definition rotation_run : list Event.t :=
  [ relay_event (plain_record "A" 10 [["d"; "P"]; ["k"; "0"]]);
    relay_event (plain_record "A" 500 [["d"; "1:P:mainnet"]; ["k"; "1"]]);
    relay_event (plain_record "B" 20 [["d"; "P"]; ["k"; "0"]]);
    relay_event (plain_record "B" 30 [["d"; "1:P:mainnet"]; ["k"; "1"]]) ].

(** ** What is assumed of the signers *)

Section SignerAssumptions.
Context `{NostrCrypto} `{LnCrypto} `{NostrSigner} `{LightningNode}.

(** The record as the signing of [go-nostr] leaves it: the signer's key is
    written into it, the ID is the digest of the record with that key, and
    the signature is attached. *)
Definition signed_by (pk sig : string) (ev : nostr.Event.t) : nostr.Event.t :=
  nostr.Event.mk
    (sha256hex (pk, nostr.Event.CreatedAt ev, nostr.Event.Kind ev,
                nostr.Event.Tags ev, nostr.Event.Content ev))
    pk (nostr.Event.CreatedAt ev) (nostr.Event.Kind ev) (nostr.Event.Tags ev)
    (nostr.Event.Content ev) sig.

(** The identity signer holds the key [pk] and its signatures verify. *)
Definition nostr_signer_valid (pk : string) : Prop :=
  Signer_GetPublicKey = Ok pk
  /\ forall ev, exists sig,
       Signer_SignEvent ev = Ok (signed_by pk sig ev)
       /\ CheckSignature (signed_by pk sig ev) = (true, None).

(** The Lightning node signs with the key [lnpk]: what it returns decodes,
    and the key recovered from it over the message is [lnpk]. *)
Definition ln_signer_valid (lnpk : string) : Prop :=
  forall msg, exists sig s pubKey,
    SignMessage msg = Ok sig
    /\ zbase32_DecodeString sig = Some s
    /\ RecoverCompact s (DoubleHashB (signedMsgPrefix +:+ msg)) = Some pubKey
    /\ hex_EncodeToString pubKey = lnpk.

End SignerAssumptions.

(** ** Runs of the sync pipeline *)

Section Runs.
Context `{NostrCrypto} `{LnCrypto} `{Clock}.

(** The records of a pass processed one after the other without
    cancellation: the store reached and the warnings, in order. *)
Fixpoint run (step : nat) (s : MapStore) (recs : list nostr.Event.t)
    : MapStore * list Error :=
  match recs with
  | [] => (s, [])
  | r :: rest =>
      let '(s1, w) := processEvent (Now step) s r in
      let '(s2, ws) := run (S step) s1 rest in
      (s2, w ++ ws)
  end.

End Runs.

Section Fetched.
Context `{RelayPool}.

(** The records of both passes, in the order in which they are processed. *)
Definition fetched (kind : Kind) (urls : list string) (since : nostr.Timestamp)
    : list nostr.Event.t :=
  FetchManyReplaceable urls (kindFilter since KindNodeAnnouncement)
  ++ (if kind =? KindNodeAnnouncement then []
      else FetchManyReplaceable urls (kindFilter since kind)).

End Fetched.



(** A record with its signature replaced. *)
Definition forge (ev : nostr.Event.t) : nostr.Event.t :=
  nostr.Event.mk (nostr.Event.ID ev) (nostr.Event.PubKey ev) (nostr.Event.CreatedAt ev)
    (nostr.Event.Kind ev) (nostr.Event.Tags ev) (nostr.Event.Content ev) "forged".

(** Five node-info records, the third with a forged signature, as a relay
    would deliver them, and a store that knows the four nodes of the others
    as bound to the demo identity. *)
Definition demo_info (node : string) : nostr.Event.t :=
  demo_record 200 [["d"; "1:" +:+ node +:+ ":mainnet"]; ["k"; "1"]].

Definition demo_batch : list nostr.Event.t :=
  [ demo_info "P1"; demo_info "P2"; forge (demo_info "P5");
    demo_info "P3"; demo_info "P4" ].

Definition demo_RelayPool : RelayPool :=
  {| FetchManyReplaceable := fun _ f =>
       if String.eqb (filter_TagK f) "1" then demo_batch else [] |}.

Definition demo_store : MapStore :=
  StoreAll NewMapStore
    (List.map (fun node => relay_event (demo_record 100 [["d"; node]; ["k"; "0"]]))
       ["P1"; "P2"; "P3"; "P4"]).

Definition demo_client : Client.t :=
  Client.mk demo_store "npub1"
    {| info_PubKey := "02node1"; info_Network := "mainnet" |}.

(** A trust anchor built by [Finalize] and [SignEvent] from a record that
    already carries a "sig" tag without value: it ends up with two tags
    named "sig", one of them with the Lightning signature. *)
Definition two_sig_anchor : Event.t :=
  match Finalize (wrap (plain_record "npub1" 900 [["sig"]])) "mainnet" "02node1"
          KindNodeAnnouncement [] with
  | Ok e1 =>
      match @SignEvent demo_NostrCrypto demo_NostrSigner demo_LightningNode e1 with
      | Ok e2 => e2
      | Err _ => e1
      end
  | Err _ => wrap (plain_record "npub1" 900 [["sig"]])
  end.

(** ** Envelopes

    [EventEnvelope], [NewEventEnvelope] and [GetEventEnvelopes]: the events
    of the store wrapped with the decoded payload, the bech32 form of the
    author's key and the alias of the node. *)

(** [json.Unmarshal] into the payload type. *)
Class Unmarshal (T : Type) := {
  json_Unmarshal : string -> result T
}.

(** [nip19.EncodePublicKey]. *)
Class Nip19 := {
  EncodePublicKey : string -> result string
}.

Module EventEnvelope.
Record t (T : Type) := mk {
  Id : Identifier.t;
  Alias : string;
  NostrId : string;
  Npub : string;
  CreatedAt : Z;
  Payload : T
}.
Arguments mk {T}.
Arguments Id {T}.
Arguments Alias {T}.
Arguments NostrId {T}.
Arguments Npub {T}.
Arguments CreatedAt {T}.
Arguments Payload {T}.
End EventEnvelope.

Section Envelopes.
Context `{NostrCrypto} `{LnCrypto} `{LightningNode} `{RelayPool} `{Clock} `{Nip19}.
Context {T : Type} `{Unmarshal T}.

Definition NewEventEnvelope (ev : Event.t) : result (EventEnvelope.t T) :=
  match json_Unmarshal (nostr.Event.Content (Event.NostrEvent ev)) with
  | Err err => Err err
  | Ok payload =>
      match snd (GetIdentifier ev) with
      | Err err => Err err
      | Ok id =>
          match EncodePublicKey (nostr.Event.PubKey (Event.NostrEvent ev)) with
          | Err err => Err err
          | Ok npub =>
              Ok (EventEnvelope.mk id EmptyString
                    (nostr.Event.ID (Event.NostrEvent ev)) npub
                    (nostr.Event.CreatedAt (Event.NostrEvent ev)) payload)
          end
      end
  end.

Definition with_alias (env : EventEnvelope.t T) (alias : string) : EventEnvelope.t T :=
  EventEnvelope.mk (EventEnvelope.Id env) alias (EventEnvelope.NostrId env)
    (EventEnvelope.Npub env) (EventEnvelope.CreatedAt env) (EventEnvelope.Payload env).

(** The loop of [GetEventEnvelopes]: an event whose envelope cannot be built
    is skipped with a warning; a failing alias lookup adds a warning and the
    envelope is kept with the empty alias (both backends return the empty
    string with their error). *)
Fixpoint wrapEvents (events : list Event.t) (envelopes : list (EventEnvelope.t T))
    (fetchErrors : list Error) : list (EventEnvelope.t T) * list Error :=
  match events with
  | [] => (envelopes, fetchErrors)
  | ev :: rest =>
      match NewEventEnvelope ev with
      | Err err =>
          wrapEvents rest envelopes
            (fetchErrors ++ [ErrWrap "creating event envelope" err])
      | Ok env =>
          match GetAlias (Identifier.PubKey (EventEnvelope.Id env)) with
          | Err err =>
              wrapEvents rest (envelopes ++ [with_alias env EmptyString])
                (fetchErrors ++ [ErrWrap "getting alias for pubkey" err])
          | Ok alias =>
              wrapEvents rest (envelopes ++ [with_alias env alias]) fetchErrors
          end
      end
  end.

Definition GetEventEnvelopes (c : Client.t) (ctx : Ctx) (step : nat) (kind : Kind)
    (pubkeys : gset string) (urls : list string) (since : nostr.Timestamp)
    : Client.t * (list (EventEnvelope.t T) * option Error * list Error) :=
  let '(c1, (events, err, fetchErrors)) :=
    Client_GetEvents c ctx step kind pubkeys urls since in
  match err with
  | Some e => (c1, ([], Some e, []))
  | None =>
      let '(envelopes, fetchErrors1) := wrapEvents events [] fetchErrors in
      (c1, (envelopes, None, fetchErrors1))
  end.

(** Whether the envelope of an event can be built. *)
Definition envelope_builds (ev : Event.t) : bool :=
  match NewEventEnvelope ev with
  | Ok _ => true
  | Err _ => false
  end.

End Envelopes.

(** ** Invariant of the store

    What holds of every store that [StoreEvent] calls build from the empty
    one: the events of a node are signed by the identity bound to the node
    and are filed under the node and the slot their identifier names, and
    the time stamp of the announcement is not negative. *)
Definition store_invariant (s : MapStore) : Prop :=
  forall P ns,
    records s !! P = Some ns ->
    0 <= createdAt (lastAnnouncement ns)
    /\ forall X e,
         events ns !! X = Some e ->
         ev_PubKey e = pub (lastAnnouncement ns)
         /\ exists id, snd (GetIdentifier e) = Ok id
                       /\ Identifier.PubKey id = P /\ Identifier.TagD id = X.

(** The key filter admits a node: no filter, or the node is listed. *)
Definition filter_admits (pubkeys : gset string) (P : string) : Prop :=
  size pubkeys = 0%nat \/ P ∈ pubkeys.

(** The records that a pass processes before a cancellation that takes
    effect at step [n]. *)
Definition processed_before (ctx : Ctx) (step : nat) (recs : list nostr.Event.t)
    : list nostr.Event.t :=
  match ctx with
  | None => recs
  | Some n => firstn (n - step) recs
  end.

(** A Lightning node that fails every request, and one that answers with
    another alias, to compare backends. *)
Definition failing_LightningNode : LightningNode :=
  {| SignMessage := fun _ => Err (ErrExternal "unavailable");
     GetAlias := fun _ => Err (ErrExternal "unavailable");
     ln_GetNodeInfo := Err (ErrExternal "unavailable") |}.

Definition demo_Nip19 : Nip19 :=
  {| EncodePublicKey := fun pk => Ok ("npub/" +:+ pk) |}.

Definition demo_Unmarshal : Unmarshal string :=
  {| json_Unmarshal := fun s =>
       if String.eqb s "{}" then Ok s else Err (ErrExternal "unexpected payload") |}.

(** ** Payloads

    [NodeInfo], the payload of a node-info record, and its [Validate]. The
    tag-driven checks of the validator library are an interface; the loop
    over the contacts is the package's own. *)

Module ContactInfo.
Record t := mk {
  Type_ : string;
  Value : string;
  Note : string;
  Primary : bool
}.
End ContactInfo.

Module NodeInfo.
Record t := mk {
  About : option string;
  MaxChannelSizeSat : option Z;
  MinChannelSizeSat : option Z;
  ContactInfo : list ContactInfo.t;
  CustomRecords : gmap string string
}.
End NodeInfo.

(** [validate.Struct]. *)
Class StructValidator := {
  validate_Struct : NodeInfo.t -> option Error
}.

Inductive ValidateError :=
| ErrStruct (cause : Error)
| ErrSeveralPrimary.

(** The loop of [Validate]: [count] is the number of primary contacts seen. *)
Fixpoint primaryLoop (contacts : list ContactInfo.t) (count : Z) : option ValidateError :=
  match contacts with
  | [] => None
  | c :: rest =>
      if ContactInfo.Primary c then
        let count := wrap64 (count + 1) in
        if (1 <? count) then Some ErrSeveralPrimary else primaryLoop rest count
      else primaryLoop rest count
  end.

Definition NodeInfo_Validate `{StructValidator} (n : NodeInfo.t) : option ValidateError :=
  match validate_Struct n with
  | Some err => Some (ErrStruct err)
  | None => primaryLoop (NodeInfo.ContactInfo n) 0
  end.

Definition demo_StructValidator : StructValidator :=
  {| validate_Struct := fun n =>
       if forallb (fun c => negb (String.eqb (ContactInfo.Type_ c) "")
                            && negb (String.eqb (ContactInfo.Value c) ""))
            (NodeInfo.ContactInfo n)
       then None else Some (ErrExternal "required") |}.

(** ** The records a pass lets through *)

Section Verified.
Context `{NostrCrypto} `{LnCrypto} `{Clock}.

(** The events of the records that parse and verify, each checked at the
    clock reading of its own step, in the order of delivery. *)
Fixpoint verified_events (step : nat) (recs : list nostr.Event.t) : list Event.t :=
  match recs with
  | [] => []
  | r :: rest =>
      match NewEventFromNostrRelay r with
      | Ok lev =>
          match snd (Verify (Now step) lev) with
          | (true, None) => [lev]
          | _ => []
          end
      | Err _ => []
      end ++ verified_events (S step) rest
  end.

End Verified.

(** * Properties *)

(** ** [strconv] and [strings] *)

Lemma append_assoc (a b c : string) : (a +:+ b) +:+ c = a +:+ (b +:+ c).
Proof.
  induction a as [|x a IH]; [done|].
  change (String x ((a +:+ b) +:+ c) = String x (a +:+ (b +:+ c))).
  by rewrite IH.
Qed.

Lemma append_empty_r (a : string) : a +:+ EmptyString = a.
Proof.
  induction a as [|x a IH]; [done|].
  change (String x (a +:+ EmptyString) = String x a). by rewrite IH.
Qed.

Lemma parse_digits_app (a b : string) (acc : Z) :
  parse_digits (a +:+ b) acc =
  match parse_digits a acc with
  | Some v => parse_digits b v
  | None => None
  end.
Proof.
  revert acc. induction a as [|c a IH]; intros acc; simpl; [done|].
  destruct (digit_of c); [apply IH | done].
Qed.

Lemma digit_of_pretty_char (m : N) :
  (m < 10)%N -> digit_of (pretty_N_char m) = Some (Z.of_N m).
Proof.
  intros Hm.
  assert (m = 0 \/ m = 1 \/ m = 2 \/ m = 3 \/ m = 4 \/ m = 5 \/ m = 6
          \/ m = 7 \/ m = 8 \/ m = 9)%N as Hcases by lia.
  repeat (destruct Hcases as [-> | Hcases]; [reflexivity|]).
  subst m. reflexivity.
Qed.

(** The digits that [pretty_N_go] writes in front of its accumulator read
    back as the number. *)
Lemma pretty_N_go_digits (x : N) (s : string) :
  exists d, pretty_N_go x s = d +:+ s
            /\ parse_digits d 0 = Some (Z.of_N x)
            /\ ((0 < x)%N -> d <> EmptyString).
Proof.
  revert s. induction (N.lt_wf_0 x) as [x _ IH]; intros s.
  destruct (decide (x = 0%N)) as [-> | Hx].
  - exists EmptyString. rewrite pretty_N_go_0. repeat split; try done; lia.
  - rewrite pretty_N_go_step by lia.
    destruct (IH (x `div` 10)%N) with (s := String (pretty_N_char (x `mod` 10)) s)
      as (d & Hd & Hval & _).
    { apply N.div_lt; lia. }
    exists (d +:+ String (pretty_N_char (x `mod` 10)) EmptyString).
    split; [|split].
    + rewrite Hd, append_assoc. reflexivity.
    + rewrite parse_digits_app, Hval. simpl.
      rewrite digit_of_pretty_char by (apply N.mod_lt; lia).
      f_equal. pose proof (N.div_mod x 10). lia.
    + intros _. destruct d; discriminate.
Qed.

Lemma parse_digits_no_colon (d : string) (acc v : Z) :
  parse_digits d acc = Some v -> no_colon d = true.
Proof.
  revert acc. induction d as [|c d IH]; intros acc; simpl; [done|].
  destruct (digit_of c) eqn:Hc; [|done].
  intros Hp. rewrite (IH _ Hp), andb_true_r.
  destruct (Ascii.eqb_spec c ":"%char) as [-> | _]; [discriminate Hc | done].
Qed.

Lemma digit_not_sign (c : ascii) (v : Z) :
  digit_of c = Some v -> Ascii.eqb c "-"%char = false /\ Ascii.eqb c "+"%char = false.
Proof.
  intros Hc; split.
  - destruct (Ascii.eqb_spec c "-"%char) as [-> | _]; [discriminate Hc | done].
  - destruct (Ascii.eqb_spec c "+"%char) as [-> | _]; [discriminate Hc | done].
Qed.

Lemma Itoa_pos (p : positive) :
  exists c r v, Itoa (Z.pos p) = String c r
                /\ digit_of c = Some v
                /\ parse_digits (String c r) 0 = Some (Z.pos p).
Proof.
  destruct (pretty_N_go_digits (N.pos p) EmptyString) as (d & Hd & Hval & Hne).
  assert (Itoa (Z.pos p) = d) as Hit.
  { unfold Itoa, pretty, pretty_Z, pretty, pretty_positive, pretty, pretty_N.
    rewrite decide_False by done. rewrite Hd. apply append_empty_r. }
  destruct d as [|c r]; [by destruct Hne|].
  simpl in Hval. destruct (digit_of c) as [v|] eqn:Hc; [|done].
  exists c, r, v. rewrite Hit. simpl. rewrite Hc. done.
Qed.

Lemma Itoa_neg (p : positive) : Itoa (Z.neg p) = String "-"%char (Itoa (Z.pos p)).
Proof. reflexivity. Qed.

(** [Atoi] reads back what [Itoa] writes, for every value of an [int], and
    refuses the rendering of any other integer. *)
Lemma Atoi_Itoa_range (n : Z) :
  Atoi (Itoa n) = if in_intb n then Some n else None.
Proof.
  destruct n as [|p|p].
  - reflexivity.
  - destruct (Itoa_pos p) as (c & r & v & -> & Hc & Hp).
    destruct (digit_not_sign c v Hc) as [Hm Hpl].
    unfold Atoi. rewrite Hm, Hpl. simpl orb. cbv iota. rewrite Hp. done.
  - rewrite Itoa_neg.
    destruct (Itoa_pos p) as (c & r & v & -> & Hc & Hp).
    unfold Atoi. change (Ascii.eqb "-" "-") with true. simpl orb. cbv iota.
    rewrite Hp. done.
Qed.

Lemma in_intb_true (n : Z) : in_intb n = true <-> in_int n.
Proof.
  unfold in_intb, in_int. rewrite andb_true_iff, !Z.leb_le. done.
Qed.

Lemma Atoi_Itoa (n : Z) : in_int n -> Atoi (Itoa n) = Some n.
Proof.
  intros Hn. rewrite Atoi_Itoa_range. by apply in_intb_true in Hn as ->.
Qed.

Lemma Itoa_no_colon (n : Z) : no_colon (Itoa n) = true.
Proof.
  destruct n as [|p|p].
  - reflexivity.
  - destruct (Itoa_pos p) as (c & r & v & -> & _ & Hp).
    eapply parse_digits_no_colon, Hp.
  - rewrite Itoa_neg.
    destruct (Itoa_pos p) as (c & r & v & -> & _ & Hp).
    change (no_colon (String "-" (String c r))) with (no_colon (String c r)).
    eapply parse_digits_no_colon, Hp.
Qed.

Lemma Split_nonempty (s : string) : Split s <> [].
Proof.
  destruct s as [|c r]; simpl; [done|].
  destruct (Ascii.eqb c ":"); [done|]. destruct (Split r); done.
Qed.

Lemma Split_no_colon (s : string) : no_colon s = true -> Split s = [s].
Proof.
  induction s as [|c r IH]; simpl; [done|].
  intros [Hc Hr]%andb_true_iff. apply negb_true_iff in Hc.
  rewrite Hc, (IH Hr). done.
Qed.

Lemma Split_app_colon (a b : string) :
  no_colon a = true -> Split (a +:+ ":" +:+ b) = a :: Split b.
Proof.
  induction a as [|c r IH]; simpl; [done|].
  intros [Hc Hr]%andb_true_iff. apply negb_true_iff in Hc.
  rewrite Hc, (IH Hr). done.
Qed.

(** Splitting undoes joining when no piece holds a colon. *)
Lemma Split_Join (parts : list string) :
  parts <> [] -> Forall (fun p => no_colon p = true) parts ->
  Split (Join parts) = parts.
Proof.
  induction parts as [|p rest IH]; [done|]. intros _ Hall.
  inversion Hall as [|? ? Hp Hrest]; subst.
  destruct rest as [|q rest].
  - simpl. by apply Split_no_colon.
  - change (Join (p :: q :: rest)) with (p +:+ ":" +:+ Join (q :: rest)).
    rewrite Split_app_colon by done. f_equal. by apply IH.
Qed.

Lemma Join_cons_char (c : ascii) (h : string) (t : list string) :
  Join (String c h :: t) = String c (Join (h :: t)).
Proof. destruct t; reflexivity. Qed.

(** Joining undoes splitting, always. *)
Lemma Join_Split (s : string) : Join (Split s) = s.
Proof.
  induction s as [|c r IH]; [done|]. simpl.
  pose proof (Split_nonempty r) as Hne.
  destruct (Split r) as [|h t] eqn:Hs; [done|].
  destruct (Ascii.eqb_spec c ":"%char) as [-> | Hc].
  - change (Join (EmptyString :: h :: t)) with (String ":" (Join (h :: t))).
    by rewrite IH.
  - by rewrite Join_cons_char, IH.
Qed.

(** ** Tags *)

Lemma Find_app (l1 l2 : nostr.Tags) (key : string) :
  nostr.Find (l1 ++ l2) key =
  match nostr.Find l1 key with
  | Some t => Some t
  | None => nostr.Find l2 key
  end.
Proof.
  unfold nostr.Find. induction l1 as [|t l1 IH]; simpl; [done|].
  destruct (nostr.has_key key t); [done | apply IH].
Qed.

(** What [Find] returns is a tag of the list carrying the key and a value,
    and no valued tag with that key comes before it. *)
Lemma Find_Some (tags : nostr.Tags) (key : string) (t : nostr.Tag) :
  nostr.Find tags key = Some t ->
  exists pre post v rest,
    tags = pre ++ t :: post /\ t = key :: v :: rest
    /\ Forall (fun u => nostr.has_key key u = false) pre.
Proof.
  unfold nostr.Find. induction tags as [|u tags IH]; simpl; [done|].
  destruct (nostr.has_key key u) eqn:Hu.
  - intros [= <-]. destruct u as [|n [|v rest]]; try discriminate Hu.
    simpl in Hu. apply String.eqb_eq in Hu as ->.
    exists [], tags, v, rest. repeat split; constructor.
  - intros Hf. destruct (IH Hf) as (pre & post & v & rest & -> & -> & Hpre).
    exists (u :: pre), post, v, rest. repeat split. by constructor.
Qed.

Lemma Find_None (tags : nostr.Tags) (key : string) :
  nostr.Find tags key = None <->
  Forall (fun u => nostr.has_key key u = false) tags.
Proof.
  unfold nostr.Find. induction tags as [|u tags IH]; simpl.
  - split; [constructor | done].
  - destruct (nostr.has_key key u) eqn:Hu.
    + split; [done|]. intros Hall. inversion Hall; congruence.
    + rewrite IH. split; [by constructor | by inversion 1].
Qed.

Lemma Find_length (tags : nostr.Tags) (key : string) (t : nostr.Tag) :
  nostr.Find tags key = Some t -> (Z.of_nat (length t) <? 2) = false.
Proof.
  intros (pre & post & v & rest & _ & -> & _)%Find_Some.
  apply Z.ltb_ge. simpl. lia.
Qed.

(** ** The identifier *)

Lemma GetIdentifier_wrap (nev : nostr.Event.t) :
  snd (GetIdentifier (wrap nev)) = parseIdentifier (nostr.Event.Tags nev).
Proof.
  unfold GetIdentifier, wrap. simpl.
  by destruct (parseIdentifier (nostr.Event.Tags nev)).
Qed.

Lemma wrap_coherent (nev : nostr.Event.t) : cache_coherent (wrap nev).
Proof. apply GetIdentifier_wrap. Qed.

Lemma GetIdentifier_uncached (e : Event.t) :
  Event.id e = None -> cache_coherent e.
Proof.
  unfold cache_coherent, GetIdentifier, ev_Tags. intros ->.
  by destruct (parseIdentifier _).
Qed.

(** [parseIdentifier], case by case. *)
Lemma parseIdentifier_spec (tags : nostr.Tags) :
  match parseIdentifier tags with
  | Ok id =>
      exists d k,
        nostr.Find tags "d" = Some d /\ nostr.Find tags "k" = Some k
        /\ Atoi (tag_value k) = Some (Identifier.Kind id)
        /\ Identifier.TagD id = tag_value d
        /\ (if Identifier.Kind id =? KindNodeAnnouncement
            then Identifier.PubKey id = tag_value d
                 /\ Identifier.Network id = EmptyString
                 /\ Identifier.Opts id = []
            else exists kindInt,
                 Split (tag_value d) =
                 kindInt :: Identifier.PubKey id :: Identifier.Network id
                         :: Identifier.Opts id)
  | Err e =>
      MalformedTag e = true
      /\ (nostr.Find tags "d" = None
          \/ nostr.Find tags "k" = None
          \/ (exists k, nostr.Find tags "k" = Some k /\ Atoi (tag_value k) = None)
          \/ (exists d k kind,
                nostr.Find tags "d" = Some d /\ nostr.Find tags "k" = Some k
                /\ Atoi (tag_value k) = Some kind
                /\ kind <> KindNodeAnnouncement
                /\ (length (Split (tag_value d)) < 3)%nat))
  end.
Proof.
  unfold parseIdentifier.
  destruct (nostr.Find tags "d") as [d|] eqn:Hd; [|by split; [|left]].
  rewrite (Find_length _ _ _ Hd).
  destruct (nostr.Find tags "k") as [k|] eqn:Hk; [|by split; [|right; left]].
  rewrite (Find_length _ _ _ Hk).
  destruct (Atoi (tag_value k)) as [kind|] eqn:Ha;
    [|split; [done | right; right; left; eauto]].
  destruct (kind =? KindNodeAnnouncement) eqn:Hkind.
  - exists d, k. simpl. rewrite Hkind. done.
  - destruct (Z.of_nat (length (Split (tag_value d))) <? 3) eqn:Hlen.
    + split; [done|]. right; right; right. exists d, k, kind.
      apply Z.ltb_lt in Hlen. apply Z.eqb_neq in Hkind. repeat split; try done. lia.
    + exists d, k. simpl. rewrite Hkind. repeat split; try done.
      apply Z.ltb_ge in Hlen.
      destruct (Split (tag_value d)) as [|p0 [|p1 [|p2 rest]]]; simpl in Hlen; try lia.
      by exists p0.
Qed.

(** C4, the claim as stated, fails: a record with two "d" tags parses, the
    first one winning; the code never counts the "d" and "k" tags. *)
Lemma GetIdentifier_exactly_one_fails :
  ~ (forall (nev : nostr.Event.t) (id : Identifier.t),
        snd (GetIdentifier (wrap nev)) = Ok id ->
        count_named "d" (nostr.Event.Tags nev) = 1%nat
        /\ count_named "k" (nostr.Event.Tags nev) = 1%nat).
Proof.
  intros Hclaim.
  destruct (Hclaim
              (nostr.Event.mk "" "A" 10 KindLightningInformation
                 [["d"; "P"]; ["d"; "Q"]; ["k"; "0"]] "{}" "")
              (Identifier.mk "P" "" "P" 0 [])) as [Hd _]; [reflexivity|].
  vm_compute in Hd. discriminate Hd.
Qed.

(** C4, amended: [GetIdentifier] on a freshly wrapped record succeeds exactly
    when a valued "d" tag and a valued "k" tag exist (the first of each is
    read, further ones are ignored), the "k" value is an integer and, for a
    kind other than the trust anchor, the "d" value splits on ':' into at
    least three parts; it then returns the whole "d" value as the Lightning
    key with empty network and options for the trust anchor, and the parts
    [kindInt, key, network, opts...] otherwise. Every failure is a
    MalformedTag error with one of the four causes. *)
Theorem GetIdentifier_first_valued_tags (nev : nostr.Event.t) :
  match snd (GetIdentifier (wrap nev)) with
  | Ok id =>
      exists d k,
        nostr.Find (nostr.Event.Tags nev) "d" = Some d
        /\ nostr.Find (nostr.Event.Tags nev) "k" = Some k
        /\ Atoi (tag_value k) = Some (Identifier.Kind id)
        /\ Identifier.TagD id = tag_value d
        /\ (if Identifier.Kind id =? KindNodeAnnouncement
            then Identifier.PubKey id = tag_value d
                 /\ Identifier.Network id = EmptyString
                 /\ Identifier.Opts id = []
            else exists kindInt,
                 Split (tag_value d) =
                 kindInt :: Identifier.PubKey id :: Identifier.Network id
                         :: Identifier.Opts id)
  | Err e =>
      MalformedTag e = true
      /\ (nostr.Find (nostr.Event.Tags nev) "d" = None
          \/ nostr.Find (nostr.Event.Tags nev) "k" = None
          \/ (exists k, nostr.Find (nostr.Event.Tags nev) "k" = Some k
                        /\ Atoi (tag_value k) = None)
          \/ (exists d k kind,
                nostr.Find (nostr.Event.Tags nev) "d" = Some d
                /\ nostr.Find (nostr.Event.Tags nev) "k" = Some k
                /\ Atoi (tag_value k) = Some kind
                /\ kind <> KindNodeAnnouncement
                /\ (length (Split (tag_value d)) < 3)%nat))
  end.
Proof. rewrite GetIdentifier_wrap. apply parseIdentifier_spec. Qed.

(** ** Finalize, then parse *)

Lemma Join_encode_opts (a b c : string) (opts : list string) :
  Join ([a; b; c] ++ opts) = a +:+ ":" +:+ b +:+ ":" +:+ c +:+ encode_opts opts.
Proof.
  change (Join ([a; b; c] ++ opts)) with (a +:+ ":" +:+ b +:+ ":" +:+ Join (c :: opts)).
  do 4 f_equal. revert c. induction opts as [|o opts IH]; intros c.
  - simpl. by rewrite append_empty_r.
  - change (Join (c :: o :: opts)) with (c +:+ ":" +:+ Join (o :: opts)).
    rewrite IH. reflexivity.
Qed.

Lemma Split_length_pos (s : string) : (1 <= length (Split s))%nat.
Proof.
  pose proof (Split_nonempty s). destruct (Split s); [done | simpl; lia].
Qed.

Lemma Split_length_colon (a t : string) :
  (2 <= length (Split (a +:+ ":" +:+ t)))%nat.
Proof.
  induction a as [|c r IH].
  - change (Split (EmptyString +:+ ":" +:+ t)) with (EmptyString :: Split t).
    pose proof (Split_length_pos t). simpl. lia.
  - change (Split (String c r +:+ ":" +:+ t))
      with (if Ascii.eqb c ":"%char then EmptyString :: Split (r +:+ ":" +:+ t)
            else match Split (r +:+ ":" +:+ t) with
                 | h :: tl => String c h :: tl
                 | [] => [String c EmptyString]
                 end).
    destruct (Ascii.eqb c ":").
    + simpl. lia.
    + destruct (Split (r +:+ ":" +:+ t)) as [|h tl]; simpl in *; lia.
Qed.

Lemma Finalize_Ok (e : Event.t) (network pubkey : string) (kind : Kind)
    (opts : list string) (e1 : Event.t) :
  Finalize e network pubkey kind opts = Ok e1 ->
  nostr.Find (ev_Tags e) "d" = None
  /\ nostr.Find (ev_Tags e) "k" = None
  /\ e1 = Event.mk
            (with_tags (with_kind (Event.NostrEvent e) KindLightningInformation)
               (ev_Tags e ++ [["d"; tagD_of network pubkey kind opts]; ["k"; Itoa kind]]))
            kind true (Event.id e).
Proof.
  unfold Finalize, ev_Tags.
  destruct (nostr.Find _ "d"); [done|]. destruct (nostr.Find _ "k"); [done|].
  by intros [= <-].
Qed.

Lemma Finalize_tags (e : Event.t) (network pubkey : string) (kind : Kind)
    (opts : list string) (e1 : Event.t) :
  Finalize e network pubkey kind opts = Ok e1 ->
  nostr.Find (ev_Tags e1) "d" = Some ["d"; tagD_of network pubkey kind opts]
  /\ nostr.Find (ev_Tags e1) "k" = Some ["k"; Itoa kind]
  /\ Event.kind e1 = kind /\ Event.finalized e1 = true /\ Event.id e1 = Event.id e.
Proof.
  intros (Hd & Hk & ->)%Finalize_Ok. unfold ev_Tags in *. simpl.
  rewrite !Find_app, Hd, Hk. done.
Qed.

(** What the tags written by [Finalize] parse to. *)
Lemma Finalize_parse (e : Event.t) (network pubkey : string) (kind : Kind)
    (opts : list string) (e1 : Event.t) :
  in_int kind ->
  Finalize e network pubkey kind opts = Ok e1 ->
  parseIdentifier (ev_Tags e1) =
  if kind =? KindNodeAnnouncement
  then Ok (Identifier.mk pubkey EmptyString pubkey kind [])
  else
    let parts := Split (Join ([Itoa kind; pubkey; network] ++ opts)) in
    Ok (Identifier.mk (Join ([Itoa kind; pubkey; network] ++ opts))
          (nth 2 parts EmptyString) (nth 1 parts EmptyString) kind (skipn 3 parts)).
Proof.
  intros Hkind (Hd & Hk & _)%Finalize_tags.
  unfold parseIdentifier. rewrite Hd, Hk. simpl.
  change (tag_value ["k"; Itoa kind]) with (Itoa kind).
  change (tag_value ["d"; tagD_of network pubkey kind opts])
    with (tagD_of network pubkey kind opts).
  rewrite (Atoi_Itoa _ Hkind). unfold tagD_of.
  destruct (kind =? KindNodeAnnouncement) eqn:Hk0; [done|].
  set (s := Join _).
  assert (3 <= length (Split s))%nat as Hlen.
  { subst s. rewrite Join_encode_opts.
    rewrite Split_app_colon by apply Itoa_no_colon.
    pose proof (Split_length_colon pubkey (network +:+ encode_opts opts)) as Hp.
    simpl.     lia. }
  destruct (Z.of_nat (length (Split s)) <? 3) eqn:Hl; [apply Z.ltb_lt in Hl; lia | done].
Qed.

(** C5, the claim as stated, fails: a free-form option holding a colon is
    accepted by [Finalize] and comes back from the parse as two options. *)
Lemma Finalize_roundtrip_colon_fails :
  ~ (forall (nev : nostr.Event.t) (network pubkey : string) (kind : Kind)
            (opts : list string) (e : Event.t) (id : Identifier.t),
        in_int kind ->
        Finalize (wrap nev) network pubkey kind opts = Ok e ->
        snd (GetIdentifier e) = Ok id ->
        Identifier.PubKey id = pubkey /\ Identifier.Network id = network
        /\ Identifier.Opts id = opts).
Proof.
  intros Hclaim.
  destruct (Hclaim
              (nostr.Event.mk "" "A" 10 0 [] "{}" "")
              "mainnet" "pk" KindNodeInfo ["a:b"]
              (Event.mk
                 (nostr.Event.mk "" "A" 10 KindLightningInformation
                    [["d"; "1:pk:mainnet:a:b"]; ["k"; "1"]] "{}" "")
                 KindNodeInfo true None)
              (Identifier.mk "1:pk:mainnet:a:b" "mainnet" "pk" 1 ["a"; "b"]))
    as (_ & _ & Hopts).
  - unfold in_int, int_min, int_max, KindNodeInfo. lia.
  - reflexivity.
  - reflexivity.
  - discriminate Hopts.
Qed.

(** C5, amended: [Finalize] on a fresh event writes as "d" tag the Lightning
    key itself for the trust-anchor kind and
    [<kindInt>:<key>:<network>[:<opt>...]] for every other kind. Parsing the
    finalized event gives back the key with empty network and options for the
    trust anchor (the network and options handed to [Finalize] are not
    encoded), and the same key, network and options for any other kind when
    none of them holds a colon. *)
Theorem Finalize_GetIdentifier_roundtrip (nev : nostr.Event.t)
    (network pubkey : string) (kind : Kind) (opts : list string) (e : Event.t) :
  in_int kind ->
  Finalize (wrap nev) network pubkey kind opts = Ok e ->
  (exists d,
      nostr.Find (ev_Tags e) "d" = Some ["d"; d]
      /\ d = if kind =? KindNodeAnnouncement then pubkey
             else Itoa kind +:+ ":" +:+ pubkey +:+ ":" +:+ network +:+ encode_opts opts)
  /\ (kind = KindNodeAnnouncement ->
      snd (GetIdentifier e) = Ok (Identifier.mk pubkey EmptyString pubkey kind []))
  /\ (kind <> KindNodeAnnouncement ->
      no_colon pubkey = true -> no_colon network = true ->
      Forall (fun o => no_colon o = true) opts ->
      snd (GetIdentifier e) =
      Ok (Identifier.mk
            (Itoa kind +:+ ":" +:+ pubkey +:+ ":" +:+ network +:+ encode_opts opts)
            network pubkey kind opts)).
Proof.
  intros Hkind Hfin.
  pose proof (Finalize_tags _ _ _ _ _ _ Hfin) as (Hd & _ & _ & _ & Hid).
  pose proof (Finalize_parse _ _ _ _ _ _ Hkind Hfin) as Hparse.
  assert (snd (GetIdentifier e) = parseIdentifier (ev_Tags e)) as Hget.
  { apply GetIdentifier_uncached. by rewrite Hid. }
  split; [|split].
  - eexists; split; [exact Hd|]. unfold tagD_of.
    destruct (kind =? KindNodeAnnouncement); [done | apply Join_encode_opts].
  - intros ->. by rewrite Hget, Hparse.
  - intros Hne Hpk Hnet Hopts. rewrite Hget, Hparse.
    apply Z.eqb_neq in Hne. rewrite Hne. cbv zeta.
    rewrite Split_Join.
    + simpl. by rewrite <- Join_encode_opts.
    + done.
    + repeat constructor; try done. apply Itoa_no_colon.
Qed.

(** The round trip on a node-info record of the main network. *)
Lemma Finalize_GetIdentifier_roundtrip_witness :
  in_int KindNodeInfo
  /\ Finalize (wrap (nostr.Event.mk "" "A" 10 0 [] "{}" "")) "mainnet" "pk"
       KindNodeInfo ["x"] =
     Ok (Event.mk
           (nostr.Event.mk "" "A" 10 KindLightningInformation
              [["d"; "1:pk:mainnet:x"]; ["k"; "1"]] "{}" "")
           KindNodeInfo true None)
  /\ snd (GetIdentifier
            (Event.mk
               (nostr.Event.mk "" "A" 10 KindLightningInformation
                  [["d"; "1:pk:mainnet:x"]; ["k"; "1"]] "{}" "")
               KindNodeInfo true None)) =
     Ok (Identifier.mk "1:pk:mainnet:x" "mainnet" "pk" KindNodeInfo ["x"]).
Proof.
  assert (in_int KindNodeInfo) as Hk.
  { unfold in_int, int_min, int_max, KindNodeInfo. lia. }
  split; [exact Hk|]. split; [reflexivity|].
  apply (Finalize_GetIdentifier_roundtrip
           (nostr.Event.mk "" "A" 10 0 [] "{}" "") "mainnet" "pk" KindNodeInfo ["x"]
           _ Hk eq_refl).
  - discriminate.
  - reflexivity.
  - reflexivity.
  - repeat constructor.
Defined.

(** ** The signable hash *)

Lemma filter_not_sig_app (l1 l2 : nostr.Tags) :
  List.filter (fun tag => negb (is_sig_tag tag)) (l1 ++ l2) =
  List.filter (fun tag => negb (is_sig_tag tag)) l1
  ++ List.filter (fun tag => negb (is_sig_tag tag)) l2.
Proof. apply List.filter_app. Qed.

Lemma is_sig_tag_named (tag : nostr.Tag) : is_sig_tag tag = tag_named "sig" tag.
Proof. by destruct tag. Qed.

Lemma filter_not_sig_named (tags : nostr.Tags) :
  List.filter (fun tag => negb (is_sig_tag tag)) tags
  = List.filter (fun tag => negb (tag_named "sig" tag)) tags.
Proof. apply List.filter_ext. intros tag. by rewrite is_sig_tag_named. Qed.

(** The demo digest with length prefixes has no collisions. *)
Lemma unary_inj (n m : nat) (x y : string) :
  unary n +:+ x = unary m +:+ y -> n = m /\ x = y.
Proof.
  revert m. induction n as [|n IH]; intros [|m]; cbn [unary String.append];
    intros Heq; try discriminate.
  - by injection Heq.
  - injection Heq as Heq. destruct (IH m Heq) as [-> ->]. done.
Qed.

Lemma append_length_inj (a b x y : string) :
  String.length a = String.length b -> a +:+ x = b +:+ y -> a = b /\ x = y.
Proof.
  revert b. induction a as [|c a IH]; intros [|d b]; cbn [String.length String.append];
    intros Hlen Heq; try discriminate; [done|].
  injection Hlen as Hlen. injection Heq as -> Heq.
  destruct (IH b Hlen Heq) as [-> ->]. done.
Qed.

Lemma enc_str_inj (a b x y : string) :
  enc_str a x = enc_str b y -> a = b /\ x = y.
Proof.
  unfold enc_str. intros Heq. apply unary_inj in Heq as [Hlen Heq].
  by apply append_length_inj.
Qed.

Lemma enc_list_inj {A : Type} (f : A -> string -> string) (l l' : list A) (x y : string) :
  (forall a b u v, f a u = f b v -> a = b /\ u = v) ->
  enc_list f l x = enc_list f l' y -> l = l' /\ x = y.
Proof.
  intros Hf. unfold enc_list. intros Heq. apply unary_inj in Heq as [Hlen Heq].
  revert l' Hlen Heq. induction l as [|a l IH]; intros [|b l'] Hlen Heq;
    try discriminate; [done|].
  simpl in Heq. apply Hf in Heq as [-> Heq]. injection Hlen as Hlen.
  destruct (IH l' Hlen Heq) as [-> ->]. done.
Qed.

Lemma enc_serialized_inj (a b : nostr.Serialized) :
  enc_serialized a = enc_serialized b -> a = b.
Proof.
  destruct a as [[[[pk t] k] tags] content], b as [[[[pk' t'] k'] tags'] content'].
  unfold enc_serialized. intros Heq.
  apply enc_str_inj in Heq as [-> Heq]. apply enc_str_inj in Heq as [Ht Heq].
  apply enc_str_inj in Heq as [Hk Heq].
  apply (enc_list_inj (enc_list enc_str)) in Heq as [-> Heq].
  2:{ intros l l' u v. apply enc_list_inj. apply enc_str_inj. }
  apply enc_str_inj in Heq as [-> _].
  apply (inj pretty) in Ht. apply (inj pretty) in Hk. by subst.
Qed.

(** C6: the signable hash is the digest of the author, the time stamp, the
    wire kind, the tags not named "sig" (all of them, in order) and the
    content. So appending a "sig" tag leaves it unchanged, and so does
    adding or removing tags named "sig" anywhere: two events that agree on
    those fields and on their other tags have the same hash, whatever their
    "sig" tags, their ID and their signature are. Everything else does
    affect it: with a digest that has no collisions, two events have the
    same hash only if they agree on the author, the time stamp, the kind,
    the content and the tags not named "sig". *)
Theorem Hash_ignores_sig_tags `{NostrCrypto} (e e' : Event.t) :
  (forall s : string, Hash (append_tag e ["sig"; s]) = Hash e)
  /\ (signed_fields_agree e e' -> Hash e = Hash e')
  /\ ((forall a b : nostr.Serialized, sha256hex a = sha256hex b -> a = b) ->
      Hash e = Hash e' -> signed_fields_agree e e').
Proof.
  split; [|split].
  - intros s. unfold Hash, GetID, copyWithoutSig, append_tag, nostr.Serialize. simpl.
    rewrite filter_not_sig_app. simpl. by rewrite app_nil_r.
  - intros (Hpk & Ht & Hk & Hc & Htags).
    unfold Hash, GetID, copyWithoutSig, nostr.Serialize. simpl.
    rewrite !filter_not_sig_named. unfold ev_Tags in Htags.
    by rewrite Hpk, Ht, Hk, Hc, Htags.
  - intros Hinj Heq. apply Hinj in Heq. revert Heq.
    unfold copyWithoutSig, nostr.Serialize, signed_fields_agree, ev_Tags. simpl.
    rewrite !filter_not_sig_named. by intros [= -> -> -> -> ->].
Qed.

(** C6 with the digest that has no collisions: two events with the same
    signable hash, one of them carrying "sig" tags and another ID. *)
Lemma Hash_ignores_sig_tags_witness :
  (forall a b : nostr.Serialized,
      @sha256hex injective_NostrCrypto a = @sha256hex injective_NostrCrypto b -> a = b)
  /\ @Hash injective_NostrCrypto
       (wrap (nostr.Event.mk "id" "A" 10 KindLightningInformation
                [["sig"]; ["d"; "P"]; ["sig"; "x"]; ["k"; "0"]] "{}" "s"))
     = @Hash injective_NostrCrypto (wrap (plain_record "A" 10 [["d"; "P"]; ["k"; "0"]]))
  /\ signed_fields_agree
       (wrap (nostr.Event.mk "id" "A" 10 KindLightningInformation
                [["sig"]; ["d"; "P"]; ["sig"; "x"]; ["k"; "0"]] "{}" "s"))
       (wrap (plain_record "A" 10 [["d"; "P"]; ["k"; "0"]])).
Proof.
  assert (forall a b : nostr.Serialized,
             @sha256hex injective_NostrCrypto a = @sha256hex injective_NostrCrypto b ->
             a = b) as Hinj by exact enc_serialized_inj.
  assert (@Hash injective_NostrCrypto
            (wrap (nostr.Event.mk "id" "A" 10 KindLightningInformation
                     [["sig"]; ["d"; "P"]; ["sig"; "x"]; ["k"; "0"]] "{}" "s"))
          = @Hash injective_NostrCrypto (wrap (plain_record "A" 10 [["d"; "P"]; ["k"; "0"]])))
    as Heq by (vm_compute; reflexivity).
  split; [exact Hinj|]. split; [exact Heq|].
  exact (proj2 (proj2 (@Hash_ignores_sig_tags injective_NostrCrypto _ _)) Hinj Heq).
Defined.

(** With the demo digest: a "sig" tag does not move the hash, while the
    author, the time stamp, the content and another tag do. *)
Example Hash_demo :
  let base := wrap (plain_record "A" 10 [["d"; "P"]; ["k"; "0"]]) in
  @Hash demo_NostrCrypto (wrap (plain_record "A" 10 [["d"; "P"]; ["sig"; "x"]; ["k"; "0"]]))
  = @Hash demo_NostrCrypto base
  /\ @Hash demo_NostrCrypto (wrap (plain_record "B" 10 [["d"; "P"]; ["k"; "0"]]))
     <> @Hash demo_NostrCrypto base
  /\ @Hash demo_NostrCrypto (wrap (plain_record "A" 11 [["d"; "P"]; ["k"; "0"]]))
     <> @Hash demo_NostrCrypto base
  /\ @Hash demo_NostrCrypto (wrap (plain_record "A" 10 [["d"; "P"]; ["k"; "0"]; ["x"; "y"]]))
     <> @Hash demo_NostrCrypto base
  /\ @Hash demo_NostrCrypto
       (wrap (nostr.Event.mk "" "A" 10 KindLightningInformation [["d"; "P"]; ["k"; "0"]] "{1}" ""))
     <> @Hash demo_NostrCrypto base.
Proof. repeat split; vm_compute; (reflexivity || discriminate). Qed.

(** ** Verify *)

Lemma wrap64_id (n : Z) : in_int n -> wrap64 n = n.
Proof.
  unfold in_int, wrap64, int_min, int_max. intros Hn.
  rewrite Z.mod_small by lia. lia.
Qed.

Lemma GetIdentifier_fst (e : Event.t) :
  Event.NostrEvent (fst (GetIdentifier e)) = Event.NostrEvent e
  /\ Event.kind (fst (GetIdentifier e)) = Event.kind e
  /\ Event.finalized (fst (GetIdentifier e)) = Event.finalized e.
Proof.
  unfold GetIdentifier. destruct (Event.id e); [done|].
  by destruct (parseIdentifier _).
Qed.

Lemma first_failure_None (checks : list outcome) :
  first_failure checks = None <-> Forall (fun o => o = Pass) checks.
Proof.
  induction checks as [|[|err] rest IH]; simpl.
  - split; [constructor | done].
  - rewrite IH. split; [by constructor | by inversion 1].
  - split; [done | inversion 1; done].
Qed.

Lemma first_failure_at (checks : list outcome) (i : nat) (err : option Error) :
  checks !! i = Some (Fail err) ->
  (forall j, (j < i)%nat -> checks !! j = Some Pass) ->
  first_failure checks = Some err.
Proof.
  revert i. induction checks as [|o rest IH]; intros i Hi Hbefore; [done|].
  destruct i as [|i]; simpl in Hi.
  - by injection Hi as ->.
  - pose proof (Hbefore 0%nat ltac:(lia)) as H0. simpl in H0. injection H0 as ->.
    simpl. apply (IH i Hi). intros j Hj. apply (Hbefore (S j)). lia.
Qed.

Section VerifyProofs.
Context `{NostrCrypto} `{LnCrypto}.

Lemma checkLightningSig_outcome (e : Event.t) (pubKeyID : string) :
  checkLightningSig e pubKeyID =
  match
    match nostr.FindAll (ev_Tags e) "sig" with
    | [] => Fail (Some ErrNoSig)
    | [sigt] => lightning_sig_recovers e (tag_value sigt) pubKeyID
    | _ :: _ :: _ => Fail (Some ErrMoreThanOneSig)
    end
  with
  | Pass => (true, None)
  | Fail err => (false, err)
  end.
Proof.
  unfold checkLightningSig, lightning_sig_recovers, ev_Tags.
  destruct (nostr.FindAll _ "sig") as [|sigt [|sigt2 rest]].
  - done.
  - change (1 <? Z.of_nat (length [sigt])) with false. cbv iota.
    destruct (zbase32_DecodeString _); [|done].
    destruct (RecoverCompact _ _); [|done].
    by destruct (String.eqb _ _).
  - assert ((1 <? Z.of_nat (length (sigt :: sigt2 :: rest))) = true) as ->; [|done].
    apply Z.ltb_lt. simpl length. lia.
Qed.

Lemma checkLightningSig_cached (e : Event.t) (pubKeyID : string) :
  checkLightningSig (fst (GetIdentifier e)) pubKeyID = checkLightningSig e pubKeyID.
Proof.
  destruct (GetIdentifier_fst e) as (Hnev & _ & _).
  unfold checkLightningSig, Hash, copyWithoutSig. by rewrite Hnev.
Qed.

(** [Verify] answers with the first failure of the eight checks. *)
Lemma Verify_first_failure (now : nostr.Timestamp) (e : Event.t) :
  in_int (now + 600) ->
  snd (Verify now e) =
  match first_failure (verify_checks now e) with
  | None => (true, None)
  | Some err => (false, err)
  end.
Proof.
  intros Hnow. unfold Verify, verify_checks, EventGracePeriodSeconds.
  rewrite (wrap64_id _ Hnow).
  unfold check_timestamp, ev_CreatedAt. rewrite Z.ltb_antisym.
  destruct (nostr.Event.CreatedAt (Event.NostrEvent e) <=? now + 600); simpl; [|done].
  unfold check_id. destruct (String.eqb _ (GetID _)); simpl; [|done].
  unfold check_content, content_length.
  change MaxContentSize with 1048576. rewrite Z.ltb_antisym.
  destruct (_ <=? 1048576); simpl; [|done].
  unfold check_identifier, check_network, check_kind_tag, check_identity_sig,
    check_lightning_sig.
  pose proof (checkLightningSig_cached e) as Hcached.
  destruct (GetIdentifier_fst e) as (_ & Hkind & _).
  destruct (GetIdentifier e) as [e1 [idx|err]]; simpl in *; [|done].
  destruct (Identifier.Kind idx =? KindNodeAnnouncement); simpl.
  - unfold kTagInvalid, ev_Tags.
    destruct (nostr.Find _ "k") as [k|] eqn:Hk; [|done].
    rewrite (Find_length _ _ _ Hk). simpl.
    destruct (String.eqb (tag_value k) _); simpl; [|done].
    destruct (CheckSignature _) as [[|] [x|]]; simpl; try done.
    unfold RequiresLnSignature. rewrite Hkind.
    destruct (Event.kind e =? KindNodeAnnouncement); [|done].
    rewrite Hcached, checkLightningSig_outcome. unfold ev_Tags.
    destruct (nostr.FindAll _ "sig") as [|sigt [|sigt2 rest]]; [done| |done].
    destruct (lightning_sig_recovers _ _ _) as [|[x|]]; done.
  - destruct (IsValidNetwork _); simpl; [|done].
    unfold kTagInvalid, ev_Tags.
    destruct (nostr.Find _ "k") as [k|] eqn:Hk; [|done].
    rewrite (Find_length _ _ _ Hk). simpl.
    destruct (String.eqb (tag_value k) _); simpl; [|done].
    destruct (CheckSignature _) as [[|] [x|]]; simpl; try done.
    unfold RequiresLnSignature. rewrite Hkind.
    destruct (Event.kind e =? KindNodeAnnouncement); [|done].
    rewrite Hcached, checkLightningSig_outcome. unfold ev_Tags.
    destruct (nostr.FindAll _ "sig") as [|sigt [|sigt2 rest]]; [done| |done].
    destruct (lightning_sig_recovers _ _ _) as [|[x|]]; done.
Qed.

(** Every check but the identity signature check reports an error when it
    fails. *)
Lemma checks_report_errors (now : nostr.Timestamp) (e : Event.t) :
  check_timestamp now e <> Fail None /\ check_id e <> Fail None
  /\ check_content e <> Fail None /\ check_identifier e <> Fail None
  /\ check_network e <> Fail None /\ check_kind_tag e <> Fail None
  /\ check_lightning_sig e <> Fail None.
Proof.
  unfold check_timestamp, check_id, check_content, check_identifier, check_network,
    check_kind_tag, check_lightning_sig, lightning_sig_recovers.
  repeat split.
  - by destruct (_ <=? _).
  - by destruct (String.eqb _ _).
  - by destruct (_ <=? _).
  - by destruct (snd (GetIdentifier e)).
  - destruct (snd (GetIdentifier e)) as [idx|]; [|done].
    destruct (_ =? _); [done|]. by destruct (IsValidNetwork _).
  - destruct (snd (GetIdentifier e)) as [idx|]; [|done].
    destruct (nostr.Find _ _); [|done]. by destruct (String.eqb _ _).
  - destruct (_ =? _); [|done]. destruct (snd (GetIdentifier e)) as [idx|]; [|done].
    destruct (nostr.FindAll _ _) as [|sigt [|? ?]]; [done| |done].
    destruct (zbase32_DecodeString _); [|done]. destruct (RecoverCompact _ _); [|done].
    by destruct (String.eqb _ _).
Qed.

(** C3, amended: [Verify] runs the eight checks in order and stops at the
    first one that fails; it answers valid, without error, exactly when every
    check passes (the network check being skipped for an identifier of the
    trust-anchor kind and the Lightning check for every event whose kind is
    not the trust-anchor kind), and otherwise not valid with what the first
    failing check reported. That is an error for every check but the seventh:
    the answer is not valid without any error exactly when the first six
    checks pass and the transport finds the identity signature wrong without
    an error of its own. The eighth check asks for exactly one "sig" tag
    that carries a value; tags named "sig" without a value are not
    counted. *)
Theorem Verify_ordered_checks (now : nostr.Timestamp) (e : Event.t) :
  in_int (now + 600) ->
  (fst (snd (Verify now e)) = true <->
   Forall (fun o => o = Pass) (verify_checks now e))
  /\ (fst (snd (Verify now e)) = true -> snd (snd (Verify now e)) = None)
  /\ (forall (i : nat) (err : option Error),
         verify_checks now e !! i = Some (Fail err) ->
         (forall j, (j < i)%nat -> verify_checks now e !! j = Some Pass) ->
         snd (Verify now e) = (false, err))
  /\ (forall (i : nat),
         verify_checks now e !! i = Some (Fail None) -> i = 6%nat)
  /\ (snd (Verify now e) = (false, None) <->
      check_timestamp now e = Pass /\ check_id e = Pass /\ check_content e = Pass
      /\ check_identifier e = Pass /\ check_network e = Pass
      /\ check_kind_tag e = Pass
      /\ CheckSignature (Event.NostrEvent e) = (false, None))
  /\ (Event.kind e = KindNodeAnnouncement ->
      fst (snd (Verify now e)) = true ->
      length (nostr.FindAll (ev_Tags e) "sig") = 1%nat).
Proof.
  intros Hnow.
  destruct (checks_report_errors now e) as (N1 & N2 & N3 & N4 & N5 & N6 & N8).
  pose proof (Verify_first_failure now e Hnow) as Hv.
  split; [|split; [|split; [|split; [|split]]]].
  - rewrite Hv, <- first_failure_None. by destruct (first_failure _).
  - rewrite Hv. by destruct (first_failure _).
  - intros i err Hi Hbefore. by rewrite Hv, (first_failure_at _ _ _ Hi Hbefore).
  - intros i Hi. unfold verify_checks in Hi.
    destruct i as [|[|[|[|[|[|[|[|i]]]]]]]]; simpl in Hi;
      try (injection Hi as Hi; contradiction); [done|].
    by rewrite lookup_nil in Hi.
  - rewrite Hv. unfold verify_checks, check_identity_sig in *.
    destruct (check_timestamp now e) as [|[x|]]; [| |done];
      [|simpl; split; [done | by intros (? & _)]].
    destruct (check_id e) as [|[x|]]; [| |done];
      [|simpl; split; [done | by intros (_ & ? & _)]].
    destruct (check_content e) as [|[x|]]; [| |done];
      [|simpl; split; [done | by intros (_ & _ & ? & _)]].
    destruct (check_identifier e) as [|[x|]]; [| |done];
      [|simpl; split; [done | by intros (_ & _ & _ & ? & _)]].
    destruct (check_network e) as [|[x|]]; [| |done];
      [|simpl; split; [done | by intros (_ & _ & _ & _ & ? & _)]].
    destruct (check_kind_tag e) as [|[x|]]; [| |done];
      [|simpl; split; [done | by intros (_ & _ & _ & _ & _ & ? & _)]].
    destruct (CheckSignature (Event.NostrEvent e)) as [[|] [x|]]; simpl;
      try (split; [done | by intros (_ & _ & _ & _ & _ & _ & ?)]).
    destruct (check_lightning_sig e) as [|[x|]]; [| |done];
        simpl; (split; [done | by intros (_ & _ & _ & _ & _ & _ & ?)]).
  - intros Hkind Hvalid.
    assert (Forall (fun o => o = Pass) (verify_checks now e)) as Hall.
    { revert Hvalid. rewrite Hv, <- first_failure_None. by destruct (first_failure _). }
    unfold verify_checks in Hall.
    do 7 (apply Forall_cons in Hall as [_ Hall]). apply Forall_cons in Hall as [H8 _].
    revert H8. unfold check_lightning_sig. rewrite Hkind. simpl.
    destruct (snd (GetIdentifier e)) as [idx|] eqn:Hid.
    + by destruct (nostr.FindAll _ _) as [|sigt [|? ?]].
    + intros _. exfalso.
      assert (Forall (fun o => o = Pass) (verify_checks now e)) as Hall'.
      { revert Hvalid. rewrite Hv, <- first_failure_None. by destruct (first_failure _). }
      unfold verify_checks in Hall'.
      do 3 (apply Forall_cons in Hall' as [_ Hall']). apply Forall_cons in Hall' as [H4 _].
      unfold check_identifier in H4. by rewrite Hid in H4.
Qed.

End VerifyProofs.

(** C3 on a node-info record signed by the demo signer, at clock 1000. *)
Lemma Verify_ordered_checks_witness :
  in_int (1000 + 600)
  /\ (fst (snd (@Verify demo_NostrCrypto demo_LnCrypto 1000
                  (relay_event (demo_record 900 [["d"; "1:02node1:mainnet"]; ["k"; "1"]]))))
      = true <->
      Forall (fun o => o = Pass)
        (@verify_checks demo_NostrCrypto demo_LnCrypto 1000
           (relay_event (demo_record 900 [["d"; "1:02node1:mainnet"]; ["k"; "1"]])))).
Proof.
  assert (in_int (1000 + 600)) as Hnow.
  { unfold in_int, int_min, int_max. lia. }
  split; [exact Hnow|].
  apply (@Verify_ordered_checks demo_NostrCrypto demo_LnCrypto 1000 _ Hnow).
Defined.

(** C3, the claim as stated, fails twice. A record whose identity signature
    is wrong is answered not valid without any error, because the signature
    check of the transport reports a mismatch as a plain "false"; and a trust
    anchor with two tags named "sig", one of them without value, is
    answered valid. *)
Lemma Verify_nil_error_and_two_sig_tags :
  ~ (forall (nc : NostrCrypto) (lc : LnCrypto) (now : nostr.Timestamp) (e : Event.t),
        in_int (now + 600) ->
        fst (snd (Verify now e)) = false -> snd (snd (Verify now e)) <> None)
  /\ ~ (forall (nc : NostrCrypto) (lc : LnCrypto) (now : nostr.Timestamp) (e : Event.t),
          in_int (now + 600) ->
          Event.kind e = KindNodeAnnouncement ->
          fst (snd (Verify now e)) = true ->
          count_named "sig" (ev_Tags e) = 1%nat).
Proof.
  assert (in_int (1000 + 600)) as Hnow by (unfold in_int, int_min, int_max; lia).
  split.
  - intros Hclaim.
    apply (Hclaim demo_NostrCrypto demo_LnCrypto 1000
             (relay_event (forge (demo_record 900 [["d"; "1:02node1:mainnet"]; ["k"; "1"]])))
             Hnow); vm_compute; reflexivity.
  - intros Hclaim.
    specialize (Hclaim demo_NostrCrypto demo_LnCrypto 1000 two_sig_anchor Hnow).
    assert (count_named "sig" (ev_Tags two_sig_anchor) = 2%nat) as Hcount
        by (vm_compute; reflexivity).
    rewrite Hcount in Hclaim. discriminate Hclaim; vm_compute; reflexivity.
Qed.

(** The walk through the checks on concrete records: a valid node-info
    record, the same with a forged signature, and one from the far future. *)
Example Verify_demo_valid :
  snd (@Verify demo_NostrCrypto demo_LnCrypto 1000
         (relay_event (demo_record 900 [["d"; "1:02node1:mainnet"]; ["k"; "1"]])))
  = (true, None).
Proof. vm_compute. reflexivity. Qed.

Example Verify_demo_bad_signature :
  snd (@Verify demo_NostrCrypto demo_LnCrypto 1000
         (relay_event
            (with_tags (demo_record 900 [["d"; "1:02node1:mainnet"]; ["k"; "1"]])
               [["d"; "1:02node1:mainnet"]; ["k"; "1"]; ["x"; "y"]])))
  = (false, Some ErrIDMismatch).
Proof. vm_compute. reflexivity. Qed.

Example Verify_demo_future :
  snd (@Verify demo_NostrCrypto demo_LnCrypto 1000
         (relay_event (demo_record 1601 [["d"; "1:02node1:mainnet"]; ["k"; "1"]])))
  = (false, Some ErrFutureTimestamp).
Proof. vm_compute. reflexivity. Qed.

(** ** The "k" tag test of Verify *)

Lemma Atoi_canonical (s : string) (n m : Z) :
  s = Itoa n -> Atoi s = Some m -> m = n.
Proof.
  intros ->. rewrite Atoi_Itoa_range. destruct (in_intb n); congruence.
Qed.

(** C10: on an event whose identifier is the one its tags spell, the test of
    [Verify] on the "k" tag compares the first valued "k" tag with the
    rendering of the number parsed from that very tag. It therefore passes
    whenever that value is the canonical decimal rendering of an integer, it
    fails exactly when the value differs from the rendering of its own parse,
    and its outcome is the same for every event with that "k" tag, whatever
    its "d" tag says. *)
Theorem kTag_check_near_vacuous `{NostrCrypto} `{LnCrypto} (e : Event.t) (idx : Identifier.t) :
  cache_coherent e ->
  snd (GetIdentifier e) = Ok idx ->
  exists k,
    nostr.Find (ev_Tags e) "k" = Some k
    /\ Atoi (tag_value k) = Some (Identifier.Kind idx)
    /\ (kTagInvalid (ev_Tags e) idx = true <->
        tag_value k <> Itoa (Identifier.Kind idx))
    /\ ((exists n, tag_value k = Itoa n) ->
        kTagInvalid (ev_Tags e) idx = false /\ check_kind_tag e = Pass)
    /\ (forall (e' : Event.t) (idx' : Identifier.t),
          cache_coherent e' -> snd (GetIdentifier e') = Ok idx' ->
          nostr.Find (ev_Tags e') "k" = Some k ->
          kTagInvalid (ev_Tags e') idx' = kTagInvalid (ev_Tags e) idx).
Proof.
  intros Hcoh Hget. unfold cache_coherent in Hcoh. rewrite Hget in Hcoh.
  pose proof (parseIdentifier_spec (ev_Tags e)) as Hspec. rewrite <- Hcoh in Hspec.
  destruct Hspec as (d & k & Hd & Hk & Ha & _).
  assert (forall i, kTagInvalid (ev_Tags e) i
                    = negb (String.eqb (tag_value k) (Itoa (Identifier.Kind i)))) as Hinv.
  { intros i. unfold kTagInvalid. rewrite Hk, (Find_length _ _ _ Hk). done. }
  exists k. split; [done|]. split; [done|]. split; [|split].
  - rewrite Hinv, negb_true_iff. apply String.eqb_neq.
  - intros (n & Hcanon).
    assert (Identifier.Kind idx = n) as Hkn.
    { by apply (Atoi_canonical (tag_value k)). }
    assert (String.eqb (tag_value k) (Itoa (Identifier.Kind idx)) = true) as Heq.
    { rewrite Hkn. by apply String.eqb_eq. }
    split.
    + by rewrite Hinv, Heq.
    + unfold check_kind_tag. by rewrite Hget, Hk, Heq.
  - intros e' idx' Hcoh' Hget' Hk'. unfold cache_coherent in Hcoh'.
    rewrite Hget' in Hcoh'.
    pose proof (parseIdentifier_spec (ev_Tags e')) as Hspec'. rewrite <- Hcoh' in Hspec'.
    destruct Hspec' as (d' & k' & _ & Hk'' & Ha' & _).
    assert (k' = k) as -> by congruence.
    assert (Identifier.Kind idx' = Identifier.Kind idx) as Hsame by congruence.
    rewrite Hinv. unfold kTagInvalid. rewrite Hk', (Find_length _ _ _ Hk'), Hsame. done.
Qed.

(** C10 on a record whose "d" tag announces kind 2 under a "k" tag of kind 1:
    the test does not notice. *)
Lemma kTag_check_near_vacuous_witness :
  cache_coherent (wrap (plain_record "A" 10 [["d"; "2:pk:mainnet"]; ["k"; "1"]]))
  /\ snd (GetIdentifier (wrap (plain_record "A" 10 [["d"; "2:pk:mainnet"]; ["k"; "1"]])))
     = Ok (Identifier.mk "2:pk:mainnet" "mainnet" "pk" 1 [])
  /\ kTagInvalid [["d"; "2:pk:mainnet"]; ["k"; "1"]]
       (Identifier.mk "2:pk:mainnet" "mainnet" "pk" 1 []) = false.
Proof.
  split; [reflexivity|]. split; [reflexivity|].
  destruct (@kTag_check_near_vacuous demo_NostrCrypto demo_LnCrypto
              (wrap (plain_record "A" 10 [["d"; "2:pk:mainnet"]; ["k"; "1"]]))
              (Identifier.mk "2:pk:mainnet" "mainnet" "pk" 1 [])
              eq_refl eq_refl) as (k & Hk & _ & _ & Hcanon & _).
  apply Hcanon. exists 1. by injection Hk as <-.
Defined.

(** The test does fire on a value that parses but is not canonical. *)
Example kTag_check_leading_zero :
  parseIdentifier [["d"; "1:pk:mainnet"]; ["k"; "01"]]
  = Ok (Identifier.mk "1:pk:mainnet" "mainnet" "pk" 1 [])
  /\ kTagInvalid [["d"; "1:pk:mainnet"]; ["k"; "01"]]
       (Identifier.mk "1:pk:mainnet" "mainnet" "pk" 1 []) = true.
Proof. split; reflexivity. Qed.

(** ** The trust store *)

Lemma GetIdentifier_pair (e e1 : Event.t) (r : result Identifier.t) :
  GetIdentifier e = (e1, r) ->
  snd (GetIdentifier e) = r
  /\ Event.kind e1 = Event.kind e
  /\ ev_CreatedAt e1 = ev_CreatedAt e
  /\ ev_PubKey e1 = ev_PubKey e.
Proof.
  intros Hg. destruct (GetIdentifier_fst e) as (Hn & Hk & _).
  rewrite Hg in *. simpl in *. unfold ev_CreatedAt, ev_PubKey. by rewrite Hn.
Qed.

Lemma node_of_insert (m : gmap string nodeState) (P Q : string) (ns : nodeState) :
  node_of {| records := <[P := ns]> m |} Q =
  if decide (P = Q) then ns else node_of {| records := m |} Q.
Proof.
  unfold node_of. simpl. rewrite lookup_insert. by case_decide.
Qed.

(** [StoreEvent] past the identifier: the branch runs on the state of the
    node and its result is what the store holds for the node afterwards. *)
Lemma StoreEvent_branch (s : MapStore) (ev ev1 : Event.t) (id : Identifier.t) :
  GetIdentifier ev = (ev1, Ok id) ->
  StoreEvent s ev =
  ({| records :=
        <[Identifier.PubKey id :=
            fst (store_branch (node_of s (Identifier.PubKey id)) ev1 id)]> (records s) |},
   snd (store_branch (node_of s (Identifier.PubKey id)) ev1 id)).
Proof.
  intros Hg. unfold StoreEvent, getNodeState, node_of, store_branch. rewrite Hg.
  destruct (records s !! Identifier.PubKey id) as [ns|] eqn:Hl; simpl.
  - by destruct (if Event.kind ev1 =? _ then _ else _).
  - destruct (if Event.kind ev1 =? _ then _ else _).
    simpl. by rewrite insert_insert_eq.
Qed.

Lemma StoreEvent_parse_error (s : MapStore) (ev ev1 : Event.t) (err : Error) :
  GetIdentifier ev = (ev1, Err err) -> StoreEvent s ev = (s, Some err).
Proof. intros Hg. unfold StoreEvent. by rewrite Hg. Qed.

Lemma registerAnnouncement_error (ns ns1 : nodeState) (ev : Event.t)
    (id : Identifier.t) (err : Error) :
  registerAnnouncement ns ev id = (ns1, Some err) ->
  ns1 = ns
  /\ err = ErrStaleAnnouncement (createdAt (lastAnnouncement ns)) (ev_CreatedAt ev)
  /\ ev_CreatedAt ev <= createdAt (lastAnnouncement ns).
Proof.
  unfold registerAnnouncement.
  destruct (_ >=? _) eqn:Hc; [|done]. intros [= <- <-].
  rewrite Z.geb_leb in Hc. apply Z.leb_le in Hc. done.
Qed.

Lemma registerAnnouncement_ok (ns ns1 : nodeState) (ev : Event.t) (id : Identifier.t) :
  registerAnnouncement ns ev id = (ns1, None) ->
  createdAt (lastAnnouncement ns) < ev_CreatedAt ev
  /\ ns1 = {| lastAnnouncement := {| createdAt := ev_CreatedAt ev; pub := ev_PubKey ev |};
              events := <[Identifier.TagD id := ev]>
                          (if negb (String.eqb (pub (lastAnnouncement ns)) (ev_PubKey ev))
                           then ∅ else events ns) |}.
Proof.
  unfold registerAnnouncement.
  destruct (_ >=? _) eqn:Hc; [done|]. intros [= <-].
  rewrite Z.geb_leb in Hc. apply Z.leb_gt in Hc. done.
Qed.

Lemma storeRegularEvent_error (ns ns1 : nodeState) (ev : Event.t)
    (id : Identifier.t) (err : Error) :
  storeRegularEvent ns ev id = (ns1, Some err) ->
  ns1 = ns
  /\ ((pub (lastAnnouncement ns) <> ev_PubKey ev
       /\ err = ErrUntrustedSigner (ev_PubKey ev) (pub (lastAnnouncement ns)))
      \/ (pub (lastAnnouncement ns) = ev_PubKey ev
          /\ exists old, events ns !! Identifier.TagD id = Some old
                         /\ ev_CreatedAt ev <= ev_CreatedAt old
                         /\ err = ErrStaleRecord (ev_CreatedAt old) (ev_CreatedAt ev))).
Proof.
  unfold storeRegularEvent.
  destruct (String.eqb_spec (pub (lastAnnouncement ns)) (ev_PubKey ev)) as [Hp|Hp]; simpl.
  - destruct (events ns !! Identifier.TagD id) as [old|] eqn:Hl; [|done].
    destruct (_ >=? _) eqn:Hc; [|done]. intros [= <- <-].
    rewrite Z.geb_leb in Hc. apply Z.leb_le in Hc.
    split; [done|]. right. split; [done|]. by exists old.
  - intros [= <- <-]. split; [done|]. by left.
Qed.

Lemma storeRegularEvent_ok (ns ns1 : nodeState) (ev : Event.t) (id : Identifier.t) :
  storeRegularEvent ns ev id = (ns1, None) ->
  pub (lastAnnouncement ns) = ev_PubKey ev
  /\ (forall old, events ns !! Identifier.TagD id = Some old ->
                  ev_CreatedAt old < ev_CreatedAt ev)
  /\ ns1 = {| lastAnnouncement := lastAnnouncement ns;
              events := <[Identifier.TagD id := ev]> (events ns) |}.
Proof.
  unfold storeRegularEvent.
  destruct (String.eqb_spec (pub (lastAnnouncement ns)) (ev_PubKey ev)) as [Hp|Hp];
    simpl; [|done].
  destruct (events ns !! Identifier.TagD id) as [old|] eqn:Hl.
  - destruct (_ >=? _) eqn:Hc; [done|]. intros [= <-].
    rewrite Z.geb_leb in Hc. apply Z.leb_gt in Hc.
    repeat split; [done|]. by intros ? [= <-].
  - intros [= <-]. done.
Qed.

Lemma store_branch_error (ns ns1 : nodeState) (ev : Event.t) (id : Identifier.t)
    (err : Error) :
  store_branch ns ev id = (ns1, Some err) -> ns1 = ns.
Proof.
  unfold store_branch. destruct (Event.kind ev =? _).
  - by intros (-> & _)%registerAnnouncement_error.
  - by intros (-> & _)%storeRegularEvent_error.
Qed.

(** No call removes a node from the store. *)
Lemma StoreEvent_keeps_nodes (s : MapStore) (ev : Event.t) :
  dom (records s) ⊆ dom (records (fst (StoreEvent s ev))).
Proof.
  destruct (GetIdentifier ev) as [ev1 [id|err]] eqn:Hg.
  - rewrite (StoreEvent_branch _ _ _ _ Hg). simpl. rewrite dom_insert_L. set_solver.
  - by rewrite (StoreEvent_parse_error _ _ _ _ Hg).
Qed.

(** A rejected event leaves the store as it was, up to the empty state
    created for a node seen for the first time. *)
Lemma StoreEvent_error_store (s s1 : MapStore) (ev : Event.t) (err : Error) :
  StoreEvent s ev = (s1, Some err) ->
  (s1 = s
   \/ exists id, snd (GetIdentifier ev) = Ok id
                 /\ records s !! Identifier.PubKey id = None
                 /\ s1 = {| records := <[Identifier.PubKey id := newNodeState]> (records s) |})
  /\ (forall P, node_of s1 P = node_of s P).
Proof.
  destruct (GetIdentifier ev) as [ev1 [id|perr]] eqn:Hg.
  - rewrite (StoreEvent_branch _ _ _ _ Hg).
    destruct (store_branch _ ev1 id) as [ns1 [e|]] eqn:Hb; simpl; [|done].
    intros [= <- <-]. apply store_branch_error in Hb as ->.
    split.
    + unfold node_of. destruct (records s !! Identifier.PubKey id) as [ns|] eqn:Hl; simpl.
      * left. destruct s as [m]. simpl in *. f_equal. by apply insert_id.
      * right. by exists id.
    + intros P. destruct s as [m]. simpl. rewrite node_of_insert.
      case_decide; [by subst | done].
  - rewrite (StoreEvent_parse_error _ _ _ _ Hg). intros [= <- <-]. split; [by left | done].
Qed.

(** C9: a call of [StoreEvent] that returns an error leaves the announcement
    and the slots of every node as they were; the store itself is unchanged
    or has gained the empty state of the node the event addresses, when that
    node was not known; and no call, failing or not, removes a node. *)
Theorem StoreEvent_rejection_atomic (s s1 : MapStore) (ev : Event.t) (err : Error) :
  StoreEvent s ev = (s1, Some err) ->
  (forall P,
      lastAnnouncement (node_of s1 P) = lastAnnouncement (node_of s P)
      /\ events (node_of s1 P) = events (node_of s P))
  /\ (s1 = s
      \/ exists id, snd (GetIdentifier ev) = Ok id
                    /\ records s !! Identifier.PubKey id = None
                    /\ s1 = {| records := <[Identifier.PubKey id := newNodeState]> (records s) |})
  /\ (forall (s0 : MapStore) (ev0 : Event.t),
        dom (records s0) ⊆ dom (records (fst (StoreEvent s0 ev0)))).
Proof.
  intros (Hshape & Hnodes)%StoreEvent_error_store.
  split; [|split].
  - intros P. by rewrite Hnodes.
  - exact Hshape.
  - apply StoreEvent_keeps_nodes.
Qed.

(** C9 on a node-info record for a node without announcement, sent to the
    empty store: rejected, and the node appears with the empty state. *)
Lemma StoreEvent_rejection_atomic_witness :
  StoreEvent NewMapStore
    (relay_event (plain_record "A" 500 [["d"; "1:P:mainnet"]; ["k"; "1"]]))
  = ({| records := {[ "P" := newNodeState ]} |}, Some (ErrUntrustedSigner "A" ""))
  /\ (forall P,
        lastAnnouncement (node_of {| records := {[ "P" := newNodeState ]} |} P)
        = lastAnnouncement (node_of NewMapStore P)
        /\ events (node_of {| records := {[ "P" := newNodeState ]} |} P)
           = events (node_of NewMapStore P)).
Proof.
  split; [vm_compute; reflexivity|].
  apply (StoreEvent_rejection_atomic NewMapStore _
           (relay_event (plain_record "A" 500 [["d"; "1:P:mainnet"]; ["k"; "1"]]))
           (ErrUntrustedSigner "A" "")).
  vm_compute. reflexivity.
Defined.

(** *** Compromise containment *)

(** An event that is not a trust anchor for [P] leaves the announcement of
    [P] alone, and what it may add to the slots of [P] is signed by the bound
    identity. *)
Lemma StoreEvent_no_anchor (s : MapStore) (P : string) (ev : Event.t) :
  is_anchor_for P ev = false ->
  lastAnnouncement (node_of (fst (StoreEvent s ev)) P) = lastAnnouncement (node_of s P)
  /\ (slots_signed_by_bound s P -> slots_signed_by_bound (fst (StoreEvent s ev)) P).
Proof.
  intros Hna. unfold is_anchor_for in Hna.
  destruct (GetIdentifier ev) as [ev1 [id|perr]] eqn:Hg.
  2:{ by rewrite (StoreEvent_parse_error _ _ _ _ Hg). }
  destruct (GetIdentifier_pair _ _ _ Hg) as (_ & Hkind & _ & _).
  rewrite (StoreEvent_branch _ _ _ _ Hg). simpl in *.
  unfold slots_signed_by_bound. destruct s as [m]. simpl. rewrite node_of_insert.
  case_decide as HP; [|done]. subst P.
  rewrite String.eqb_refl, andb_true_r in Hna.
  unfold store_branch. rewrite Hkind, Hna.
  destruct (storeRegularEvent _ ev1 id) as [ns1 [e|]] eqn:Hs; simpl.
  - by apply storeRegularEvent_error in Hs as (-> & _).
  - apply storeRegularEvent_ok in Hs as (Hpub & _ & ->). simpl.
    split; [done|]. intros Hinv X e.
    rewrite lookup_insert. case_decide; [by intros [= <-] | apply Hinv].
Qed.

Lemma StoreAll_no_anchor (P : string) (evs : list Event.t) (s : MapStore) :
  forallb (fun e => negb (is_anchor_for P e)) evs = true ->
  lastAnnouncement (node_of (StoreAll s evs) P) = lastAnnouncement (node_of s P)
  /\ (slots_signed_by_bound s P -> slots_signed_by_bound (StoreAll s evs) P).
Proof.
  revert s. induction evs as [|ev evs IH]; intros s; simpl; [done|].
  intros [Hev Hevs]%andb_true_iff. apply negb_true_iff in Hev.
  destruct (StoreEvent_no_anchor s P ev Hev) as [Hann Hinv].
  destruct (IH (fst (StoreEvent s ev)) Hevs) as [Hann' Hinv'].
  fold (StoreAll (fst (StoreEvent s ev)) evs).
  split; [congruence | auto].
Qed.

(** A record that is not a trust anchor and is not signed by the bound
    identity is turned down, whatever the slots hold. *)
Lemma StoreEvent_untrusted (s : MapStore) (ev : Event.t) (id : Identifier.t) :
  Event.kind ev <> KindNodeAnnouncement ->
  snd (GetIdentifier ev) = Ok id ->
  ev_PubKey ev <> pub (lastAnnouncement (node_of s (Identifier.PubKey id))) ->
  snd (StoreEvent s ev) =
    Some (ErrUntrustedSigner (ev_PubKey ev)
            (pub (lastAnnouncement (node_of s (Identifier.PubKey id)))))
  /\ node_of (fst (StoreEvent s ev)) (Identifier.PubKey id)
     = node_of s (Identifier.PubKey id).
Proof.
  intros Hkind Hget Hpub.
  destruct (GetIdentifier ev) as [ev1 r] eqn:Hg. simpl in Hget. subst r.
  destruct (GetIdentifier_pair _ _ _ Hg) as (_ & Hk & _ & Hp).
  rewrite (StoreEvent_branch _ _ _ _ Hg). simpl.
  unfold store_branch. rewrite Hk. apply Z.eqb_neq in Hkind. rewrite Hkind.
  unfold storeRegularEvent. rewrite Hp.
  destruct (String.eqb_spec (pub (lastAnnouncement (node_of s (Identifier.PubKey id))))
              (ev_PubKey ev)) as [Heq|_]; [by destruct Hpub|].
  simpl. split; [done|]. destruct s as [m]. rewrite node_of_insert.
  by rewrite decide_True.
Qed.

(** One call that does not change the identity bound to [P]: a trust anchor
    of the same identity, a rejected call, or an event for another purpose.
    The bound identity stays, and so does the fact that every slot is signed
    by it. *)
Lemma StoreEvent_no_purge (s : MapStore) (P : string) (ev : Event.t) :
  is_nil (snd (StoreEvent s ev)) && is_anchor_for P ev
    && negb (String.eqb (pub (lastAnnouncement (node_of s P))) (ev_PubKey ev)) = false ->
  pub (lastAnnouncement (node_of (fst (StoreEvent s ev)) P))
  = pub (lastAnnouncement (node_of s P))
  /\ (slots_signed_by_bound s P -> slots_signed_by_bound (fst (StoreEvent s ev)) P).
Proof.
  intros Hnp. destruct (is_anchor_for P ev) eqn:Hanchor.
  2:{ destruct (StoreEvent_no_anchor s P ev Hanchor) as [-> Hinv]. done. }
  rewrite andb_true_r in Hnp. unfold is_anchor_for in Hanchor.
  destruct (GetIdentifier ev) as [ev1 [id|perr]] eqn:Hg.
  2:{ by rewrite andb_false_r in Hanchor. }
  destruct (GetIdentifier_pair _ _ _ Hg) as (_ & Hkind & _ & Hp).
  simpl in Hanchor. apply andb_true_iff in Hanchor as [Hk HP].
  apply String.eqb_eq in HP. subst P.
  revert Hnp. rewrite (StoreEvent_branch _ _ _ _ Hg). simpl.
  unfold slots_signed_by_bound. destruct s as [m]. rewrite node_of_insert.
  rewrite decide_True by done.
  set (ns := node_of {| records := m |} (Identifier.PubKey id)).
  unfold store_branch. rewrite Hkind, Hk.
  destruct (registerAnnouncement ns ev1 id) as [ns1 [e|]] eqn:Hr; simpl.
  - intros _. by apply registerAnnouncement_error in Hr as (-> & _).
  - intros Hsame. apply negb_false_iff in Hsame.
    apply registerAnnouncement_ok in Hr as (_ & ->). simpl.
    rewrite Hp, Hsame. simpl. apply String.eqb_eq in Hsame.
    split; [done|]. intros Hinv X e. rewrite lookup_insert. case_decide.
    + by intros [= <-].
    + intros He. rewrite (Hinv X e He). done.
Qed.

Lemma StoreAll_no_purge (P : string) (evs : list Event.t) (s : MapStore) :
  purges P s evs = false ->
  pub (lastAnnouncement (node_of (StoreAll s evs) P)) = pub (lastAnnouncement (node_of s P))
  /\ (slots_signed_by_bound s P -> slots_signed_by_bound (StoreAll s evs) P).
Proof.
  revert s. induction evs as [|ev evs IH]; intros s; simpl; [done|].
  intros [Hev Hevs]%orb_false_iff.
  destruct (StoreEvent_no_purge s P ev Hev) as [Hpub Hinv].
  destruct (IH (fst (StoreEvent s ev)) Hevs) as [Hpub' Hinv'].
  fold (StoreAll (fst (StoreEvent s ev)) evs).
  split; [congruence | auto].
Qed.

(** The store takes a trust anchor on its time stamp alone. *)
Lemma StoreEvent_anchor_iff (s : MapStore) (ev ev1 : Event.t) (id : Identifier.t) :
  GetIdentifier ev = (ev1, Ok id) ->
  Event.kind ev = KindNodeAnnouncement ->
  (snd (StoreEvent s ev) = None <->
   createdAt (lastAnnouncement (node_of s (Identifier.PubKey id))) < ev_CreatedAt ev)
  /\ (snd (StoreEvent s ev) = None ->
      lastAnnouncement (node_of (fst (StoreEvent s ev)) (Identifier.PubKey id))
      = {| createdAt := ev_CreatedAt ev; pub := ev_PubKey ev |})
  /\ (snd (StoreEvent s ev) <> None ->
      snd (StoreEvent s ev)
      = Some (ErrStaleAnnouncement
                (createdAt (lastAnnouncement (node_of s (Identifier.PubKey id))))
                (ev_CreatedAt ev))).
Proof.
  intros Hg Hkind. destruct (GetIdentifier_pair _ _ _ Hg) as (_ & Hk & Hc & Hp).
  rewrite (StoreEvent_branch _ _ _ _ Hg). simpl.
  destruct s as [m]. rewrite node_of_insert, decide_True by done.
  set (ns := node_of {| records := m |} (Identifier.PubKey id)).
  unfold store_branch. rewrite Hk, Hkind. simpl.
  unfold registerAnnouncement. rewrite Hc, Hp, Z.geb_leb.
  destruct (ev_CreatedAt ev <=? createdAt (lastAnnouncement ns)) eqn:Hle; simpl.
  - apply Z.leb_le in Hle. split; [split; [done | lia]|]. split; [done | done].
  - apply Z.leb_gt in Hle. split; [done|]. split; [done | done].
Qed.

(** C1, the claim as stated, fails: after node P has moved from identity A
    to identity B, a trust anchor signed by the old identity A with a later
    time stamp is accepted; the store checks the signer of the other records
    only, and takes a trust anchor on its time stamp. *)
Lemma old_identity_anchor_accepted :
  ~ (forall (s s1 : MapStore) (ev ev2 : Event.t) (id id2 : Identifier.t),
        Event.kind ev = KindNodeAnnouncement ->
        snd (GetIdentifier ev) = Ok id ->
        StoreEvent s ev = (s1, None) ->
        ev_PubKey ev <> pub (lastAnnouncement (node_of s (Identifier.PubKey id))) ->
        snd (GetIdentifier ev2) = Ok id2 ->
        Identifier.PubKey id2 = Identifier.PubKey id ->
        ev_PubKey ev2 = pub (lastAnnouncement (node_of s (Identifier.PubKey id))) ->
        snd (StoreEvent s1 ev2) <> None).
Proof.
  intros Hclaim.
  apply (Hclaim
           (StoreAll NewMapStore (firstn 2 rotation_run))
           (StoreAll NewMapStore (firstn 3 rotation_run))
           (relay_event (plain_record "B" 20 [["d"; "P"]; ["k"; "0"]]))
           (relay_event (plain_record "A" 30 [["d"; "P"]; ["k"; "0"]]))
           (Identifier.mk "P" "" "P" 0 []) (Identifier.mk "P" "" "P" 0 []));
    vm_compute; (reflexivity || discriminate).
Qed.

(** C1, amended: a record that is not a trust anchor enters the slots of its
    node only if its identity key is the one bound by the last announcement,
    and is otherwise turned down as coming from an untrusted signer, the node
    being left as it was. A trust anchor is taken on its time stamp alone,
    whoever signs it: it is accepted exactly when it is newer than the
    announcement of the node, and is stale otherwise. An accepted trust
    anchor that carries another identity than the one bound before leaves
    the node with the new announcement and with the slot of that
    announcement as its only slot; from then on, as long as no trust anchor
    that changes the bound identity again is accepted for the node (trust
    anchors of the same identity may follow), every record that is not a
    trust anchor and is signed by another identity (the old one among them)
    is turned down as untrusted, and every slot of the node is signed by the
    new identity. *)
Theorem compromise_containment (s s1 : MapStore) (ev ev1 : Event.t)
    (id : Identifier.t) (err : option Error) :
  GetIdentifier ev = (ev1, Ok id) ->
  StoreEvent s ev = (s1, err) ->
  (Event.kind ev <> KindNodeAnnouncement ->
     (err = None ->
        ev_PubKey ev = pub (lastAnnouncement (node_of s (Identifier.PubKey id)))
        /\ events (node_of s1 (Identifier.PubKey id)) !! Identifier.TagD id = Some ev1)
     /\ (ev_PubKey ev <> pub (lastAnnouncement (node_of s (Identifier.PubKey id))) ->
         err = Some (ErrUntrustedSigner (ev_PubKey ev)
                       (pub (lastAnnouncement (node_of s (Identifier.PubKey id)))))
         /\ node_of s1 (Identifier.PubKey id) = node_of s (Identifier.PubKey id)))
  /\ (Event.kind ev = KindNodeAnnouncement ->
      (err = None <->
       createdAt (lastAnnouncement (node_of s (Identifier.PubKey id))) < ev_CreatedAt ev)
      /\ (err <> None ->
          err = Some (ErrStaleAnnouncement
                        (createdAt (lastAnnouncement (node_of s (Identifier.PubKey id))))
                        (ev_CreatedAt ev)))
      /\ (err = None ->
          lastAnnouncement (node_of s1 (Identifier.PubKey id))
          = {| createdAt := ev_CreatedAt ev; pub := ev_PubKey ev |})
      /\ (err = None ->
          ev_PubKey ev <> pub (lastAnnouncement (node_of s (Identifier.PubKey id))) ->
          node_of s1 (Identifier.PubKey id) =
            {| lastAnnouncement := {| createdAt := ev_CreatedAt ev; pub := ev_PubKey ev |};
               events := {[ Identifier.TagD id := ev1 ]} |}
          /\ forall (evs : list Event.t) (ev2 : Event.t) (id2 : Identifier.t),
               purges (Identifier.PubKey id) s1 evs = false ->
               Event.kind ev2 <> KindNodeAnnouncement ->
               snd (GetIdentifier ev2) = Ok id2 ->
               Identifier.PubKey id2 = Identifier.PubKey id ->
               ev_PubKey ev2 <> ev_PubKey ev ->
               snd (StoreEvent (StoreAll s1 evs) ev2) =
                 Some (ErrUntrustedSigner (ev_PubKey ev2) (ev_PubKey ev))
               /\ (forall X e,
                     events (node_of (StoreAll s1 evs) (Identifier.PubKey id)) !! X
                     = Some e ->
                     ev_PubKey e = ev_PubKey ev))).
Proof.
  intros Hg Hstore.
  destruct (GetIdentifier_pair _ _ _ Hg) as (Hget & Hk & Hc & Hp).
  set (P := Identifier.PubKey id) in *.
  assert (node_of s1 P = fst (store_branch (node_of s P) ev1 id)
          /\ err = snd (store_branch (node_of s P) ev1 id)) as [Hnode Herr].
  { rewrite (StoreEvent_branch _ _ _ _ Hg) in Hstore. injection Hstore as <- <-.
    fold P. rewrite node_of_insert. by rewrite decide_True. }
  split.
  - intros Hkind. split.
    + intros ->. rewrite Hnode. revert Herr. unfold store_branch.
      rewrite Hk. apply Z.eqb_neq in Hkind. rewrite Hkind.
      destruct (storeRegularEvent _ ev1 id) as [ns1 e] eqn:Hs. simpl. intros <-.
      apply storeRegularEvent_ok in Hs as (Hpub & _ & ->). simpl.
      split; [congruence | apply lookup_insert_eq].
    + intros Hpub.
      destruct (StoreEvent_untrusted s ev id Hkind Hget Hpub) as [Hu Hsame].
      rewrite Hstore in Hu, Hsame. simpl in Hu, Hsame. done.
  - intros Hkind.
    destruct (StoreEvent_anchor_iff s ev ev1 id Hg Hkind) as (Hiff & Hann & Hstale).
    rewrite Hstore in Hiff, Hann, Hstale. simpl in Hiff, Hann, Hstale.
    split; [exact Hiff|]. split; [exact Hstale|]. split; [exact Hann|].
    intros -> Hpub.
    assert (node_of s1 P =
            {| lastAnnouncement := {| createdAt := ev_CreatedAt ev; pub := ev_PubKey ev |};
               events := {[ Identifier.TagD id := ev1 ]} |}) as Hs1.
    { rewrite Hnode. revert Herr. unfold store_branch. rewrite Hk, Hkind. simpl.
      destruct (registerAnnouncement _ ev1 id) as [ns1 e] eqn:Hr. simpl. intros <-.
      apply registerAnnouncement_ok in Hr as (_ & ->). rewrite Hp, Hc.
      destruct (String.eqb_spec (pub (lastAnnouncement (node_of s P))) (ev_PubKey ev))
        as [Heq|_]; [by destruct Hpub|]. simpl. by rewrite insert_empty. }
    split; [exact Hs1|].
    intros evs ev2 id2 Hevs Hk2 Hget2 HP2 Hpub2.
    destruct (StoreAll_no_purge P evs s1 Hevs) as [Hbound0 Hinv].
    assert (slots_signed_by_bound s1 P) as Hinv1.
    { intros X e. rewrite Hs1. simpl.
      intros [_ <-]%lookup_singleton_Some. exact Hp. }
    specialize (Hinv Hinv1). rewrite Hs1 in Hbound0. simpl in Hbound0.
    assert (pub (lastAnnouncement (node_of (StoreAll s1 evs) (Identifier.PubKey id2)))
            = ev_PubKey ev) as Hbound.
    { rewrite HP2. fold P. exact Hbound0. }
    split.
    + destruct (StoreEvent_untrusted (StoreAll s1 evs) ev2 id2 Hk2 Hget2) as [Hu _].
      * by rewrite Hbound.
      * by rewrite Hu, Hbound.
    + intros X e HX. rewrite (Hinv X e HX). exact Hbound0.
Qed.

(** C1 on the rotation of node P from identity A to identity B: the slots of
    A are gone, and after a further trust anchor of B a later record of A is
    turned down. *)
Lemma compromise_containment_witness :
  GetIdentifier (relay_event (plain_record "B" 20 [["d"; "P"]; ["k"; "0"]]))
  = (relay_event (plain_record "B" 20 [["d"; "P"]; ["k"; "0"]]),
     Ok (Identifier.mk "P" "" "P" 0 []))
  /\ snd (StoreEvent (StoreAll NewMapStore (firstn 2 rotation_run))
            (relay_event (plain_record "B" 20 [["d"; "P"]; ["k"; "0"]]))) = None
  /\ events (node_of (StoreAll NewMapStore (firstn 3 rotation_run)) "P")
     = {[ "P" := relay_event (plain_record "B" 20 [["d"; "P"]; ["k"; "0"]]) ]}
  /\ purges "P" (StoreAll NewMapStore (firstn 3 rotation_run))
       [relay_event (plain_record "B" 25 [["d"; "P"]; ["k"; "0"]])] = false
  /\ snd (StoreEvent
            (StoreAll (StoreAll NewMapStore (firstn 3 rotation_run))
               [relay_event (plain_record "B" 25 [["d"; "P"]; ["k"; "0"]])])
            (relay_event (plain_record "A" 600 [["d"; "1:P:mainnet"]; ["k"; "1"]])))
     = Some (ErrUntrustedSigner "A" "B").
Proof.
  split; [reflexivity|]. split; [vm_compute; reflexivity|].
  assert (StoreEvent (StoreAll NewMapStore (firstn 2 rotation_run))
            (relay_event (plain_record "B" 20 [["d"; "P"]; ["k"; "0"]]))
          = (StoreAll NewMapStore (firstn 3 rotation_run), None)) as Hstore.
  { vm_compute. reflexivity. }
  assert (purges "P" (StoreAll NewMapStore (firstn 3 rotation_run))
            [relay_event (plain_record "B" 25 [["d"; "P"]; ["k"; "0"]])] = false)
    as Hnopurge by (vm_compute; reflexivity).
  destruct (compromise_containment _ _
              (relay_event (plain_record "B" 20 [["d"; "P"]; ["k"; "0"]]))
              (relay_event (plain_record "B" 20 [["d"; "P"]; ["k"; "0"]]))
              (Identifier.mk "P" "" "P" 0 []) None eq_refl Hstore) as [_ Hrebind].
  destruct (Hrebind eq_refl) as (_ & _ & _ & Hchange).
  destruct Hchange as [Hnode Hlater]; [reflexivity | vm_compute; discriminate |].
  split.
  - change (Identifier.PubKey (Identifier.mk "P" "" "P" 0 [])) with "P" in Hnode.
    rewrite Hnode. reflexivity.
  - split; [exact Hnopurge|].
    assert (Event.kind (relay_event (plain_record "A" 600 [["d"; "1:P:mainnet"]; ["k"; "1"]]))
            <> KindNodeAnnouncement) as Hkind by (vm_compute; discriminate).
    assert (ev_PubKey (relay_event (plain_record "A" 600 [["d"; "1:P:mainnet"]; ["k"; "1"]]))
            <> ev_PubKey (relay_event (plain_record "B" 20 [["d"; "P"]; ["k"; "0"]])))
      as Hold by (vm_compute; discriminate).
    exact (proj1 (Hlater [relay_event (plain_record "B" 25 [["d"; "P"]; ["k"; "0"]])]
                    (relay_event (plain_record "A" 600 [["d"; "1:P:mainnet"]; ["k"; "1"]]))
                    (Identifier.mk "1:P:mainnet" "mainnet" "P" 1 [])
                    Hnopurge Hkind eq_refl eq_refl Hold)).
Defined.

(** *** Monotonicity *)

Lemma is_anchor_for_true (P : string) (ev : Event.t) :
  is_anchor_for P ev = true <->
  Event.kind ev = KindNodeAnnouncement
  /\ exists id, snd (GetIdentifier ev) = Ok id /\ Identifier.PubKey id = P.
Proof.
  unfold is_anchor_for. rewrite andb_true_iff, Z.eqb_eq.
  destruct (snd (GetIdentifier ev)) as [id|e].
  - rewrite String.eqb_eq. split.
    + intros [Hk HP]. split; [done|]. by exists id.
    + intros [Hk (id' & [= <-] & HP)]. done.
  - split; [by intros [_ ?] | by intros [_ (id & ? & _)]].
Qed.

(** The announcement of a node moves only when a trust anchor for that node
    is accepted, and then to a strictly later time stamp. *)
Lemma StoreEvent_announcement_step (s : MapStore) (P : string) (ev : Event.t) :
  (is_nil (snd (StoreEvent s ev)) && is_anchor_for P ev = true ->
   createdAt (lastAnnouncement (node_of s P)) < ev_CreatedAt ev
   /\ lastAnnouncement (node_of (fst (StoreEvent s ev)) P)
      = {| createdAt := ev_CreatedAt ev; pub := ev_PubKey ev |})
  /\ (is_nil (snd (StoreEvent s ev)) && is_anchor_for P ev = false ->
      lastAnnouncement (node_of (fst (StoreEvent s ev)) P)
      = lastAnnouncement (node_of s P)).
Proof.
  destruct (GetIdentifier ev) as [ev1 [id|perr]] eqn:Hg.
  2:{ rewrite (StoreEvent_parse_error _ _ _ _ Hg). simpl. split; [done | done]. }
  destruct (GetIdentifier_pair _ _ _ Hg) as (Hget & Hk & Hc & Hp).
  rewrite (StoreEvent_branch _ _ _ _ Hg). simpl.
  unfold is_anchor_for. rewrite Hget.
  destruct s as [m]. rewrite node_of_insert. simpl.
  destruct (String.eqb_spec (Identifier.PubKey id) P) as [HP|HP].
  2:{ rewrite decide_False by done. rewrite !andb_false_r. split; [done | done]. }
  rewrite decide_True by done. subst P. rewrite !andb_true_r.
  unfold store_branch. rewrite Hk.
  destruct (Event.kind ev =? KindNodeAnnouncement) eqn:Hkind.
  - destruct (registerAnnouncement _ ev1 id) as [ns1 [e|]] eqn:Hr; simpl.
    + split; [done|]. intros _. by apply registerAnnouncement_error in Hr as (-> & _).
    + split; [|done]. intros _.
      apply registerAnnouncement_ok in Hr as (Hlt & ->). simpl.
      rewrite <- Hc, <- Hp. done.
  - rewrite andb_false_r. split; [done|]. intros _.
    destruct (storeRegularEvent _ ev1 id) as [ns1 [e|]] eqn:Hs; simpl.
    + by apply storeRegularEvent_error in Hs as (-> & _).
    + by apply storeRegularEvent_ok in Hs as (_ & _ & ->).
Qed.

(** The time stamps of the accepted trust anchors of a node increase
    strictly, starting above the announcement the run starts from. *)
Lemma announcement_history_sorted (P : string) (evs : list Event.t) (s : MapStore) :
  StronglySorted Z.lt (announcement_history P s evs)
  /\ Forall (fun t => createdAt (lastAnnouncement (node_of s P)) < t)
       (announcement_history P s evs).
Proof.
  revert s. induction evs as [|ev evs IH]; intros s; simpl.
  - split; constructor.
  - destruct (IH (fst (StoreEvent s ev))) as [Hsorted Hbound].
    destruct (StoreEvent_announcement_step s P ev) as [Hacc Hrej].
    destruct (is_nil (snd (StoreEvent s ev)) && is_anchor_for P ev) eqn:Hhit; simpl.
    + destruct (Hacc eq_refl) as [Hlt Hnew]. rewrite Hnew in Hbound. simpl in Hbound.
      split.
      * by constructor.
      * constructor; [done|]. eapply Forall_impl; [exact Hbound|]. simpl. lia.
    + rewrite (Hrej eq_refl) in Hbound. done.
Qed.

(** Two trust anchors of one node with the same time stamp: whatever became
    of the first, the second is stale and changes nothing. *)
Lemma equal_announcements_stale (s : MapStore) (ev ev' : Event.t)
    (id id' : Identifier.t) :
  Event.kind ev = KindNodeAnnouncement -> Event.kind ev' = KindNodeAnnouncement ->
  snd (GetIdentifier ev) = Ok id -> snd (GetIdentifier ev') = Ok id' ->
  Identifier.PubKey id = Identifier.PubKey id' ->
  ev_CreatedAt ev = ev_CreatedAt ev' ->
  StoreEvent (fst (StoreEvent s ev)) ev' =
  (fst (StoreEvent s ev),
   Some (ErrStaleAnnouncement
           (createdAt (lastAnnouncement
                         (node_of (fst (StoreEvent s ev)) (Identifier.PubKey id))))
           (ev_CreatedAt ev'))).
Proof.
  intros Hk Hk' Hget Hget' HP Hc.
  set (s1 := fst (StoreEvent s ev)).
  assert (ev_CreatedAt ev <= createdAt (lastAnnouncement (node_of s1 (Identifier.PubKey id))))
    as Hle.
  { destruct (StoreEvent_announcement_step s (Identifier.PubKey id) ev) as [Hacc Hrej].
    assert (is_anchor_for (Identifier.PubKey id) ev = true) as Hanchor.
    { apply is_anchor_for_true. split; [done|]. by exists id. }
    rewrite Hanchor, andb_true_r in Hacc, Hrej. subst s1.
    destruct (is_nil (snd (StoreEvent s ev))) eqn:Hnil.
    - destruct (Hacc eq_refl) as [_ ->]. simpl. lia.
    - rewrite (Hrej eq_refl).
      destruct (GetIdentifier ev) as [ev1 r] eqn:Hg. simpl in Hget. subst r.
      destruct (GetIdentifier_pair _ _ _ Hg) as (_ & Hk1 & Hc1 & _).
      rewrite (StoreEvent_branch _ _ _ _ Hg) in Hnil. simpl in Hnil.
      unfold store_branch in Hnil. rewrite Hk1, Hk in Hnil. simpl in Hnil.
      destruct (registerAnnouncement _ ev1 id) as [ns1 [e|]] eqn:Hr; [|done].
      apply registerAnnouncement_error in Hr as (_ & _ & Hstale). lia. }
  assert (exists ns, records s1 !! Identifier.PubKey id = Some ns) as [ns Hns].
  { subst s1. destruct (GetIdentifier ev) as [ev1 r] eqn:Hg. simpl in Hget. subst r.
    rewrite (StoreEvent_branch _ _ _ _ Hg). simpl. rewrite lookup_insert_eq. eauto. }
  destruct (GetIdentifier ev') as [ev1' r] eqn:Hg'. simpl in Hget'. subst r.
  destruct (GetIdentifier_pair _ _ _ Hg') as (_ & Hk1' & Hc1' & _).
  rewrite (StoreEvent_branch _ _ _ _ Hg'). rewrite <- HP.
  unfold store_branch. rewrite Hk1', Hk'. simpl. unfold registerAnnouncement.
  rewrite Hc1'.
  assert ((createdAt (lastAnnouncement (node_of s1 (Identifier.PubKey id)))
           >=? ev_CreatedAt ev') = true) as ->.
  { rewrite Z.geb_leb. apply Z.leb_le. lia. }
  simpl. f_equal. destruct s1 as [m]. simpl in *. f_equal.
  apply insert_id. unfold node_of. simpl. by rewrite Hns.
Qed.

Lemma kind_coherent_true (ev ev1 : Event.t) (id : Identifier.t) :
  kind_coherent ev = true ->
  GetIdentifier ev = (ev1, Ok id) ->
  Event.kind ev = Identifier.Kind id
  /\ (Event.kind ev = KindNodeAnnouncement -> Identifier.TagD id = Identifier.PubKey id)
  /\ (Event.kind ev <> KindNodeAnnouncement -> Identifier.TagD id <> Identifier.PubKey id).
Proof.
  unfold kind_coherent. intros Hc Hg. rewrite Hg in Hc. simpl in Hc.
  apply andb_true_iff in Hc as [Hk Hshape]. apply Z.eqb_eq in Hk.
  split; [done|]. rewrite Hk.
  destruct (Identifier.Kind id =? KindNodeAnnouncement) eqn:Hkind.
  - apply String.eqb_eq in Hshape. apply Z.eqb_eq in Hkind. split; [done | done].
  - apply negb_true_iff, String.eqb_neq in Hshape. apply Z.eqb_neq in Hkind.
    split; [done | done].
Qed.

(** One call in a run that does not discard the slots of [P]: the slot
    under the node's key stays bounded by the announcement, an event accepted
    into slot [X] is newer than what the slot held and is what it holds
    afterwards, and any other call leaves slot [X] alone. *)
Lemma StoreEvent_slot_step (s : MapStore) (P X : string) (ev : Event.t) :
  anchor_slot_ok s P = true ->
  kind_coherent ev = true ->
  is_nil (snd (StoreEvent s ev)) && is_anchor_for P ev
    && negb (String.eqb (pub (lastAnnouncement (node_of s P))) (ev_PubKey ev)) = false ->
  anchor_slot_ok (fst (StoreEvent s ev)) P = true
  /\ (is_nil (snd (StoreEvent s ev)) && hits_slot P X ev = true ->
      (forall old, events (node_of s P) !! X = Some old ->
                   ev_CreatedAt old < ev_CreatedAt ev)
      /\ exists new, events (node_of (fst (StoreEvent s ev)) P) !! X = Some new
                     /\ ev_CreatedAt new = ev_CreatedAt ev)
  /\ (is_nil (snd (StoreEvent s ev)) && hits_slot P X ev = false ->
      events (node_of (fst (StoreEvent s ev)) P) !! X = events (node_of s P) !! X).
Proof.
  intros Hok Hcoh Hnopurge.
  destruct (GetIdentifier ev) as [ev1 [id|perr]] eqn:Hg.
  2:{ rewrite (StoreEvent_parse_error _ _ _ _ Hg). simpl. done. }
  destruct (GetIdentifier_pair _ _ _ Hg) as (Hget & Hk & Hc & Hp).
  destruct (kind_coherent_true _ _ _ Hcoh Hg) as (_ & Hanchor_shape & Hregular_shape).
  revert Hnopurge. unfold is_anchor_for, hits_slot. rewrite Hget.
  rewrite (StoreEvent_branch _ _ _ _ Hg). simpl.
  unfold anchor_slot_ok in *.
  destruct s as [m]. rewrite node_of_insert.
  destruct (String.eqb_spec (Identifier.PubKey id) P) as [HP|HP].
  2:{ rewrite decide_False by done. rewrite !andb_false_r. done. }
  rewrite decide_True by done. subst P. simpl. rewrite !andb_true_r.
  set (ns := node_of {| records := m |} (Identifier.PubKey id)) in *.
  unfold store_branch. rewrite Hk.
  destruct (Event.kind ev =? KindNodeAnnouncement) eqn:Hkind.
  - (* a trust anchor of the node *)
    apply Z.eqb_eq in Hkind. specialize (Hanchor_shape Hkind).
    destruct (registerAnnouncement ns ev1 id) as [ns1 [e|]] eqn:Hr; simpl.
    + intros _. apply registerAnnouncement_error in Hr as (-> & _). done.
    + apply registerAnnouncement_ok in Hr as (Hlt & ->). simpl.
      rewrite Hp. intros Hsame. apply negb_false_iff in Hsame. rewrite Hsame. simpl.
      rewrite Hanchor_shape, lookup_insert_eq, Hc.
      split; [by apply Z.leb_le|].
      destruct (String.eqb_spec (Identifier.PubKey id) X) as [HX|HX].
      * subst X. split; [|done]. intros _. split.
        -- intros old Hold. rewrite Hold in Hok. apply Z.leb_le in Hok. lia.
        -- exists ev1. by rewrite lookup_insert_eq.
      * split; [done|]. intros _. by rewrite lookup_insert_ne.
  - (* any other record of the node *)
    apply Z.eqb_neq in Hkind. specialize (Hregular_shape Hkind).
    intros _.
    destruct (storeRegularEvent ns ev1 id) as [ns1 [e|]] eqn:Hs; simpl.
    + apply storeRegularEvent_error in Hs as (-> & _). done.
    + apply storeRegularEvent_ok in Hs as (_ & Hnewer & ->). simpl.
      rewrite lookup_insert_ne by done.
      split; [done|].
      destruct (String.eqb_spec (Identifier.TagD id) X) as [HX|HX].
      * subst X. split; [|done]. intros _. split.
        -- intros old Hold. rewrite <- Hc. by apply Hnewer.
        -- exists ev1. by rewrite lookup_insert_eq.
      * split; [done|]. intros _. by rewrite lookup_insert_ne.
Qed.

(** Between two purges the time stamps accepted into a slot increase
    strictly, starting above what the slot holds. *)
Lemma slot_history_sorted (P X : string) (evs : list Event.t) (s : MapStore) :
  anchor_slot_ok s P = true ->
  forallb kind_coherent evs = true ->
  purges P s evs = false ->
  StronglySorted Z.lt (slot_history P X s evs)
  /\ (forall old, events (node_of s P) !! X = Some old ->
                  Forall (fun t => ev_CreatedAt old < t) (slot_history P X s evs)).
Proof.
  revert s. induction evs as [|ev evs IH]; intros s Hok Hcoh Hpurge; simpl.
  - split; [constructor | intros; constructor].
  - simpl in Hcoh, Hpurge.
    apply andb_true_iff in Hcoh as [Hcoh1 Hcoh].
    apply orb_false_iff in Hpurge as [Hpurge1 Hpurge].
    destruct (StoreEvent_slot_step s P X ev Hok Hcoh1 Hpurge1) as (Hok' & Hhit & Hmiss).
    destruct (IH (fst (StoreEvent s ev)) Hok' Hcoh Hpurge) as [Hsorted Hbound].
    destruct (is_nil (snd (StoreEvent s ev)) && hits_slot P X ev) eqn:Hh; simpl.
    + destruct (Hhit eq_refl) as [Hnewer (new & Hnew & Hts)].
      specialize (Hbound new Hnew). rewrite Hts in Hbound.
      split.
      * by constructor.
      * intros old Hold. constructor; [by apply Hnewer|].
        eapply Forall_impl; [exact Hbound|]. simpl. intros t Ht.
        specialize (Hnewer old Hold). lia.
    + split; [done|]. intros old Hold. apply Hbound. by rewrite (Hmiss eq_refl).
Qed.

(** The slot under the node's key stays bounded by the announcement under
    every call with an event whose kind agrees with its identifier, purges
    included. *)
Lemma StoreEvent_anchor_slot (s : MapStore) (P : string) (ev : Event.t) :
  anchor_slot_ok s P = true ->
  kind_coherent ev = true ->
  anchor_slot_ok (fst (StoreEvent s ev)) P = true.
Proof.
  intros Hok Hcoh.
  destruct (GetIdentifier ev) as [ev1 [id|perr]] eqn:Hg.
  2:{ by rewrite (StoreEvent_parse_error _ _ _ _ Hg). }
  destruct (GetIdentifier_pair _ _ _ Hg) as (Hget & Hk & Hc & Hp).
  destruct (kind_coherent_true _ _ _ Hcoh Hg) as (_ & Hanchor_shape & Hregular_shape).
  rewrite (StoreEvent_branch _ _ _ _ Hg). simpl.
  unfold anchor_slot_ok in *. destruct s as [m]. rewrite node_of_insert.
  case_decide as HP; [|done]. subst P.
  set (ns := node_of {| records := m |} (Identifier.PubKey id)) in *.
  unfold store_branch. rewrite Hk.
  destruct (Event.kind ev =? KindNodeAnnouncement) eqn:Hkind.
  - apply Z.eqb_eq in Hkind. specialize (Hanchor_shape Hkind).
    destruct (registerAnnouncement ns ev1 id) as [ns1 [e|]] eqn:Hr; simpl.
    + by apply registerAnnouncement_error in Hr as (-> & _).
    + apply registerAnnouncement_ok in Hr as (_ & ->). simpl.
      rewrite Hanchor_shape, lookup_insert_eq. apply Z.leb_refl.
  - apply Z.eqb_neq in Hkind. specialize (Hregular_shape Hkind).
    destruct (storeRegularEvent ns ev1 id) as [ns1 [e|]] eqn:Hs; simpl.
    + by apply storeRegularEvent_error in Hs as (-> & _).
    + apply storeRegularEvent_ok in Hs as (_ & _ & ->). simpl.
      by rewrite lookup_insert_ne.
Qed.

(** C2, the claim as stated, fails: after identity B replaces identity A the
    slots of the node are discarded, and the slot that held a record of time
    500 accepts one of time 30. *)
Lemma slot_timestamps_not_increasing :
  ~ (forall (P X : string) (s : MapStore) (evs : list Event.t),
        forallb kind_coherent evs = true ->
        StronglySorted Z.lt (slot_history P X s evs)).
Proof.
  intros Hclaim.
  specialize (Hclaim "P" "1:P:mainnet" NewMapStore rotation_run eq_refl).
  assert (slot_history "P" "1:P:mainnet" NewMapStore rotation_run = [500; 30]) as Hrun.
  { vm_compute. reflexivity. }
  rewrite Hrun in Hclaim.
  inversion Hclaim as [|? ? _ Hall]. inversion Hall as [|? ? Hlt _]. lia.
Qed.

(** The four calls of that run are all accepted. *)
Example rotation_run_accepted :
  announcement_history "P" NewMapStore rotation_run = [10; 20]
  /\ purges "P" NewMapStore rotation_run = true
  /\ MapStore_GetEvents (StoreAll NewMapStore rotation_run) KindNodeInfo ∅
     = [relay_event (plain_record "B" 30 [["d"; "1:P:mainnet"]; ["k"; "1"]])].
Proof. split; [|split]; vm_compute; reflexivity. Qed.

(** An event whose kind field is the trust-anchor kind while its identifier
    names a slot of another kind, as a bare event literal has it, goes
    through [registerAnnouncement]: it overwrites that slot whatever the slot
    held, with no change of identity. *)
Example bare_event_overwrites_slot :
  let bare := wrap (plain_record "A" 20 [["d"; "1:P:mainnet"]; ["k"; "1"]]) in
  let s := StoreAll NewMapStore (firstn 1 rotation_run) in
  let evs := [relay_event (plain_record "A" 500 [["d"; "1:P:mainnet"]; ["k"; "1"]]); bare] in
  kind_coherent bare = false
  /\ anchor_slot_ok s "P" = true
  /\ purges "P" s evs = false
  /\ slot_history "P" "1:P:mainnet" s evs = [500; 20].
Proof. vm_compute. repeat split. Qed.

(** ** Finalize, sign, verify *)

Lemma FindAll_app (l1 l2 : nostr.Tags) (key : string) :
  nostr.FindAll (l1 ++ l2) key = nostr.FindAll l1 key ++ nostr.FindAll l2 key.
Proof. apply List.filter_app. Qed.

Lemma FindAll_nil (tags : nostr.Tags) (key : string) :
  nostr.Find tags key = None -> nostr.FindAll tags key = [].
Proof.
  unfold nostr.Find, nostr.FindAll. induction tags as [|t tags IH]; simpl; [done|].
  destruct (nostr.has_key key t); [done | exact IH].
Qed.

Lemma parseIdentifier_ext (tags tags' : nostr.Tags) :
  nostr.Find tags' "d" = nostr.Find tags "d" ->
  nostr.Find tags' "k" = nostr.Find tags "k" ->
  parseIdentifier tags' = parseIdentifier tags.
Proof. unfold parseIdentifier. by intros -> ->. Qed.

Lemma IsValidNetwork_no_colon (network : string) :
  IsValidNetwork network = true -> no_colon network = true.
Proof.
  unfold IsValidNetwork.
  repeat match goal with
         | |- context [String.eqb network ?lit] =>
             destruct (String.eqb network lit) eqn:?Hlit;
             [match goal with
              | Heq : String.eqb network lit = true |- _ =>
                  apply String.eqb_eq in Heq; subst network; intros _; reflexivity
              end|]
         end.
  intros Hf. discriminate Hf.
Qed.

Lemma Split_encoded_head (c : string) (opts : list string) :
  no_colon c = true -> exists tl, Split (c +:+ encode_opts opts) = c :: tl.
Proof.
  intros Hc. destruct opts as [|o opts]; simpl.
  - rewrite append_empty_r, Split_no_colon by done. eauto.
  - rewrite Split_app_colon by done. eauto.
Qed.

(** The network read back from an encoded identifier. *)
Lemma nth_network (a b c : string) (opts : list string) :
  no_colon a = true -> no_colon b = true -> no_colon c = true ->
  nth 2 (Split (Join ([a; b; c] ++ opts))) EmptyString = c
  /\ nth 1 (Split (Join ([a; b; c] ++ opts))) EmptyString = b.
Proof.
  intros Ha Hb Hc. rewrite Join_encode_opts.
  rewrite Split_app_colon by done. rewrite Split_app_colon by done.
  destruct (Split_encoded_head c opts Hc) as [tl ->]. done.
Qed.

Section SignVerify.
Context `{NostrCrypto} `{LnCrypto} `{NostrSigner} `{LightningNode}.

Lemma first_failure_all_pass (checks : list outcome) :
  Forall (fun o => o = Pass) checks -> first_failure checks = None.
Proof. apply first_failure_None. Qed.

(** Past [Finalize] and [SignEvent], every check of [Verify] passes. *)
Lemma sign_then_verify_chain (pk lnpk : string) (nev : nostr.Event.t)
    (network : string) (kind : Kind) (opts : list string) (now : nostr.Timestamp) :
  nostr_signer_valid pk -> ln_signer_valid lnpk -> in_int kind ->
  nostr.Find (nostr.Event.Tags nev) "d" = None ->
  nostr.Find (nostr.Event.Tags nev) "k" = None ->
  nostr.Find (nostr.Event.Tags nev) "sig" = None ->
  (kind = KindNodeAnnouncement -> nostr.Event.PubKey nev = pk) ->
  (kind <> KindNodeAnnouncement ->
   IsValidNetwork network = true /\ no_colon lnpk = true) ->
  Z.of_nat (String.length (nostr.Event.Content nev)) <= MaxContentSize ->
  nostr.Event.CreatedAt nev <= now + 600 -> in_int (now + 600) ->
  exists e1 e2,
    Finalize (wrap nev) network lnpk kind opts = Ok e1
    /\ SignEvent e1 = Ok e2
    /\ snd (Verify now e2) = (true, None)
    /\ ev_PubKey e2 = pk
    /\ ev_CreatedAt e2 = nostr.Event.CreatedAt nev
    /\ nostr.Event.Content (Event.NostrEvent e2) = nostr.Event.Content nev.
Proof.
  intros [_ Hnsig] Hlnsig Hkind Hd Hk Hsig Hpk Hnet Hsize Htime Hnow.
  (* Finalize *)
  set (tagD := tagD_of network lnpk kind opts).
  set (tags1 := nostr.Event.Tags nev ++ [["d"; tagD]; ["k"; Itoa kind]]).
  set (nev1 := with_tags (with_kind nev KindLightningInformation) tags1).
  set (e1 := Event.mk nev1 kind true None).
  assert (Finalize (wrap nev) network lnpk kind opts = Ok e1) as Hfin.
  { unfold Finalize, wrap. simpl. by rewrite Hd, Hk. }
  pose proof (Finalize_tags _ _ _ _ _ _ Hfin) as (Hd1 & Hk1 & _).
  pose proof (Finalize_parse _ _ _ _ _ _ Hkind Hfin) as Hparse1.
  assert (nostr.Find tags1 "sig" = None) as Hsig1.
  { unfold tags1. rewrite Find_app, Hsig. reflexivity. }
  (* the Lightning signature *)
  destruct (Hlnsig (Hash e1)) as (sig & sbytes & pubKey & Hsign & Hdec & Hrec & Hhex).
  set (tags2 := if kind =? KindNodeAnnouncement then tags1 ++ [["sig"; sig]] else tags1).
  set (nev2 := with_tags nev1 tags2).
  assert ((if RequiresLnSignature e1
           then match signWithLn e1 with
                | Err err => Err (ErrWrap "signing with ln" err)
                | Ok ev1 => Ok ev1
                end
           else Ok e1) = Ok (Event.mk nev2 kind true None)) as Hln.
  { unfold RequiresLnSignature, nev2, tags2. simpl.
    destruct (kind =? KindNodeAnnouncement).
    - unfold signWithLn. simpl. fold tags1. rewrite Hsig1, Hsign. reflexivity.
    - unfold nev1, with_tags. simpl. reflexivity. }
  (* the identity signature *)
  destruct (Hnsig nev2) as (nsig & Hnsign & Hcheck).
  set (nev3 := signed_by pk nsig nev2) in *.
  set (e2 := Event.mk nev3 kind true None).
  assert (SignEvent e1 = Ok e2) as Hsigned.
  { unfold SignEvent. change (IsFinalized e1) with true. cbv iota. simpl negb. cbv iota.
    rewrite Hln. simpl. rewrite Hnsign. reflexivity. }
  exists e1, e2. split; [exact Hfin|]. split; [exact Hsigned|].
  split; [|done].
  (* Verify *)
  rewrite (Verify_first_failure _ _ Hnow).
  assert (ev_Tags e2 = tags2) as Htags2 by reflexivity.
  assert (nostr.Find tags2 "d" = nostr.Find tags1 "d"
          /\ nostr.Find tags2 "k" = nostr.Find tags1 "k") as [Hd2 Hk2].
  { unfold tags2. destruct (kind =? KindNodeAnnouncement); [|done].
    rewrite !Find_app. fold tags1 in Hd1, Hk1. unfold ev_Tags in Hd1, Hk1. simpl in Hd1, Hk1.
    by rewrite Hd1, Hk1. }
  assert (snd (GetIdentifier e2) = parseIdentifier tags1) as Hget2.
  { rewrite (GetIdentifier_uncached e2 eq_refl), Htags2.
    by apply parseIdentifier_ext. }
  change (parseIdentifier (ev_Tags e1)) with (parseIdentifier tags1) in Hparse1.
  rewrite Hparse1 in Hget2.
  assert (exists idx,
             snd (GetIdentifier e2) = Ok idx
             /\ Identifier.Kind idx = kind
             /\ (kind = KindNodeAnnouncement -> Identifier.PubKey idx = lnpk)
             /\ (kind <> KindNodeAnnouncement -> Identifier.Network idx = network))
    as (idx & Hidx & Hidx_kind & Hidx_pk & Hidx_net).
  { destruct (kind =? KindNodeAnnouncement) eqn:Hk0.
    - eexists. split; [exact Hget2|]. apply Z.eqb_neq in Hk0 || apply Z.eqb_eq in Hk0.
      repeat split; try done.
    - cbv zeta in Hget2. eexists. split; [exact Hget2|].
      apply Z.eqb_neq in Hk0. destruct (Hnet Hk0) as [Hvalid Hcolon].
      repeat split; try done. intros _. simpl.
      apply (nth_network (Itoa kind) lnpk network opts);
        [apply Itoa_no_colon | done | by apply IsValidNetwork_no_colon]. }
  clear Hget2.
  rewrite first_failure_all_pass; [done|].
  unfold verify_checks. repeat constructor.
  - unfold check_timestamp. change (ev_CreatedAt e2) with (nostr.Event.CreatedAt nev).
    by apply Z.leb_le in Htime as ->.
  - unfold check_id, GetID. simpl. by rewrite String.eqb_refl.
  - unfold check_content, content_length.
    change (nostr.Event.Content (Event.NostrEvent e2)) with (nostr.Event.Content nev).
    change MaxContentSize with 1048576 in Hsize. by apply Z.leb_le in Hsize as ->.
  - unfold check_identifier. by rewrite Hidx.
  - unfold check_network. rewrite Hidx, Hidx_kind.
    destruct (kind =? KindNodeAnnouncement) eqn:Hk0; [done|].
    apply Z.eqb_neq in Hk0. rewrite (Hidx_net Hk0).
    destruct (Hnet Hk0) as [-> _]. done.
  - unfold check_kind_tag. rewrite Hidx, Htags2, Hk2, Hidx_kind.
    fold tags1 in Hk1. unfold ev_Tags in Hk1. simpl in Hk1. rewrite Hk1.
    change (tag_value ["k"; Itoa kind]) with (Itoa kind).
    by rewrite String.eqb_refl.
  - unfold check_identity_sig. change (Event.NostrEvent e2) with nev3.
    by rewrite Hcheck.
  - unfold check_lightning_sig. change (Event.kind e2) with kind.
    destruct (kind =? KindNodeAnnouncement) eqn:Hk0; [|done].
    apply Z.eqb_eq in Hk0.
    rewrite Hidx, Htags2, (Hidx_pk Hk0). unfold tags2.
    rewrite FindAll_app, (FindAll_nil _ _ Hsig1). simpl.
    unfold lightning_sig_recovers. change (tag_value ["sig"; sig]) with sig.
    rewrite Hdec.
    assert (Hash e2 = Hash e1) as ->.
    { unfold Hash, GetID, copyWithoutSig, nostr.Serialize. simpl.
      unfold tags2. rewrite filter_not_sig_app. simpl. rewrite app_nil_r.
      by rewrite (Hpk Hk0). }
    rewrite Hrec, Hhex. by rewrite String.eqb_refl.
Qed.


Lemma Verify_fst (now : nostr.Timestamp) (e : Event.t) :
  Event.NostrEvent (fst (Verify now e)) = Event.NostrEvent e.
Proof.
  unfold Verify.
  destruct (_ <? nostr.Event.CreatedAt _); [done|].
  destruct (negb (String.eqb _ (GetID _))); [done|].
  destruct (MaxContentSize <? _); [done|].
  destruct (GetIdentifier_fst e) as (Hn & _ & _).
  destruct (GetIdentifier e) as [e1 [idx|err]]; simpl in Hn; [|done].
  destruct (_ && _); [done|]. destruct (kTagInvalid _ _); [done|].
  destruct (CheckSignature _) as [ok err]. destruct (_ || _); [done|].
  destruct (RequiresLnSignature e1); [|done].
  destruct (checkLightningSig _ _) as [ok' err']. by destruct (_ || _).
Qed.

End SignVerify.

Section PublishProofs.
Context `{NostrCrypto} `{LnCrypto} `{NostrSigner} `{LightningNode} `{RelayPool} `{Clock}.

(** What [NewClient] establishes: the client holds the key of its identity
    signer and the node information it was given names a valid network. *)
Lemma NewClient_Ok (c : Client.t) :
  NewClient = Ok c ->
  Signer_GetPublicKey = Ok (Client.pub c)
  /\ ln_GetNodeInfo = Ok (Client.info c)
  /\ IsValidNetwork (info_Network (Client.info c)) = true
  /\ Client.store c = NewMapStore.
Proof.
  unfold NewClient, Client_GetNodeInfo, checkNetwork.
  destruct Signer_GetPublicKey as [pk|]; [|done].
  destruct ln_GetNodeInfo as [info|]; [|done].
  destruct (IsValidNetwork (info_Network info)) eqn:Hnet; simpl; [|done].
  by intros [= <-].
Qed.

(** What [Publish] returns went through the whole chain. *)
Lemma Publish_Ok {A : Type} `{Marshal A} (c : Client.t) (step : nat) (data : A)
    (kind : Kind) (opts : list string) (nev : nostr.Event.t) :
  Publish c step data kind opts = Ok nev ->
  exists content e1 e2,
    json_Marshal data = Ok content
    /\ Finalize
         (wrap (nostr.Event.mk EmptyString (Client.pub c) (Now step) 0 [] content
                  EmptyString))
         (info_Network (Client.info c)) (info_PubKey (Client.info c)) kind opts = Ok e1
    /\ SignEvent e1 = Ok e2
    /\ snd (Verify (Now (S step)) e2) = (true, None)
    /\ nev = Event.NostrEvent e2.
Proof.
  unfold Publish. destruct (json_Marshal data) as [b|]; [|done].
  destruct (Finalize _ _ _ kind opts) as [e1|] eqn:Hf; [|done].
  destruct (SignEvent e1) as [ev2|] eqn:Hs; [|done].
  pose proof (Verify_fst (Now (S step)) ev2) as Hrec.
  destruct (Verify (Now (S step)) ev2) as [ev3 [ok err]] eqn:Hv.
  destruct ok; [|done]. destruct err; [done|]. cbn [negb is_nil orb].
  intros [= <-]. exists b, e1, ev2. by rewrite Hv.
Qed.

(** C8, amended: with an identity signer whose signatures verify and a
    Lightning node whose signatures recover its key, a fresh record (no "d",
    "k" or "sig" tag, content within the size limit, time stamp within the
    grace period, for a trust anchor the identity signer's key already written
    as its author, for any other kind a valid network and a colon-free
    Lightning key) goes through [Finalize] and [SignEvent] without error and
    [Verify] then answers valid. [Publish] on a client made by [NewClient],
    for a payload that marshals within the size limit, builds such a record
    with the client's key as author, takes it through [Finalize], [SignEvent]
    and [Verify], and returns the signed record that verified; and whatever
    the signers are, a record that [Publish] returns is one that went through
    these steps and that its [Verify] answered valid for. *)
Theorem sign_then_verify (pk lnpk : string) (kind : Kind) (opts : list string) :
  nostr_signer_valid pk -> ln_signer_valid lnpk -> in_int kind ->
  (kind <> KindNodeAnnouncement -> no_colon lnpk = true) ->
  (forall (nev : nostr.Event.t) (network : string) (now : nostr.Timestamp),
      nostr.Find (nostr.Event.Tags nev) "d" = None ->
      nostr.Find (nostr.Event.Tags nev) "k" = None ->
      nostr.Find (nostr.Event.Tags nev) "sig" = None ->
      (kind = KindNodeAnnouncement -> nostr.Event.PubKey nev = pk) ->
      (kind <> KindNodeAnnouncement -> IsValidNetwork network = true) ->
      Z.of_nat (String.length (nostr.Event.Content nev)) <= MaxContentSize ->
      nostr.Event.CreatedAt nev <= now + 600 -> in_int (now + 600) ->
      exists e1 e2,
        Finalize (wrap nev) network lnpk kind opts = Ok e1
        /\ SignEvent e1 = Ok e2
        /\ snd (Verify now e2) = (true, None))
  /\ (forall (A : Type) (M : Marshal A) (c0 : Client.t) (s : MapStore) (step : nat)
             (data : A) (content : string),
        NewClient = Ok c0 ->
        info_PubKey (Client.info c0) = lnpk ->
        json_Marshal data = Ok content ->
        Z.of_nat (String.length content) <= MaxContentSize ->
        Now step <= Now (S step) + 600 -> in_int (Now (S step) + 600) ->
        exists e1 e2,
          Finalize
            (wrap (nostr.Event.mk EmptyString pk (Now step) 0 [] content EmptyString))
            (info_Network (Client.info c0)) lnpk kind opts = Ok e1
          /\ SignEvent e1 = Ok e2
          /\ snd (Verify (Now (S step)) e2) = (true, None)
          /\ Publish (Client.mk s (Client.pub c0) (Client.info c0)) step data kind opts
             = Ok (Event.NostrEvent e2)
          /\ nostr.Event.PubKey (Event.NostrEvent e2) = pk
          /\ nostr.Event.CreatedAt (Event.NostrEvent e2) = Now step
          /\ nostr.Event.Content (Event.NostrEvent e2) = content)
  /\ (forall (A : Type) (M : Marshal A) (c : Client.t) (step : nat) (data : A)
             (nev : nostr.Event.t),
        Publish c step data kind opts = Ok nev ->
        exists content e1 e2,
          json_Marshal data = Ok content
          /\ Finalize
               (wrap (nostr.Event.mk EmptyString (Client.pub c) (Now step) 0 [] content
                        EmptyString))
               (info_Network (Client.info c)) (info_PubKey (Client.info c)) kind opts
             = Ok e1
          /\ SignEvent e1 = Ok e2
          /\ snd (Verify (Now (S step)) e2) = (true, None)
          /\ nev = Event.NostrEvent e2).
Proof.
  intros Hnsig Hlnsig Hkind Hcolon. split; [|split].
  - intros nev network now Hd Hk Hsig Hpk Hnet Hsize Htime Hnow.
    assert (kind <> KindNodeAnnouncement ->
            IsValidNetwork network = true /\ no_colon lnpk = true) as Hnetcolon.
    { intros Hk0. split; [by apply Hnet | by apply Hcolon]. }
    destruct (sign_then_verify_chain pk lnpk nev network kind opts now
                Hnsig Hlnsig Hkind Hd Hk Hsig Hpk Hnetcolon Hsize Htime Hnow)
      as (e1 & e2 & Hfin & Hsign & Hver & _).
    by exists e1, e2.
  - intros A M c0 s step data content Hnew Hinfo Hjson Hsize Htime Hnow.
    destruct (NewClient_Ok _ Hnew) as (Hpub & _ & Hnet & _).
    assert (Client.pub c0 = pk) as Hpk.
    { destruct Hnsig as [Hget _]. congruence. }
    unfold Publish. rewrite Hjson. cbn [Client.info Client.pub]. rewrite Hinfo, Hpk.
    assert (kind <> KindNodeAnnouncement ->
            IsValidNetwork (info_Network (Client.info c0)) = true /\ no_colon lnpk = true)
      as Hnetcolon.
    { intros Hk0. split; [done | by apply Hcolon]. }
    destruct (sign_then_verify_chain pk lnpk
                (nostr.Event.mk EmptyString pk (Now step) 0 [] content EmptyString)
                (info_Network (Client.info c0)) kind opts (Now (S step))
                Hnsig Hlnsig Hkind eq_refl eq_refl eq_refl (fun _ => eq_refl)
                Hnetcolon Hsize Htime Hnow)
      as (e1 & e2 & Hfin & Hsign & Hver & He2pk & He2t & He2c).
    exists e1, e2. rewrite Hfin, Hsign.
    pose proof (Verify_fst (Now (S step)) e2) as Hnev.
    destruct (Verify (Now (S step)) e2) as [ev3 [ok err]]. simpl in Hver, Hnev.
    injection Hver as -> ->. simpl. rewrite Hnev. done.
  - intros A M c step data nev. apply Publish_Ok.
Qed.

End PublishProofs.

Lemma demo_nostr_signer_valid :
  @nostr_signer_valid demo_NostrCrypto demo_NostrSigner "npub1".
Proof.
  split; [reflexivity|]. intros ev. exists ("schnorr/npub1/" +:+ nostr.Event.ID (demo_sign ev)).
  split; [reflexivity|]. unfold signed_by, demo_NostrCrypto, CheckSignature. simpl.
  by rewrite String.eqb_refl.
Qed.

Lemma demo_ln_signer_valid :
  @ln_signer_valid demo_LnCrypto demo_LightningNode "02node1".
Proof.
  intros msg. eexists _, _, _. repeat split.
  unfold RecoverCompact, DoubleHashB, demo_LnCrypto. by rewrite String.eqb_refl.
Qed.

(** C8 on the demo collaborators: the announcement of the node is published. *)
Lemma sign_then_verify_witness :
  @nostr_signer_valid demo_NostrCrypto demo_NostrSigner "npub1"
  /\ @ln_signer_valid demo_LnCrypto demo_LightningNode "02node1"
  /\ in_int KindNodeAnnouncement
  /\ exists e2,
       @Publish demo_NostrCrypto demo_LnCrypto demo_NostrSigner demo_LightningNode
         demo_Clock string demo_Marshal
         (Client.mk NewMapStore "npub1"
            {| info_PubKey := "02node1"; info_Network := "mainnet" |})
         0%nat "{}" KindNodeAnnouncement [] = Ok (Event.NostrEvent e2)
       /\ snd (@Verify demo_NostrCrypto demo_LnCrypto (@Now demo_Clock 1) e2) = (true, None)
       /\ nostr.Event.PubKey (Event.NostrEvent e2) = "npub1".
Proof.
  assert (in_int KindNodeAnnouncement) as Hk.
  { unfold in_int, int_min, int_max, KindNodeAnnouncement. lia. }
  split; [exact demo_nostr_signer_valid|]. split; [exact demo_ln_signer_valid|].
  split; [exact Hk|].
  destruct (@sign_then_verify demo_NostrCrypto demo_LnCrypto demo_NostrSigner
              demo_LightningNode demo_Clock
              "npub1" "02node1" KindNodeAnnouncement []
              demo_nostr_signer_valid demo_ln_signer_valid Hk) as (_ & Hpublish & _).
  - intros Hne. by destruct Hne.
  - destruct (Hpublish string demo_Marshal
                (Client.mk NewMapStore "npub1"
                   {| info_PubKey := "02node1"; info_Network := "mainnet" |})
                NewMapStore 0%nat "{}" "{}") as (e1 & e2 & _ & _ & Hv & Hpub & Hpk & _).
    + reflexivity.
    + reflexivity.
    + reflexivity.
    + vm_compute. discriminate.
    + vm_compute. discriminate.
    + unfold in_int, int_min, int_max. simpl. lia.
    + exists e2. split; [exact Hpub|]. split; [exact Hv | exact Hpk].
Defined.

(** C8, the claim as stated, fails for a trust anchor whose author is not yet
    the key of the identity signer when it is signed: the Lightning node
    signs the hash of the record as it is, the identity signer then writes
    its key into the record, and the key recovered from the Lightning
    signature over the new hash is no longer the node's. Both signers are
    valid here. *)
Lemma anchor_author_written_after_signing :
  ~ (forall (nc : NostrCrypto) (lc : LnCrypto) (ns : NostrSigner) (ln : LightningNode)
            (pk lnpk : string) (nev : nostr.Event.t) (network : string) (kind : Kind)
            (opts : list string) (now : nostr.Timestamp),
        nostr_signer_valid pk -> ln_signer_valid lnpk -> in_int kind ->
        nostr.Find (nostr.Event.Tags nev) "d" = None ->
        nostr.Find (nostr.Event.Tags nev) "k" = None ->
        nostr.Find (nostr.Event.Tags nev) "sig" = None ->
        (kind <> KindNodeAnnouncement ->
         IsValidNetwork network = true /\ no_colon lnpk = true) ->
        Z.of_nat (String.length (nostr.Event.Content nev)) <= MaxContentSize ->
        nostr.Event.CreatedAt nev <= now + 600 -> in_int (now + 600) ->
        exists e1 e2,
          Finalize (wrap nev) network lnpk kind opts = Ok e1
          /\ SignEvent e1 = Ok e2
          /\ snd (Verify now e2) = (true, None)).
Proof.
  intros Hclaim.
  destruct (Hclaim demo_NostrCrypto demo_LnCrypto demo_NostrSigner demo_LightningNode
              "npub1" "02node1" (plain_record "" 900 []) "mainnet" KindNodeAnnouncement
              [] 1000)
    as (e1 & e2 & Hf & Hs & Hv).
  - exact demo_nostr_signer_valid.
  - exact demo_ln_signer_valid.
  - unfold in_int, int_min, int_max, KindNodeAnnouncement. lia.
  - reflexivity.
  - reflexivity.
  - reflexivity.
  - intros Hne. by destruct Hne.
  - vm_compute. discriminate.
  - vm_compute. discriminate.
  - unfold in_int, int_min, int_max. lia.
  - vm_compute in Hf. injection Hf as <-.
    vm_compute in Hs. injection Hs as <-.
    vm_compute in Hv. discriminate.
Qed.

(** The same record with the author written first verifies; without, the
    key does not come out of the Lightning signature. *)
Example anchor_author_demo :
  let chain nev :=
    match Finalize (wrap nev) "mainnet" "02node1" KindNodeAnnouncement [] with
    | Ok e1 =>
        match @SignEvent demo_NostrCrypto demo_NostrSigner demo_LightningNode e1 with
        | Ok e2 => snd (@Verify demo_NostrCrypto demo_LnCrypto 1000 e2)
        | Err _ => (false, None)
        end
    | Err _ => (false, None)
    end in
  chain (plain_record "npub1" 900 []) = (true, None)
  /\ chain (plain_record "" 900 []) = (false, Some ErrRecoverPubKey).
Proof. vm_compute. split; reflexivity. Qed.

(** The record that the demo client publishes as its announcement. *)
Example Publish_demo_announcement :
  @Publish demo_NostrCrypto demo_LnCrypto demo_NostrSigner demo_LightningNode
    demo_Clock string demo_Marshal
    (Client.mk NewMapStore "npub1"
       {| info_PubKey := "02node1"; info_Network := "mainnet" |})
    0%nat "{}" KindNodeAnnouncement []
  = Ok (demo_record 1000
          [["d"; "02node1"]; ["k"; "0"];
           ["sig"; "node1/dh(Lightning Signed Message:npub1:1000:38171:{}:d:02node1:k:0)"]]).
Proof. vm_compute. reflexivity. Qed.

(** ** The sync pipeline *)

Lemma NewEventFromNostrRelay_Ok (r : nostr.Event.t) (lev : Event.t) :
  NewEventFromNostrRelay r = Ok lev ->
  exists id,
    parseIdentifier (nostr.Event.Tags r) = Ok id
    /\ lev = Event.mk r (Identifier.Kind id) true (Some id)
    /\ GetIdentifier lev = (lev, Ok id)
    /\ relay_event r = lev.
Proof.
  unfold relay_event, NewEventFromNostrRelay, GetIdentifier, wrap. simpl.
  destruct (parseIdentifier (nostr.Event.Tags r)) as [id|e]; [|done].
  simpl. intros [= <-]. exists id. done.
Qed.

Lemma NewEventFromNostrRelay_Err (r : nostr.Event.t) (e : Error) :
  NewEventFromNostrRelay r = Err e ->
  exists x, parseIdentifier (nostr.Event.Tags r) = Err x /\ MalformedTag x = true.
Proof.
  unfold NewEventFromNostrRelay, GetIdentifier, wrap. simpl.
  pose proof (parseIdentifier_spec (nostr.Event.Tags r)) as Hspec.
  destruct (parseIdentifier (nostr.Event.Tags r)) as [id|x]; [done|].
  intros _. exists x. by destruct Hspec.
Qed.

(** Events made of relay records are coherent: their kind is the one of the
    identifier, and the identifier of a trust anchor is the key itself while
    any other identifier is longer than the key inside it. *)
Lemma String_length_append (a b : string) :
  String.length (a +:+ b) = (String.length a + String.length b)%nat.
Proof. induction a as [|c a IH]; simpl; [done | by rewrite IH]. Qed.

Lemma Join_second_shorter (p0 p1 : string) (rest : list string) :
  (String.length p1 < String.length (Join (p0 :: p1 :: rest)))%nat.
Proof.
  change (Join (p0 :: p1 :: rest)) with (p0 +:+ ":" +:+ Join (p1 :: rest)).
  rewrite !String_length_append. simpl.
  destruct rest as [|p2 rest]; simpl; [lia|].
  rewrite !String_length_append. lia.
Qed.

Lemma parseIdentifier_shape (tags : nostr.Tags) (id : Identifier.t) :
  parseIdentifier tags = Ok id ->
  if Identifier.Kind id =? KindNodeAnnouncement
  then Identifier.TagD id = Identifier.PubKey id
  else Identifier.TagD id <> Identifier.PubKey id.
Proof.
  intros Hparse. pose proof (parseIdentifier_spec tags) as Hspec.
  rewrite Hparse in Hspec. destruct Hspec as (d & k & _ & _ & _ & HtagD & Hshape).
  destruct (Identifier.Kind id =? KindNodeAnnouncement).
  - destruct Hshape as (-> & _). done.
  - destruct Hshape as (kindInt & Hsplit). intros Heq.
    pose proof (Join_Split (tag_value d)) as Hjoin. rewrite Hsplit in Hjoin.
    pose proof (Join_second_shorter kindInt (Identifier.PubKey id)
                  (Identifier.Network id :: Identifier.Opts id)) as Hlen.
    rewrite Hjoin, <- HtagD, Heq in Hlen. lia.
Qed.

Lemma relay_event_coherent (r : nostr.Event.t) (lev : Event.t) :
  NewEventFromNostrRelay r = Ok lev -> kind_coherent lev = true /\ cache_coherent lev.
Proof.
  intros (id & Hparse & -> & Hget & _)%NewEventFromNostrRelay_Ok.
  unfold kind_coherent, cache_coherent, ev_Tags. rewrite Hget. simpl.
  split; [|done]. rewrite Z.eqb_refl. simpl.
  pose proof (parseIdentifier_shape _ _ Hparse) as Hshape.
  destruct (Identifier.Kind id =? KindNodeAnnouncement).
  - by apply String.eqb_eq.
  - by apply negb_true_iff, String.eqb_neq.
Qed.

Lemma finalized_event_coherent (nev : nostr.Event.t) (network pubkey : string)
    (kind : Kind) (opts : list string) (e : Event.t) :
  in_int kind ->
  Finalize (wrap nev) network pubkey kind opts = Ok e ->
  kind_coherent e = true /\ cache_coherent e.
Proof.
  intros Hkind Hfin.
  pose proof (Finalize_tags _ _ _ _ _ _ Hfin) as (_ & _ & Hk & _ & Hid).
  pose proof (Finalize_parse _ _ _ _ _ _ Hkind Hfin) as Hparse.
  assert (cache_coherent e) as Hcoh by by apply GetIdentifier_uncached.
  split; [|done]. unfold kind_coherent. rewrite Hcoh.
  pose proof (parseIdentifier_shape (ev_Tags e)) as Hshape.
  rewrite Hparse in *.
  destruct (kind =? KindNodeAnnouncement) eqn:Hk0.
  - simpl. rewrite Hk, Hk0, Z.eqb_refl, String.eqb_refl. done.
  - cbv zeta in *. specialize (Hshape _ eq_refl). simpl in *.
    rewrite Hk0 in *. rewrite Hk, Z.eqb_refl. simpl.
    by apply negb_true_iff, String.eqb_neq.
Qed.

Section PipelineProofs.
Context `{NostrCrypto} `{LnCrypto} `{RelayPool} `{Clock}.

Lemma Verify_fst_cached (now : nostr.Timestamp) (e : Event.t) (i : Identifier.t) :
  Event.id e = Some i -> fst (Verify now e) = e.
Proof.
  intros Hid. unfold Verify, GetIdentifier. rewrite Hid.
  repeat match goal with
         | |- context [if ?b then _ else _] => destruct b; [done|]
         end.
  destruct (CheckSignature _) as [ok err].
  destruct (_ || _); [done|]. destruct (RequiresLnSignature e); [|done].
  destruct (checkLightningSig _ _) as [ok' err']. by destruct (_ || _).
Qed.

(** One record of a pass: it fails to parse, or fails to verify, or is
    refused by the store, each time with exactly one warning, or it is stored
    without warning; the store changes only in the last two cases. *)
Lemma processEvent_cases (now : nostr.Timestamp) (s : MapStore) (r : nostr.Event.t) :
  (exists e, NewEventFromNostrRelay r = Err e
             /\ processEvent now s r = (s, [ErrWrap "creating event from nostr relay" e]))
  \/ (exists lev w, NewEventFromNostrRelay r = Ok lev
                    /\ snd (Verify now lev) <> (true, None)
                    /\ processEvent now s r = (s, [ErrWrap "invalid event" w]))
  \/ (exists lev e, NewEventFromNostrRelay r = Ok lev
                    /\ snd (Verify now lev) = (true, None)
                    /\ snd (StoreEvent s lev) = Some e
                    /\ processEvent now s r
                       = (fst (StoreEvent s lev), [ErrWrap "storing event failed" e]))
  \/ (exists lev, NewEventFromNostrRelay r = Ok lev
                  /\ snd (Verify now lev) = (true, None)
                  /\ snd (StoreEvent s lev) = None
                  /\ processEvent now s r = (fst (StoreEvent s lev), [])).
Proof.
  unfold processEvent.
  destruct (NewEventFromNostrRelay r) as [lev|e] eqn:Hnew; [|left; eauto].
  right. destruct (NewEventFromNostrRelay_Ok _ _ Hnew) as (id & _ & Hlev & _ & _).
  assert (Event.id lev = Some id) as Hid by by subst lev.
  pose proof (Verify_fst_cached now lev id Hid) as Hfst.
  destruct (Verify now lev) as [lev1 [ok err]] eqn:Hv. simpl in Hfst. subst lev1.
  destruct ok, err as [x|]; simpl.
  - left. exists lev, x. rewrite Hv. done.
  - right. destruct (StoreEvent s lev) as [s1 [e|]] eqn:Hst; [left | right].
    + exists lev, e. rewrite Hv, Hst. done.
    + exists lev. rewrite Hv, Hst. done.
  - left. exists lev, x. rewrite Hv. done.
  - left. exists lev, (ErrExternal "<nil>"). rewrite Hv. done.
Qed.

Lemma rangeEvents_never_cancelled (step : nat) (s : MapStore)
    (recs : list nostr.Event.t) (acc : list Error) :
  rangeEvents None step s recs acc =
  ((step + length recs)%nat, fst (run step s recs), acc ++ snd (run step s recs)).
Proof.
  revert step s acc. induction recs as [|r recs IH]; intros step s acc; simpl.
  - by rewrite Nat.add_0_r, app_nil_r.
  - destruct (processEvent (Now step) s r) as [s1 w]. rewrite IH.
    destruct (run (S step) s1 recs) as [s2 ws]. simpl.
    by rewrite Nat.add_succ_r, app_assoc.
Qed.

Lemma syncStoreWithPool_never_cancelled (step : nat) (s : MapStore)
    (urls : list string) (f : Filter) :
  syncStoreWithPool None step s urls f =
  ((step + length (FetchManyReplaceable urls f))%nat,
   fst (run step s (FetchManyReplaceable urls f)), None,
   snd (run step s (FetchManyReplaceable urls f))).
Proof.
  unfold syncStoreWithPool. by rewrite rangeEvents_never_cancelled.
Qed.

Lemma run_app (step : nat) (s : MapStore) (l1 l2 : list nostr.Event.t) :
  run step s (l1 ++ l2) =
  (fst (run (step + length l1) (fst (run step s l1)) l2),
   snd (run step s l1) ++ snd (run (step + length l1) (fst (run step s l1)) l2)).
Proof.
  revert step s. induction l1 as [|r l1 IH]; intros step s; simpl.
  - rewrite Nat.add_0_r. by destruct (run step s l2).
  - destruct (processEvent (Now step) s r) as [s1 w]. rewrite IH.
    destruct (run (S step) s1 l1) as [s2 ws]. simpl.
    by rewrite Nat.add_succ_r, app_assoc.
Qed.


End PipelineProofs.

(** What is stored stays, unless displaced. *)
Lemma StoreEvent_ok_slot (s : MapStore) (ev ev1 : Event.t) (id : Identifier.t) :
  GetIdentifier ev = (ev1, Ok id) ->
  snd (StoreEvent s ev) = None ->
  events (node_of (fst (StoreEvent s ev)) (Identifier.PubKey id)) !! Identifier.TagD id
  = Some ev1.
Proof.
  intros Hg. rewrite (StoreEvent_branch _ _ _ _ Hg). simpl.
  destruct s as [m]. rewrite node_of_insert, decide_True by done.
  unfold store_branch. destruct (Event.kind ev1 =? KindNodeAnnouncement).
  - destruct (registerAnnouncement _ ev1 id) as [ns1 [e|]] eqn:Hr; [done|].
    apply registerAnnouncement_ok in Hr as (_ & ->). intros _. simpl.
    apply lookup_insert_eq.
  - destruct (storeRegularEvent _ ev1 id) as [ns1 [e|]] eqn:Hs; [done|].
    apply storeRegularEvent_ok in Hs as (_ & _ & ->). intros _. simpl.
    apply lookup_insert_eq.
Qed.



Section PartialSuccess.
Context `{NostrCrypto} `{LnCrypto} `{RelayPool} `{Clock}.







End PartialSuccess.

(** C2, amended: a trust anchor is accepted only above the time stamp of the
    current announcement, and of two trust anchors of one node with equal
    time stamps the second is stale and leaves the store untouched; a record
    that is not a trust anchor replaces the entry of its slot only when
    strictly newer, and is stale otherwise; along every run the accepted
    announcement time stamps of a node increase strictly. The time stamps
    accepted into a slot increase strictly along a run of events whose kind
    agrees with their identifier, as [NewEventFromNostrRelay] and [Finalize]
    build them, from a store whose slot under the node's own key holds
    nothing newer than the announcement (the empty store, and every store
    that such events lead to), as long as the run accepts no trust anchor
    that changes the identity bound to the node (such an anchor discards the
    slots, which start afresh). An event whose kind is the trust-anchor kind
    is taken on the time stamp of the announcement alone and written to the
    slot that its identifier names, whatever that slot held. *)
Theorem StoreEvent_monotone :
  (forall (s s1 : MapStore) (ev : Event.t) (id : Identifier.t),
      Event.kind ev = KindNodeAnnouncement ->
      snd (GetIdentifier ev) = Ok id ->
      StoreEvent s ev = (s1, None) ->
      createdAt (lastAnnouncement (node_of s (Identifier.PubKey id))) < ev_CreatedAt ev
      /\ lastAnnouncement (node_of s1 (Identifier.PubKey id))
         = {| createdAt := ev_CreatedAt ev; pub := ev_PubKey ev |})
  /\ (forall (s : MapStore) (ev ev' : Event.t) (id id' : Identifier.t),
        Event.kind ev = KindNodeAnnouncement -> Event.kind ev' = KindNodeAnnouncement ->
        snd (GetIdentifier ev) = Ok id -> snd (GetIdentifier ev') = Ok id' ->
        Identifier.PubKey id = Identifier.PubKey id' ->
        ev_CreatedAt ev = ev_CreatedAt ev' ->
        StoreEvent (fst (StoreEvent s ev)) ev' =
        (fst (StoreEvent s ev),
         Some (ErrStaleAnnouncement
                 (createdAt (lastAnnouncement
                               (node_of (fst (StoreEvent s ev)) (Identifier.PubKey id))))
                 (ev_CreatedAt ev'))))
  /\ (forall (s s1 : MapStore) (ev : Event.t) (id : Identifier.t) (old : Event.t),
        Event.kind ev <> KindNodeAnnouncement ->
        snd (GetIdentifier ev) = Ok id ->
        events (node_of s (Identifier.PubKey id)) !! Identifier.TagD id = Some old ->
        (StoreEvent s ev = (s1, None) -> ev_CreatedAt old < ev_CreatedAt ev)
        /\ (ev_PubKey ev = pub (lastAnnouncement (node_of s (Identifier.PubKey id))) ->
            ev_CreatedAt ev <= ev_CreatedAt old ->
            StoreEvent s ev = (s, Some (ErrStaleRecord (ev_CreatedAt old) (ev_CreatedAt ev)))))
  /\ (forall (P : string) (s : MapStore) (evs : list Event.t),
        StronglySorted Z.lt (announcement_history P s evs))
  /\ (forall (P X : string) (s : MapStore) (evs : list Event.t),
        anchor_slot_ok s P = true ->
        forallb kind_coherent evs = true ->
        purges P s evs = false ->
        StronglySorted Z.lt (slot_history P X s evs)
        /\ forall old, events (node_of s P) !! X = Some old ->
                       Forall (fun t => ev_CreatedAt old < t) (slot_history P X s evs))
  /\ (forall (P : string),
        anchor_slot_ok NewMapStore P = true
        /\ forall (s : MapStore) (ev : Event.t),
             anchor_slot_ok s P = true -> kind_coherent ev = true ->
             anchor_slot_ok (fst (StoreEvent s ev)) P = true)
  /\ (forall (r : nostr.Event.t) (lev : Event.t),
        NewEventFromNostrRelay r = Ok lev -> kind_coherent lev = true)
  /\ (forall (nev : nostr.Event.t) (network pubkey : string) (kind : Kind)
             (opts : list string) (e : Event.t),
        in_int kind ->
        Finalize (wrap nev) network pubkey kind opts = Ok e -> kind_coherent e = true)
  /\ (forall (s : MapStore) (ev ev1 : Event.t) (id : Identifier.t),
        GetIdentifier ev = (ev1, Ok id) ->
        Event.kind ev = KindNodeAnnouncement ->
        createdAt (lastAnnouncement (node_of s (Identifier.PubKey id))) < ev_CreatedAt ev ->
        snd (StoreEvent s ev) = None
        /\ events (node_of (fst (StoreEvent s ev)) (Identifier.PubKey id))
             !! Identifier.TagD id = Some ev1).
Proof.
  split; [|split; [|split; [|split; [|split; [|split; [|split; [|split]]]]]]]; cycle 8.
  { intros s ev ev1 id Hg Hkind Hnewer.
    assert (snd (StoreEvent s ev) = None) as Hok
        by (by apply (StoreEvent_anchor_iff s ev ev1 id Hg Hkind)).
    split; [exact Hok|]. by apply StoreEvent_ok_slot. }
  - intros s s1 ev id Hk Hget Hstore.
    destruct (StoreEvent_announcement_step s (Identifier.PubKey id) ev) as [Hacc _].
    rewrite Hstore in Hacc. simpl in Hacc. apply Hacc.
    apply is_anchor_for_true. split; [done|]. by exists id.
  - apply equal_announcements_stale.
  - intros s s1 ev id old Hk Hget Hold.
    destruct (GetIdentifier ev) as [ev1 r] eqn:Hg. simpl in Hget. subst r.
    destruct (GetIdentifier_pair _ _ _ Hg) as (_ & Hk1 & Hc1 & Hp1).
    rewrite (StoreEvent_branch _ _ _ _ Hg).
    unfold store_branch. rewrite Hk1. apply Z.eqb_neq in Hk. rewrite Hk.
    split.
    + destruct (storeRegularEvent _ ev1 id) as [ns1 e] eqn:Hs. simpl.
      intros [= _ ->]. apply storeRegularEvent_ok in Hs as (_ & Hnewer & _).
      rewrite <- Hc1. by apply Hnewer.
    + intros Hpub Hle. unfold storeRegularEvent. rewrite Hp1, Hpub, String.eqb_refl.
      simpl. rewrite Hold, Hc1.
      assert ((ev_CreatedAt old >=? ev_CreatedAt ev) = true) as ->.
      { rewrite Z.geb_leb. by apply Z.leb_le. }
      simpl. f_equal. destruct s as [m]. f_equal. apply insert_id.
      unfold node_of in *. simpl in *.
      destruct (m !! Identifier.PubKey id); [done|].
      simpl in Hold. by rewrite lookup_empty in Hold.
  - intros P s evs. apply announcement_history_sorted.
  - intros P X s evs Hok Hcoh Hpurge. by apply slot_history_sorted.
  - intros P. split; [done|]. intros s ev. apply StoreEvent_anchor_slot.
  - intros r lev Hlev. by apply (relay_event_coherent r lev).
  - intros nev network pubkey kind opts e Hkind Hf.
    by apply (finalized_event_coherent nev network pubkey kind opts e).
Qed.

(** C2 on a run without change of identity, from the store that holds the
    announcement of A: a node-info record of A, a later announcement of A and
    a later node-info record of A. *)
Lemma StoreEvent_monotone_witness :
  let s := StoreAll NewMapStore (firstn 1 rotation_run) in
  let evs :=
    [ relay_event (plain_record "A" 500 [["d"; "1:P:mainnet"]; ["k"; "1"]]);
      relay_event (plain_record "A" 40 [["d"; "P"]; ["k"; "0"]]);
      relay_event (plain_record "A" 600 [["d"; "1:P:mainnet"]; ["k"; "1"]]) ] in
  anchor_slot_ok s "P" = true
  /\ forallb kind_coherent evs = true
  /\ purges "P" s evs = false
  /\ slot_history "P" "1:P:mainnet" s evs = [500; 600]
  /\ StronglySorted Z.lt (slot_history "P" "1:P:mainnet" s evs).
Proof.
  cbv zeta. split; [vm_compute; reflexivity|]. split; [vm_compute; reflexivity|].
  split; [vm_compute; reflexivity|]. split; [vm_compute; reflexivity|].
  destruct StoreEvent_monotone as (_ & _ & _ & _ & Hslots & _).
  apply Hslots; vm_compute; reflexivity.
Defined.

Section FetchAndMerge.
Context `{NostrCrypto} `{LnCrypto} `{RelayPool} `{Clock}.



End FetchAndMerge.


(** What the demo client gets back: the four other records, one warning. *)
Example GetEvents_demo_batch :
  let res := snd (@Client_GetEvents demo_NostrCrypto demo_LnCrypto demo_RelayPool
                    demo_Clock demo_client None 0%nat KindNodeInfo ∅ [] 0) in
  snd res = [ErrWrap "invalid event" (ErrExternal "<nil>")]
  /\ snd (fst res) = None
  /\ List.map (fun e => tag_value (nth 0 (ev_Tags e) [])) (fst (fst res))
     = ["1:P3:mainnet"; "1:P1:mainnet"; "1:P2:mainnet"; "1:P4:mainnet"].
Proof. vm_compute. repeat split. Qed.

(** And what the store of that client holds afterwards: the four records,
    next to the four announcements it held before. *)
Example GetEvents_demo_store :
  let c1 := fst (@Client_GetEvents demo_NostrCrypto demo_LnCrypto demo_RelayPool
                   demo_Clock demo_client None 0%nat KindNodeInfo ∅ [] 0) in
  length (MapStore_GetEvents (Client.store c1) KindNodeInfo ∅) = 4%nat
  /\ length (MapStore_GetEvents (Client.store c1) KindNodeAnnouncement ∅) = 4%nat
  /\ records (Client.store c1) !! "P5" = None.
Proof. vm_compute. repeat split. Qed.

(** * Further properties of the package *)

(** ** The trust store: nodes, slots, lookups *)

Lemma GetIdentifier_idem (e e1 : Event.t) (id : Identifier.t) :
  GetIdentifier e = (e1, Ok id) -> GetIdentifier e1 = (e1, Ok id).
Proof.
  unfold GetIdentifier. destruct (Event.id e) as [i|] eqn:Hid.
  - intros [= <- <-]. by rewrite Hid.
  - destruct (parseIdentifier _); [|done]. by intros [= <- <-].
Qed.

Lemma GetIdentifier_failed (e e1 : Event.t) (err : Error) :
  GetIdentifier e = (e1, Err err) -> e1 = e.
Proof.
  unfold GetIdentifier. destruct (Event.id e); [done|].
  destruct (parseIdentifier _); [done|]. by intros [= <- _].
Qed.

(** X1: a call of [StoreEvent] touches the node its event addresses and no
    other: the entry of every other Lightning key is what it was, and an
    event without identifier touches nothing. *)
Theorem StoreEvent_frame (s : MapStore) (ev : Event.t) (Q : string) :
  (forall id, snd (GetIdentifier ev) = Ok id -> Identifier.PubKey id <> Q) ->
  records (fst (StoreEvent s ev)) !! Q = records s !! Q.
Proof.
  intros Hother. destruct (GetIdentifier ev) as [ev1 [id|err]] eqn:Hg.
  - rewrite (StoreEvent_branch _ _ _ _ Hg). simpl.
    apply lookup_insert_ne. by apply Hother.
  - by rewrite (StoreEvent_parse_error _ _ _ _ Hg).
Qed.

Lemma StoreEvent_frame_witness :
  (forall id,
      snd (GetIdentifier (relay_event (plain_record "B" 20 [["d"; "P"]; ["k"; "0"]]))) = Ok id ->
      Identifier.PubKey id <> "Q")
  /\ records (fst (StoreEvent (StoreAll NewMapStore (firstn 2 rotation_run))
                     (relay_event (plain_record "B" 20 [["d"; "P"]; ["k"; "0"]])))) !! "Q"
     = records (StoreAll NewMapStore (firstn 2 rotation_run)) !! "Q".
Proof.
  assert (forall id,
             snd (GetIdentifier (relay_event (plain_record "B" 20 [["d"; "P"]; ["k"; "0"]])))
             = Ok id -> Identifier.PubKey id <> "Q") as Hother.
  { intros id [= <-]. discriminate. }
  split; [exact Hother|].
  apply (StoreEvent_frame _ _ "Q" Hother).
Defined.

(** X2: on a Lightning key the store has not seen, a trust anchor is accepted
    exactly when its time stamp is positive, and any other record exactly
    when its author key is the empty string (the empty state binds no
    identity); either way the key is known afterwards. *)
Theorem StoreEvent_unknown_node (s : MapStore) (ev ev1 : Event.t) (id : Identifier.t) :
  GetIdentifier ev = (ev1, Ok id) ->
  records s !! Identifier.PubKey id = None ->
  (Event.kind ev = KindNodeAnnouncement ->
   (snd (StoreEvent s ev) = None <-> 0 < ev_CreatedAt ev))
  /\ (Event.kind ev <> KindNodeAnnouncement ->
      (snd (StoreEvent s ev) = None <-> ev_PubKey ev = EmptyString))
  /\ is_Some (records (fst (StoreEvent s ev)) !! Identifier.PubKey id).
Proof.
  intros Hg Hnew.
  destruct (GetIdentifier_pair _ _ _ Hg) as (_ & Hk & Hc & Hp).
  rewrite (StoreEvent_branch _ _ _ _ Hg). simpl.
  assert (node_of s (Identifier.PubKey id) = newNodeState) as ->.
  { unfold node_of. by rewrite Hnew. }
  unfold store_branch. rewrite Hk. split; [|split].
  - intros Hkind. rewrite Hkind. simpl. unfold registerAnnouncement. simpl.
    rewrite Hc, Z.geb_leb.
    destruct (ev_CreatedAt ev <=? 0) eqn:Hle; simpl.
    + apply Z.leb_le in Hle. split; [done | lia].
    + apply Z.leb_gt in Hle. done.
  - intros Hkind. apply Z.eqb_neq in Hkind. rewrite Hkind.
    unfold storeRegularEvent. simpl. rewrite Hp, lookup_empty.
    destruct (ev_PubKey ev); simpl; done.
  - rewrite lookup_insert_eq. eauto.
Qed.

Lemma StoreEvent_unknown_node_witness :
  GetIdentifier (relay_event (plain_record "" 5 [["d"; "1:P:mainnet"]; ["k"; "1"]]))
  = (relay_event (plain_record "" 5 [["d"; "1:P:mainnet"]; ["k"; "1"]]),
     Ok (Identifier.mk "1:P:mainnet" "mainnet" "P" 1 []))
  /\ records NewMapStore !! "P" = None
  /\ snd (StoreEvent NewMapStore
            (relay_event (plain_record "" 5 [["d"; "1:P:mainnet"]; ["k"; "1"]]))) = None.
Proof.
  split; [reflexivity|]. split; [reflexivity|].
  destruct (StoreEvent_unknown_node NewMapStore
              (relay_event (plain_record "" 5 [["d"; "1:P:mainnet"]; ["k"; "1"]]))
              (relay_event (plain_record "" 5 [["d"; "1:P:mainnet"]; ["k"; "1"]]))
              (Identifier.mk "1:P:mainnet" "mainnet" "P" 1 []) eq_refl eq_refl)
    as (_ & Hregular & _).
  apply Hregular; [vm_compute; discriminate | reflexivity].
Defined.

(** X3: a trust anchor accepted from the identity that is already bound keeps
    every slot of the node and replaces only the slot of the announcement. *)
Theorem reannouncement_keeps_slots (s s1 : MapStore) (ev ev1 : Event.t)
    (id : Identifier.t) :
  GetIdentifier ev = (ev1, Ok id) ->
  Event.kind ev = KindNodeAnnouncement ->
  StoreEvent s ev = (s1, None) ->
  ev_PubKey ev = pub (lastAnnouncement (node_of s (Identifier.PubKey id))) ->
  events (node_of s1 (Identifier.PubKey id))
  = <[Identifier.TagD id := ev1]> (events (node_of s (Identifier.PubKey id)))
  /\ forall X, X <> Identifier.TagD id ->
       events (node_of s1 (Identifier.PubKey id)) !! X
       = events (node_of s (Identifier.PubKey id)) !! X.
Proof.
  intros Hg Hkind Hstore Hpub.
  destruct (GetIdentifier_pair _ _ _ Hg) as (_ & Hk & Hc & Hp).
  rewrite (StoreEvent_branch _ _ _ _ Hg) in Hstore. injection Hstore as <- Herr.
  destruct s as [m]. rewrite node_of_insert, decide_True by done.
  revert Herr. unfold store_branch. rewrite Hk, Hkind. simpl.
  destruct (registerAnnouncement _ ev1 id) as [ns1 e] eqn:Hr. simpl. intros ->.
  apply registerAnnouncement_ok in Hr as (_ & ->). simpl.
  rewrite Hp, Hpub, String.eqb_refl. simpl.
  split; [done|]. intros X HX. by rewrite lookup_insert_ne.
Qed.

Lemma reannouncement_keeps_slots_witness :
  StoreEvent (StoreAll NewMapStore (firstn 2 rotation_run))
    (relay_event (plain_record "A" 40 [["d"; "P"]; ["k"; "0"]]))
  = (fst (StoreEvent (StoreAll NewMapStore (firstn 2 rotation_run))
            (relay_event (plain_record "A" 40 [["d"; "P"]; ["k"; "0"]]))), None)
  /\ events (node_of (fst (StoreEvent (StoreAll NewMapStore (firstn 2 rotation_run))
                             (relay_event (plain_record "A" 40 [["d"; "P"]; ["k"; "0"]]))))
               "P") !! "1:P:mainnet"
     = events (node_of (StoreAll NewMapStore (firstn 2 rotation_run)) "P") !! "1:P:mainnet".
Proof.
  assert (StoreEvent (StoreAll NewMapStore (firstn 2 rotation_run))
            (relay_event (plain_record "A" 40 [["d"; "P"]; ["k"; "0"]]))
          = (fst (StoreEvent (StoreAll NewMapStore (firstn 2 rotation_run))
                    (relay_event (plain_record "A" 40 [["d"; "P"]; ["k"; "0"]]))), None))
    as Hstore.
  { vm_compute. reflexivity. }
  split; [exact Hstore|].
  destruct (reannouncement_keeps_slots _ _
              (relay_event (plain_record "A" 40 [["d"; "P"]; ["k"; "0"]]))
              (relay_event (plain_record "A" 40 [["d"; "P"]; ["k"; "0"]]))
              (Identifier.mk "P" "" "P" 0 []) eq_refl eq_refl Hstore eq_refl)
    as [_ Hother].
  apply (Hother "1:P:mainnet"). discriminate.
Defined.

Lemma MapStore_GetEvents_iff (s : MapStore) (kind : Kind) (pubkeys : gset string)
    (e : Event.t) :
  In e (MapStore_GetEvents s kind pubkeys) <->
  exists P ns X,
    records s !! P = Some ns /\ events ns !! X = Some e
    /\ Event.kind e = kind /\ filter_admits pubkeys P.
Proof.
  assert (forall P, newInFilter pubkeys P = true <-> filter_admits pubkeys P) as Hfilter.
  { intros P. unfold newInFilter, filter_admits. case_decide as Hsize.
    - split; [by left | done].
    - rewrite bool_decide_eq_true. split; [by right | by intros [?|?]]. }
  unfold MapStore_GetEvents. rewrite in_flat_map. split.
  - intros (ns & Hns & He).
    apply in_map_iff in Hns as ([P ns'] & Hsnd & HP). simpl in Hsnd. subst ns'.
    apply List.filter_In in HP as [HP Hadm]. simpl in Hadm.
    apply list_elem_of_In, elem_of_map_to_list in HP.
    apply List.filter_In in He as [He Hkind]. apply Z.eqb_eq in Hkind.
    apply in_map_iff in He as ([X e'] & Hsnd & HX). simpl in Hsnd. subst e'.
    apply list_elem_of_In, elem_of_map_to_list in HX.
    exists P, ns, X. repeat split; try done. by apply Hfilter.
  - intros (P & ns & X & HP & HX & Hkind & Hadm).
    exists ns. split.
    + apply in_map_iff. exists (P, ns). split; [done|].
      apply List.filter_In. split; [|by apply Hfilter].
      by apply list_elem_of_In, elem_of_map_to_list.
    + apply List.filter_In. split; [|by apply Z.eqb_eq].
      apply in_map_iff. exists (X, e). split; [done|].
      by apply list_elem_of_In, elem_of_map_to_list.
Qed.

(** X4: [MapStore.GetEvents] returns exactly the events held in a slot of a node
    that the key filter admits (every node when the filter is empty) and
    whose kind is the requested one; never an event of another kind or of a
    node outside a non-empty filter. *)
Theorem MapStore_GetEvents_spec (s : MapStore) (kind : Kind) (pubkeys : gset string)
    (e : Event.t) :
  In e (MapStore_GetEvents s kind pubkeys) <->
  exists P ns X,
    records s !! P = Some ns /\ events ns !! X = Some e
    /\ Event.kind e = kind /\ filter_admits pubkeys P.
Proof. apply MapStore_GetEvents_iff. Qed.

(** X5: store, then look up: an accepted event is among the events returned for
    its kind under every key filter that admits its node. *)
Theorem StoreEvent_then_GetEvents (s : MapStore) (ev ev1 : Event.t)
    (id : Identifier.t) (pubkeys : gset string) :
  GetIdentifier ev = (ev1, Ok id) ->
  snd (StoreEvent s ev) = None ->
  filter_admits pubkeys (Identifier.PubKey id) ->
  In ev1 (MapStore_GetEvents (fst (StoreEvent s ev)) (Event.kind ev) pubkeys).
Proof.
  intros Hg Hok Hadm.
  destruct (GetIdentifier_pair _ _ _ Hg) as (_ & Hk & _ & _).
  pose proof (StoreEvent_ok_slot s ev ev1 id Hg Hok) as Hslot.
  apply MapStore_GetEvents_iff.
  unfold node_of in Hslot.
  destruct (records (fst (StoreEvent s ev)) !! Identifier.PubKey id) as [ns|] eqn:Hns;
    simpl in Hslot; [|by rewrite lookup_empty in Hslot].
  exists (Identifier.PubKey id), ns, (Identifier.TagD id). done.
Qed.

Lemma StoreEvent_then_GetEvents_witness :
  GetIdentifier (relay_event (plain_record "A" 10 [["d"; "P"]; ["k"; "0"]]))
  = (relay_event (plain_record "A" 10 [["d"; "P"]; ["k"; "0"]]),
     Ok (Identifier.mk "P" "" "P" 0 []))
  /\ snd (StoreEvent NewMapStore
            (relay_event (plain_record "A" 10 [["d"; "P"]; ["k"; "0"]]))) = None
  /\ In (relay_event (plain_record "A" 10 [["d"; "P"]; ["k"; "0"]]))
       (MapStore_GetEvents
          (fst (StoreEvent NewMapStore
                  (relay_event (plain_record "A" 10 [["d"; "P"]; ["k"; "0"]]))))
          KindNodeAnnouncement {[ "P" ]}).
Proof.
  split; [reflexivity|]. split; [vm_compute; reflexivity|].
  apply (StoreEvent_then_GetEvents NewMapStore
           (relay_event (plain_record "A" 10 [["d"; "P"]; ["k"; "0"]]))
           (relay_event (plain_record "A" 10 [["d"; "P"]; ["k"; "0"]]))
           (Identifier.mk "P" "" "P" 0 []) {[ "P" ]} eq_refl).
  - vm_compute. reflexivity.
  - right. set_solver.
Defined.

(** ** Order of arrival *)

(** The slots after [storeRegularEvent]. *)
Lemma storeRegularEvent_events (ns : nodeState) (ev : Event.t) (id : Identifier.t) :
  lastAnnouncement (fst (storeRegularEvent ns ev id)) = lastAnnouncement ns
  /\ events (fst (storeRegularEvent ns ev id)) =
     if String.eqb (pub (lastAnnouncement ns)) (ev_PubKey ev)
     then match events ns !! Identifier.TagD id with
          | Some old =>
              if ev_CreatedAt old <? ev_CreatedAt ev
              then <[Identifier.TagD id := ev]> (events ns) else events ns
          | None => <[Identifier.TagD id := ev]> (events ns)
          end
     else events ns.
Proof.
  unfold storeRegularEvent.
  destruct (String.eqb (pub (lastAnnouncement ns)) (ev_PubKey ev)); simpl; [|done].
  destruct (events ns !! Identifier.TagD id) as [old|]; [|done].
  rewrite Z.geb_leb, Z.ltb_antisym.
  by destruct (ev_CreatedAt ev <=? ev_CreatedAt old).
Qed.

Lemma nodeState_eq (a b : nodeState) :
  lastAnnouncement a = lastAnnouncement b -> events a = events b -> a = b.
Proof. destruct a, b. simpl. by intros -> ->. Qed.

(** Two records that are not trust anchors, applied to one node in either
    order, leave the same node, unless they compete for one slot with equal
    time stamps. *)
Lemma storeRegularEvent_commute (ns : nodeState) (e1 e2 : Event.t)
    (i j : Identifier.t) :
  (Identifier.TagD i = Identifier.TagD j -> ev_CreatedAt e1 <> ev_CreatedAt e2) ->
  fst (storeRegularEvent (fst (storeRegularEvent ns e1 i)) e2 j)
  = fst (storeRegularEvent (fst (storeRegularEvent ns e2 j)) e1 i).
Proof.
  intros Hslot.
  destruct (storeRegularEvent_events ns e1 i) as [Ha1 He1].
  destruct (storeRegularEvent_events ns e2 j) as [Ha2 He2].
  destruct (storeRegularEvent_events (fst (storeRegularEvent ns e1 i)) e2 j) as [Ha12 He12].
  destruct (storeRegularEvent_events (fst (storeRegularEvent ns e2 j)) e1 i) as [Ha21 He21].
  apply nodeState_eq; [congruence|].
  rewrite He12, He21, Ha1, Ha2, He1, He2.
  clear Ha1 Ha2 Ha12 Ha21 He1 He2 He12 He21.
  set (X1 := Identifier.TagD i) in *. set (X2 := Identifier.TagD j) in *.
  set (m := events ns). set (t1 := ev_CreatedAt e1) in *. set (t2 := ev_CreatedAt e2) in *.
  destruct (String.eqb (pub (lastAnnouncement ns)) (ev_PubKey e1));
    destruct (String.eqb (pub (lastAnnouncement ns)) (ev_PubKey e2)); try done.
  destruct (decide (X1 = X2)) as [HX|HX].
  - specialize (Hslot HX). rewrite <- HX.
    destruct (m !! X1) as [old|] eqn:Hold.
    + destruct (ev_CreatedAt old <? t1) eqn:H1; destruct (ev_CreatedAt old <? t2) eqn:H2;
        rewrite ?lookup_insert_eq, ?Hold, ?H1, ?H2; fold t1 t2;
        try apply Z.ltb_lt in H1; try apply Z.ltb_ge in H1;
        try apply Z.ltb_lt in H2; try apply Z.ltb_ge in H2.
      * destruct (t1 <? t2) eqn:H12; destruct (t2 <? t1) eqn:H21;
          try apply Z.ltb_lt in H12; try apply Z.ltb_ge in H12;
          try apply Z.ltb_lt in H21; try apply Z.ltb_ge in H21; try lia.
        -- by rewrite insert_insert_eq.
        -- by rewrite insert_insert_eq.
      * assert ((t1 <? t2) = false) as -> by (apply Z.ltb_ge; lia). done.
      * assert ((t2 <? t1) = false) as -> by (apply Z.ltb_ge; lia). done.
      * done.
    + rewrite !lookup_insert_eq. fold t1 t2.
      destruct (t1 <? t2) eqn:H12; destruct (t2 <? t1) eqn:H21;
        try apply Z.ltb_lt in H12; try apply Z.ltb_ge in H12;
        try apply Z.ltb_lt in H21; try apply Z.ltb_ge in H21; try lia.
      * by rewrite insert_insert_eq.
      * by rewrite insert_insert_eq.
  - assert (forall (v : Event.t) (m' : gmap string Event.t),
               <[X1 := v]> m' !! X2 = m' !! X2) as Hl12.
    { intros. by apply lookup_insert_ne. }
    assert (forall (v : Event.t) (m' : gmap string Event.t),
               <[X2 := v]> m' !! X1 = m' !! X1) as Hl21.
    { intros. by apply lookup_insert_ne. }
    destruct (m !! X1) as [o1|] eqn:Ho1; destruct (m !! X2) as [o2|] eqn:Ho2;
      try destruct (ev_CreatedAt o1 <? t1) eqn:C1;
      try destruct (ev_CreatedAt o2 <? t2) eqn:C2;
      rewrite ?Hl12, ?Hl21, ?Ho1, ?Ho2, ?C1, ?C2;
      try done; by apply insert_insert_ne.
Qed.

Lemma StoreEvent_regular (s : MapStore) (ev ev1 : Event.t) (id : Identifier.t) :
  Event.kind ev <> KindNodeAnnouncement ->
  GetIdentifier ev = (ev1, Ok id) ->
  fst (StoreEvent s ev) =
  {| records :=
       <[Identifier.PubKey id :=
           fst (storeRegularEvent (node_of s (Identifier.PubKey id)) ev1 id)]>
         (records s) |}.
Proof.
  intros Hkind Hg. destruct (GetIdentifier_pair _ _ _ Hg) as (_ & Hk & _ & _).
  rewrite (StoreEvent_branch _ _ _ _ Hg). simpl. unfold store_branch.
  apply Z.eqb_neq in Hkind. by rewrite Hk, Hkind.
Qed.

(** X6: records that are not trust anchors can arrive in either order: two
    [StoreEvent] calls leave the same store whichever comes first, unless the
    two records address the same slot of the same node with equal time
    stamps (then the first one wins). In one slot the newer record ends up
    stored regardless of arrival order. *)
Theorem regular_records_commute (s : MapStore) (e1 e2 : Event.t) :
  Event.kind e1 <> KindNodeAnnouncement ->
  Event.kind e2 <> KindNodeAnnouncement ->
  (forall i j,
      snd (GetIdentifier e1) = Ok i -> snd (GetIdentifier e2) = Ok j ->
      Identifier.PubKey i = Identifier.PubKey j ->
      Identifier.TagD i = Identifier.TagD j ->
      ev_CreatedAt e1 <> ev_CreatedAt e2) ->
  StoreAll s [e1; e2] = StoreAll s [e2; e1].
Proof.
  intros Hk1 Hk2 Hslot. unfold StoreAll. simpl.
  destruct (GetIdentifier e1) as [e1' [i|err1]] eqn:Hg1.
  2:{ by rewrite !(StoreEvent_parse_error _ _ _ _ Hg1). }
  destruct (GetIdentifier e2) as [e2' [j|err2]] eqn:Hg2.
  2:{ by rewrite !(StoreEvent_parse_error _ _ _ _ Hg2). }
  destruct (GetIdentifier_pair _ _ _ Hg1) as (_ & _ & Hc1 & _).
  destruct (GetIdentifier_pair _ _ _ Hg2) as (_ & _ & Hc2 & _).
  rewrite (StoreEvent_regular _ _ _ _ Hk2 Hg2), (StoreEvent_regular _ _ _ _ Hk1 Hg1).
  rewrite (StoreEvent_regular _ _ _ _ Hk1 Hg1), (StoreEvent_regular _ _ _ _ Hk2 Hg2).
  destruct s as [m]. cbn [records]. rewrite !node_of_insert. f_equal.
  destruct (decide (Identifier.PubKey i = Identifier.PubKey j)) as [HP|HP].
  - rewrite HP, !decide_True by done. rewrite !insert_insert_eq. f_equal.
    apply storeRegularEvent_commute. intros HX. rewrite Hc1, Hc2.
    by apply (Hslot i j).
  - rewrite !decide_False by done. by apply insert_insert_ne.
Qed.

Lemma regular_records_commute_witness :
  Event.kind (relay_event (plain_record "A" 500 [["d"; "1:P:mainnet"]; ["k"; "1"]]))
  <> KindNodeAnnouncement
  /\ StoreAll (StoreAll NewMapStore (firstn 1 rotation_run))
       [relay_event (plain_record "A" 500 [["d"; "1:P:mainnet"]; ["k"; "1"]]);
        relay_event (plain_record "A" 700 [["d"; "1:P:mainnet"]; ["k"; "1"]])]
     = StoreAll (StoreAll NewMapStore (firstn 1 rotation_run))
         [relay_event (plain_record "A" 700 [["d"; "1:P:mainnet"]; ["k"; "1"]]);
          relay_event (plain_record "A" 500 [["d"; "1:P:mainnet"]; ["k"; "1"]])].
Proof.
  assert (Event.kind (relay_event (plain_record "A" 500 [["d"; "1:P:mainnet"]; ["k"; "1"]]))
          <> KindNodeAnnouncement) as Hk1 by (vm_compute; discriminate).
  assert (Event.kind (relay_event (plain_record "A" 700 [["d"; "1:P:mainnet"]; ["k"; "1"]]))
          <> KindNodeAnnouncement) as Hk2 by (vm_compute; discriminate).
  split; [exact Hk1|].
  apply (regular_records_commute _ _ _ Hk1 Hk2).
  intros i j _ _ _ _. vm_compute. discriminate.
Defined.

(** With equal time stamps the order of arrival decides. *)
Example equal_timestamps_first_wins :
  let a := relay_event (plain_record "" 5 [["d"; "1:P:mainnet"]; ["k"; "1"]]) in
  let b := relay_event (nostr.Event.mk "" "" 5 KindLightningInformation
                          [["d"; "1:P:mainnet"]; ["k"; "1"]] "{1}" "") in
  StoreAll NewMapStore [a; b] <> StoreAll NewMapStore [b; a].
Proof. vm_compute. discriminate. Qed.

(** ** What every reachable store satisfies *)

Lemma store_branch_invariant (P : string) (ns : nodeState) (ev ev1 : Event.t)
    (id : Identifier.t) :
  GetIdentifier ev = (ev1, Ok id) ->
  Identifier.PubKey id = P ->
  (0 <= createdAt (lastAnnouncement ns)
   /\ forall X e,
        events ns !! X = Some e ->
        ev_PubKey e = pub (lastAnnouncement ns)
        /\ exists i, snd (GetIdentifier e) = Ok i
                     /\ Identifier.PubKey i = P /\ Identifier.TagD i = X) ->
  let ns1 := fst (store_branch ns ev1 id) in
  0 <= createdAt (lastAnnouncement ns1)
  /\ forall X e,
       events ns1 !! X = Some e ->
       ev_PubKey e = pub (lastAnnouncement ns1)
       /\ exists i, snd (GetIdentifier e) = Ok i
                    /\ Identifier.PubKey i = P /\ Identifier.TagD i = X.
Proof.
  intros Hg HP [Htime Hslots] ns1. subst ns1.
  pose proof (GetIdentifier_idem _ _ _ Hg) as Hg1.
  destruct (store_branch ns ev1 id) as [ns1 [err|]] eqn:Hb.
  { apply store_branch_error in Hb as ->. done. }
  simpl. unfold store_branch in Hb.
  destruct (Event.kind ev1 =? KindNodeAnnouncement).
  - apply registerAnnouncement_ok in Hb as [Hlt ->]. simpl. split; [lia|].
    intros X e. destruct (decide (Identifier.TagD id = X)) as [<-|HX].
    + rewrite lookup_insert_eq. intros [= <-]. split; [done|].
      exists id. by rewrite Hg1.
    + rewrite lookup_insert_ne by done.
      destruct (String.eqb_spec (pub (lastAnnouncement ns)) (ev_PubKey ev1)) as [Heq|Hne];
        simpl.
      * intros He. destruct (Hslots _ _ He) as [Hp Hi]. split; [congruence | done].
      * by rewrite lookup_empty.
  - apply storeRegularEvent_ok in Hb as (Hp & _ & ->). simpl. split; [done|].
    intros X e. destruct (decide (Identifier.TagD id = X)) as [<-|HX].
    + rewrite lookup_insert_eq. intros [= <-]. split; [done|].
      exists id. by rewrite Hg1.
    + rewrite lookup_insert_ne by done. apply Hslots.
Qed.

Lemma StoreEvent_invariant (s : MapStore) (ev : Event.t) :
  store_invariant s -> store_invariant (fst (StoreEvent s ev)).
Proof.
  intros Hinv. destruct (GetIdentifier ev) as [ev1 [id|err]] eqn:Hg.
  2:{ by rewrite (StoreEvent_parse_error _ _ _ _ Hg). }
  rewrite (StoreEvent_branch _ _ _ _ Hg). simpl. intros P ns. simpl.
  destruct (decide (Identifier.PubKey id = P)) as [HP|HP].
  - subst P. rewrite lookup_insert_eq. intros [= <-].
    apply (store_branch_invariant _ _ ev ev1 id Hg eq_refl).
    unfold node_of.
    destruct (records s !! Identifier.PubKey id) as [ns0|] eqn:Hl; simpl.
    + by apply Hinv.
    + split; [done|]. intros X e. by rewrite lookup_empty.
  - rewrite lookup_insert_ne by done. apply Hinv.
Qed.

Lemma StoreAll_invariant (evs : list Event.t) :
  store_invariant (StoreAll NewMapStore evs).
Proof.
  unfold StoreAll.
  assert (store_invariant NewMapStore) as Hempty.
  { intros P ns. simpl. by rewrite lookup_empty. }
  revert Hempty. generalize NewMapStore as s.
  induction evs as [|ev evs IH]; intros s Hs; simpl; [done|].
  apply IH. by apply StoreEvent_invariant.
Qed.

(** X7: whatever events are handed to [StoreEvent], in whatever order and
    whether accepted or not, the store built from the empty one keeps its
    shape: every event it holds is signed by the identity now bound to its
    node, is filed under the node key and the slot that its own identifier
    names, and no node carries a negative announcement time. *)
Theorem reachable_store_invariant (evs : list Event.t) :
  store_invariant (StoreAll NewMapStore evs).
Proof. apply StoreAll_invariant. Qed.

(** X8: hence what [GetEvents] hands out of such a store carries an identifier,
    is of the requested kind and is signed by the identity bound to the node
    it is about; and when a filter is given, that node is listed in it. *)
Theorem GetEvents_of_reachable_store (evs : list Event.t) (kind : Kind)
    (pubkeys : gset string) (e : Event.t) :
  In e (MapStore_GetEvents (StoreAll NewMapStore evs) kind pubkeys) ->
  Event.kind e = kind
  /\ exists id,
       snd (GetIdentifier e) = Ok id
       /\ filter_admits pubkeys (Identifier.PubKey id)
       /\ events (node_of (StoreAll NewMapStore evs) (Identifier.PubKey id))
            !! Identifier.TagD id = Some e
       /\ ev_PubKey e
          = pub (lastAnnouncement (node_of (StoreAll NewMapStore evs) (Identifier.PubKey id))).
Proof.
  intros Hin. apply MapStore_GetEvents_iff in Hin.
  destruct Hin as (P & ns & X & HP & HX & Hk & Hadm).
  destruct (StoreAll_invariant evs P ns HP) as [_ Hslots].
  destruct (Hslots X e HX) as (Hpub & id & Hid & <- & <-).
  split; [done|]. exists id. unfold node_of. rewrite HP. simpl. done.
Qed.

Lemma GetEvents_of_reachable_store_witness :
  In (relay_event (plain_record "B" 30 [["d"; "1:P:mainnet"]; ["k"; "1"]]))
    (MapStore_GetEvents (StoreAll NewMapStore rotation_run) 1 ∅)
  /\ Event.kind (relay_event (plain_record "B" 30 [["d"; "1:P:mainnet"]; ["k"; "1"]])) = 1.
Proof.
  assert (In (relay_event (plain_record "B" 30 [["d"; "1:P:mainnet"]; ["k"; "1"]]))
            (MapStore_GetEvents (StoreAll NewMapStore rotation_run) 1 ∅)) as Hin.
  { vm_compute. left. reflexivity. }
  split; [exact Hin|].
  exact (proj1 (GetEvents_of_reachable_store rotation_run 1 ∅ _ Hin)).
Defined.

(** ** Building, signing and checking an event *)

(** X9: [Finalize] works once: on the event that a successful call returns, every
    further call fails on the "d" tag, whatever the arguments. *)
Theorem Finalize_only_once (e e1 : Event.t) (network pubkey network' pubkey' : string)
    (kind kind' : Kind) (opts opts' : list string) :
  Finalize e network pubkey kind opts = Ok e1 ->
  Finalize e1 network' pubkey' kind' opts' = Err (ErrDuplicateTag "d").
Proof.
  intros Hf. destruct (Finalize_tags _ _ _ _ _ _ Hf) as (Hd & _).
  unfold Finalize. unfold ev_Tags in Hd. by rewrite Hd.
Qed.

Lemma Finalize_only_once_witness :
  exists e1,
    Finalize (wrap (plain_record "A" 10 [["x"; "y"]])) "mainnet" "P" 1 [] = Ok e1
    /\ Finalize e1 "testnet" "Q" 0 ["o"] = Err (ErrDuplicateTag "d").
Proof.
  eexists. split; [vm_compute; reflexivity|].
  apply (Finalize_only_once (wrap (plain_record "A" 10 [["x"; "y"]])) _ "mainnet" "P"
           "testnet" "Q" 1 0 [] ["o"]).
  vm_compute. reflexivity.
Defined.

(** X10: what [Finalize] builds, [NewEventFromNostrRelay] reads back: the record of
    a finalized event always parses at the receiver, whatever the key, the
    network and the options are, and the receiver's event has the kind and
    the "d" tag value of the sender's. *)
Theorem finalized_record_parses (e e1 : Event.t) (network pubkey : string)
    (kind : Kind) (opts : list string) :
  in_int kind ->
  Finalize e network pubkey kind opts = Ok e1 ->
  exists lev id,
    NewEventFromNostrRelay (Event.NostrEvent e1) = Ok lev
    /\ GetIdentifier lev = (lev, Ok id)
    /\ Event.NostrEvent lev = Event.NostrEvent e1
    /\ Event.kind lev = Event.kind e1
    /\ Event.finalized lev = true
    /\ Identifier.Kind id = kind
    /\ Identifier.TagD id = tagD_of network pubkey kind opts.
Proof.
  intros Hkind Hf. pose proof (Finalize_parse _ _ _ _ _ _ Hkind Hf) as Hp.
  destruct (Finalize_tags _ _ _ _ _ _ Hf) as (_ & _ & Hk & _).
  unfold NewEventFromNostrRelay, GetIdentifier, wrap. cbn [Event.id Event.NostrEvent].
  unfold ev_Tags in Hp. rewrite Hp. unfold tagD_of.
  destruct (kind =? KindNodeAnnouncement); cbv zeta; eexists; eexists;
    cbn [Event.id Event.NostrEvent Event.kind Event.finalized Identifier.Kind
         Identifier.TagD]; done.
Qed.

Lemma finalized_record_parses_witness :
  exists e1 lev,
    Finalize (wrap (plain_record "A" 10 [])) "mainnet" "P:Q" 7 ["a:b"] = Ok e1
    /\ NewEventFromNostrRelay (Event.NostrEvent e1) = Ok lev
    /\ Event.kind lev = 7.
Proof.
  assert (in_int 7) as Hkind by (vm_compute; split; discriminate).
  eexists.
  destruct (finalized_record_parses (wrap (plain_record "A" 10 [])) _ "mainnet" "P:Q" 7
              ["a:b"] Hkind eq_refl)
    as (lev & id & Hrelay & _ & _ & Hk & _).
  exists lev. split; [reflexivity|]. split; [exact Hrelay|]. exact Hk.
Defined.

Section EventLife.
Context {NC : NostrCrypto} {NS : NostrSigner}.

(** X11: a record that is no trust anchor is signed without the Lightning node:
    the result of [SignEvent] is the same with any node, no "sig" tag is
    added, and the identity signer is handed the record as it is. *)
Theorem SignEvent_regular_without_node (ln1 ln2 : LightningNode) (ev ev2 : Event.t) :
  Event.kind ev <> KindNodeAnnouncement ->
  @SignEvent NC NS ln1 ev = @SignEvent NC NS ln2 ev
  /\ (@SignEvent NC NS ln1 ev = Ok ev2 ->
      Signer_SignEvent (Event.NostrEvent ev) = Ok (Event.NostrEvent ev2)
      /\ Event.kind ev2 = Event.kind ev /\ Event.id ev2 = Event.id ev).
Proof.
  intros Hk. apply Z.eqb_neq in Hk. unfold SignEvent, RequiresLnSignature.
  rewrite Hk. split; [done|].
  destruct (negb (IsFinalized ev)); [done|].
  destruct (Signer_SignEvent (Event.NostrEvent ev)); [|done].
  by intros [= <-].
Qed.

Context {LN : LightningNode}.

(** X12: a trust anchor is signed once: with an identity signer that leaves the
    tags alone, [SignEvent] appends the one "sig" tag with what the
    Lightning node returned for the hash of the event, and a second
    [SignEvent] on the result fails before either signer is asked. *)
Theorem SignEvent_anchor_once (ev ev2 : Event.t) :
  (forall r r', Signer_SignEvent r = Ok r' -> nostr.Event.Tags r' = nostr.Event.Tags r) ->
  Event.kind ev = KindNodeAnnouncement ->
  SignEvent ev = Ok ev2 ->
  (exists sig,
      SignMessage (Hash ev) = Ok sig
      /\ nostr.Find (ev_Tags ev) "sig" = None
      /\ ev_Tags ev2 = ev_Tags ev ++ [["sig"; sig]])
  /\ SignEvent ev2 = Err (ErrWrap "signing with ln" ErrAlreadySigTag).
Proof.
  intros Hkeep Hk. unfold SignEvent at 1. unfold RequiresLnSignature, signWithLn.
  rewrite Hk. cbn [Z.eqb KindNodeAnnouncement].
  destruct (IsFinalized ev) eqn:Hfin; [|done]. cbn [negb].
  change (nostr.Event.Tags (Event.NostrEvent ev)) with (ev_Tags ev).
  destruct (nostr.Find (ev_Tags ev) "sig") eqn:Hsig; [done|].
  destruct (SignMessage (Hash ev)) as [sig|] eqn:Hmsg; [|done].
  destruct (Signer_SignEvent _) as [nev|] eqn:Hsign; [|done].
  intros [= <-]. apply Hkeep in Hsign. cbn in Hsign.
  assert (ev_Tags (Event.mk nev (Event.kind ev) (Event.finalized ev) (Event.id ev))
          = ev_Tags ev ++ [["sig"; sig]]) as Htags by exact Hsign.
  split; [by exists sig|].
  unfold SignEvent, RequiresLnSignature, signWithLn, IsFinalized in *.
  cbn [Event.kind Event.finalized Event.NostrEvent]. rewrite Hfin, Hk.
  cbn [negb Z.eqb KindNodeAnnouncement].
  unfold ev_Tags in Htags. cbn [Event.NostrEvent] in Htags.
  rewrite Htags, Find_app. unfold ev_Tags in Hsig. by rewrite Hsig.
Qed.

End EventLife.

Lemma SignEvent_regular_without_node_witness :
  Event.kind (relay_event (plain_record "A" 10 [["d"; "1:P:mainnet"]; ["k"; "1"]]))
  <> KindNodeAnnouncement
  /\ @SignEvent demo_NostrCrypto demo_NostrSigner demo_LightningNode
       (relay_event (plain_record "A" 10 [["d"; "1:P:mainnet"]; ["k"; "1"]]))
     = @SignEvent demo_NostrCrypto demo_NostrSigner failing_LightningNode
         (relay_event (plain_record "A" 10 [["d"; "1:P:mainnet"]; ["k"; "1"]])).
Proof.
  assert (Event.kind (relay_event (plain_record "A" 10 [["d"; "1:P:mainnet"]; ["k"; "1"]]))
          <> KindNodeAnnouncement) as Hk by (vm_compute; discriminate).
  split; [exact Hk|].
  exact (proj1 (@SignEvent_regular_without_node demo_NostrCrypto demo_NostrSigner
                  demo_LightningNode failing_LightningNode _
                  (relay_event (plain_record "A" 10 [["d"; "1:P:mainnet"]; ["k"; "1"]]))
                  Hk)).
Defined.

Lemma SignEvent_anchor_once_witness :
  exists ev ev2,
    Finalize (wrap (plain_record "npub1" 10 [])) "mainnet" "02node1" 0 [] = Ok ev
    /\ @SignEvent demo_NostrCrypto demo_NostrSigner demo_LightningNode ev = Ok ev2
    /\ @SignEvent demo_NostrCrypto demo_NostrSigner demo_LightningNode ev2
       = Err (ErrWrap "signing with ln" ErrAlreadySigTag).
Proof.
  assert (forall r r', @Signer_SignEvent demo_NostrSigner r = Ok r' ->
                       nostr.Event.Tags r' = nostr.Event.Tags r) as Hkeep.
  { intros r r' [= <-]. reflexivity. }
  eexists. eexists. split; [vm_compute; reflexivity|].
  match goal with
  | |- @SignEvent _ _ _ ?ev = _ /\ _ =>
      assert (Event.kind ev = KindNodeAnnouncement) as Hk by reflexivity;
      split; [vm_compute; reflexivity|];
      match goal with
      | |- @SignEvent _ _ _ ?ev2 = _ =>
          assert (@SignEvent demo_NostrCrypto demo_NostrSigner demo_LightningNode ev
                  = Ok ev2) as Hs by (vm_compute; reflexivity);
          exact (proj2 (@SignEvent_anchor_once demo_NostrCrypto demo_NostrSigner
                          demo_LightningNode ev ev2 Hkeep Hk Hs))
      end
  end.
Defined.

Section Checking.
Context {NC : NostrCrypto}.

(** X13: a trust anchor verifies only with exactly one valued "sig" tag: with none
    or with several, [Verify] answers invalid whatever the signatures are. *)
Theorem Verify_anchor_one_sig {LC : LnCrypto} (now : nostr.Timestamp) (e : Event.t) :
  Event.kind e = KindNodeAnnouncement ->
  length (nostr.FindAll (ev_Tags e) "sig") <> 1%nat ->
  fst (snd (Verify now e)) = false.
Proof.
  intros Hk Hn. unfold Verify.
  destruct (_ <? nostr.Event.CreatedAt _); [done|].
  destruct (negb (String.eqb _ (GetID _))); [done|].
  destruct (MaxContentSize <? _); [done|].
  destruct (GetIdentifier_fst e) as (Hev & Hkind & _).
  destruct (GetIdentifier e) as [e1 [idx|err]]; simpl in Hev, Hkind; [|done].
  destruct (_ && _); [done|]. destruct (kTagInvalid _ _); [done|].
  destruct (CheckSignature _) as [ok err]. destruct (_ || _); [done|].
  unfold RequiresLnSignature. rewrite Hkind, Hk. cbn [Z.eqb KindNodeAnnouncement].
  rewrite checkLightningSig_outcome. unfold ev_Tags in *. rewrite Hev.
  destruct (nostr.FindAll _ "sig") as [|s [|s' rest]]; [done| |done].
  by destruct Hn.
Qed.

(** X14: a record that is no trust anchor is verified without the Lightning
    signature scheme: the answer of [Verify] does not depend on it. *)
Theorem Verify_regular_without_ln (lc1 lc2 : LnCrypto) (now : nostr.Timestamp)
    (e : Event.t) :
  Event.kind e <> KindNodeAnnouncement ->
  @Verify NC lc1 now e = @Verify NC lc2 now e.
Proof.
  intros Hk. apply Z.eqb_neq in Hk. unfold Verify.
  destruct (_ <? nostr.Event.CreatedAt _); [done|].
  destruct (negb (String.eqb _ (GetID _))); [done|].
  destruct (MaxContentSize <? _); [done|].
  destruct (GetIdentifier_fst e) as (_ & Hkind & _).
  destruct (GetIdentifier e) as [e1 [idx|err]]; simpl in Hkind; [|done].
  destruct (_ && _); [done|]. destruct (kTagInvalid _ _); [done|].
  destruct (CheckSignature _) as [ok err]. destruct (_ || _); [done|].
  unfold RequiresLnSignature. by rewrite Hkind, Hk.
Qed.

Context {LC : LnCrypto}.

Lemma Verify_clock (now now' : nostr.Timestamp) (e : Event.t) :
  (wrap64 (now + EventGracePeriodSeconds) <? ev_CreatedAt e)
  = (wrap64 (now' + EventGracePeriodSeconds) <? ev_CreatedAt e) ->
  Verify now e = Verify now' e.
Proof.
  unfold Verify, ev_CreatedAt. cbv zeta. by intros ->.
Qed.

(** X15: records do not expire: the clock enters [Verify] only as the upper bound
    of the time stamp, so an event that verifies at one reading of the clock
    verifies at every later one. *)
Theorem Verify_no_expiry (now now' : nostr.Timestamp) (e : Event.t) :
  in_int (now + 600) -> in_int (now' + 600) -> now <= now' ->
  snd (Verify now e) = (true, None) ->
  snd (Verify now' e) = (true, None).
Proof.
  intros Hnow Hnow' Hle Hv. rewrite <- (Verify_clock now now'); [done|].
  unfold EventGracePeriodSeconds. rewrite !wrap64_id by done.
  destruct (now + 600 <? ev_CreatedAt e) eqn:Hfut.
  - exfalso. revert Hv. unfold Verify, ev_CreatedAt in *. cbv zeta.
    unfold EventGracePeriodSeconds. rewrite (wrap64_id _ Hnow), Hfut. done.
  - symmetry. apply Z.ltb_ge. apply Z.ltb_ge in Hfut. lia.
Qed.

End Checking.

Lemma Verify_anchor_one_sig_witness :
  fst (snd (@Verify demo_NostrCrypto demo_LnCrypto 1000
              (relay_event (demo_record 900 [["d"; "02node1"]; ["k"; "0"]; ["sig"]]))))
  = false.
Proof.
  apply (@Verify_anchor_one_sig demo_NostrCrypto demo_LnCrypto 1000); vm_compute;
    [reflexivity | discriminate].
Defined.

Lemma Verify_regular_without_ln_witness :
  @Verify demo_NostrCrypto demo_LnCrypto 1000
    (relay_event (demo_record 900 [["d"; "1:02node1:mainnet"]; ["k"; "1"]]))
  = @Verify demo_NostrCrypto
      {| zbase32_DecodeString := fun _ => None; DoubleHashB := fun m => m;
         RecoverCompact := fun _ _ => None; hex_EncodeToString := fun b => b |}
      1000 (relay_event (demo_record 900 [["d"; "1:02node1:mainnet"]; ["k"; "1"]])).
Proof.
  apply (@Verify_regular_without_ln demo_NostrCrypto). vm_compute. discriminate.
Defined.

Lemma Verify_no_expiry_witness :
  snd (@Verify demo_NostrCrypto demo_LnCrypto 1000
         (relay_event (demo_record 900 [["d"; "1:02node1:mainnet"]; ["k"; "1"]])))
  = (true, None)
  /\ snd (@Verify demo_NostrCrypto demo_LnCrypto 4000000000
            (relay_event (demo_record 900 [["d"; "1:02node1:mainnet"]; ["k"; "1"]])))
     = (true, None).
Proof.
  assert (snd (@Verify demo_NostrCrypto demo_LnCrypto 1000
                 (relay_event (demo_record 900 [["d"; "1:02node1:mainnet"]; ["k"; "1"]])))
          = (true, None)) as Hv by (vm_compute; reflexivity).
  split; [exact Hv|].
  apply (@Verify_no_expiry demo_NostrCrypto demo_LnCrypto 1000 4000000000);
    [vm_compute; split; discriminate | vm_compute; split; discriminate
    | vm_compute; discriminate | exact Hv].
Defined.

(** ** The pipeline under cancellation *)

Section Cancellation.
Context `{NostrCrypto} `{LnCrypto} `{RelayPool} `{Clock}.

Lemma rangeEvents_cancelled (n step : nat) (s : MapStore) (recs : list nostr.Event.t)
    (acc : list Error) :
  rangeEvents (Some n) step s recs acc =
  ((step + length (firstn (n - step) recs))%nat,
   fst (run step s (firstn (n - step) recs)),
   acc ++ snd (run step s (firstn (n - step) recs))).
Proof.
  revert step s acc. induction recs as [|r recs IH]; intros step s acc.
  - rewrite firstn_nil. simpl. by rewrite Nat.add_0_r, app_nil_r.
  - cbn [rangeEvents ctx_Err]. destruct (n <=? step)%nat eqn:Hle.
    + apply Nat.leb_le in Hle. replace (n - step)%nat with 0%nat by lia.
      simpl. by rewrite Nat.add_0_r, app_nil_r.
    + apply Nat.leb_gt in Hle.
      replace (n - step)%nat with (S (n - S step)) by lia.
      cbn [firstn run length].
      destruct (processEvent (Now step) s r) as [s1 w]. rewrite IH.
      destruct (run (S step) s1 (firstn (n - S step) recs)) as [s2 ws]. simpl.
      f_equal; [f_equal; lia | by rewrite app_assoc].
Qed.

Lemma processed_before_all (n step : nat) (recs : list nostr.Event.t) :
  (step + length recs < n)%nat -> processed_before (Some n) step recs = recs.
Proof. intros Hn. simpl. apply firstn_all2. lia. Qed.

Lemma syncStoreWithPool_cancel_eq (n step : nat) (s : MapStore)
    (urls : list string) (f : Filter) :
  syncStoreWithPool (Some n) step s urls f =
  let recs := FetchManyReplaceable urls f in
  let s1 := fst (run step s (processed_before (Some n) step recs)) in
  if (n <=? step + length recs)%nat
  then (Nat.max step n, s1, Some ErrCancelled, [])
  else ((step + length recs)%nat, s1, None, snd (run step s recs)).
Proof.
  unfold syncStoreWithPool. cbv zeta. rewrite rangeEvents_cancelled.
  cbn [processed_before ctx_Err app]. rewrite length_firstn.
  destruct (n <=? step + length (FetchManyReplaceable urls f))%nat eqn:Hle.
  - apply Nat.leb_le in Hle.
    assert ((n <=? step + Nat.min (n - step) (length (FetchManyReplaceable urls f)))%nat
            = true) as -> by (apply Nat.leb_le; lia).
    do 3 f_equal. lia.
  - apply Nat.leb_gt in Hle.
    assert ((n <=? step + Nat.min (n - step) (length (FetchManyReplaceable urls f)))%nat
            = false) as -> by (apply Nat.leb_gt; lia).
    rewrite firstn_all2 by lia. do 3 f_equal. lia.
Qed.

(** X16: a pass of [syncStoreWithPool] under a context that is cancelled from step
    [n] on: the records before the cancellation are processed and what they
    did to the store stays; when the cancellation comes no later than the
    end of the walk, the pass reports the cancellation and drops every
    warning it collected, otherwise it ends as if never cancelled. *)
Theorem syncStoreWithPool_cancellation (n step : nat) (s : MapStore)
    (urls : list string) (f : Filter) :
  syncStoreWithPool (Some n) step s urls f =
  let recs := FetchManyReplaceable urls f in
  let s1 := fst (run step s (processed_before (Some n) step recs)) in
  if (n <=? step + length recs)%nat
  then (Nat.max step n, s1, Some ErrCancelled, [])
  else ((step + length recs)%nat, s1, None, snd (run step s recs)).
Proof. apply syncStoreWithPool_cancel_eq. Qed.

Lemma syncStoreWithPool_cancelled_store (n step : nat) (s : MapStore)
    (urls : list string) (f : Filter) :
  syncStoreWithPool (Some n) step s urls f =
  (if (n <=? step + length (FetchManyReplaceable urls f))%nat
   then Nat.max step n else (step + length (FetchManyReplaceable urls f))%nat,
   fst (run step s (firstn (n - step) (FetchManyReplaceable urls f))),
   if (n <=? step + length (FetchManyReplaceable urls f))%nat
   then Some ErrCancelled else None,
   if (n <=? step + length (FetchManyReplaceable urls f))%nat
   then [] else snd (run step s (FetchManyReplaceable urls f))).
Proof.
  rewrite syncStoreWithPool_cancel_eq. cbv zeta. cbn [processed_before].
  by destruct (_ <=? _)%nat.
Qed.

(** X17: [GetEvents] under a cancellation that comes before the last record of
    its two passes is processed, or right after it: the call returns no
    event and no warning, only the cancellation wrapped with the name of
    the pass, although the records processed before it are in the client's
    store. *)
Theorem Client_GetEvents_cancelled (c : Client.t) (n step : nat) (kind : Kind)
    (pubkeys : gset string) (urls : list string) (since : nostr.Timestamp) :
  (n <= step + length (fetched kind urls since))%nat ->
  (exists pass,
      snd (Client_GetEvents c (Some n) step kind pubkeys urls since)
      = ([], Some (ErrWrap pass ErrCancelled), []))
  /\ Client.store (fst (Client_GetEvents c (Some n) step kind pubkeys urls since))
     = fst (run step (Client.store c)
              (processed_before (Some n) step (fetched kind urls since))).
Proof.
  intros Hn. unfold Client_GetEvents. cbv zeta. cbn [processed_before].
  rewrite syncStoreWithPool_cancelled_store. unfold fetched in *.
  set (anns := FetchManyReplaceable urls (kindFilter since KindNodeAnnouncement)) in *.
  destruct (n <=? step + length anns)%nat eqn:Hle.
  - apply Nat.leb_le in Hle. cbn [fst snd Client.store]. split; [eauto|].
    rewrite firstn_app. replace (n - step - length anns)%nat with 0%nat by lia.
    by rewrite firstn_O, app_nil_r.
  - apply Nat.leb_gt in Hle.
    destruct (kind =? KindNodeAnnouncement) eqn:Hkind; cbn [negb].
    { rewrite app_nil_r in Hn. lia. }
    rewrite length_app in Hn. rewrite syncStoreWithPool_cancelled_store.
    set (recs := FetchManyReplaceable urls (kindFilter since kind)) in *.
    assert ((n <=? step + length anns + length recs)%nat = true) as ->
        by (apply Nat.leb_le; lia).
    cbn [fst snd Client.store]. split; [eauto|].
    rewrite firstn_app, run_app. cbn [fst].
    replace (firstn (n - step) anns) with anns by (symmetry; apply firstn_all2; lia).
    do 3 f_equal. lia.
Qed.

End Cancellation.

Lemma Client_GetEvents_cancelled_witness :
  (2 <= 0 + length (@fetched demo_RelayPool 1%Z [] 0%Z))%nat
  /\ Client.store
       (fst (@Client_GetEvents demo_NostrCrypto demo_LnCrypto demo_RelayPool demo_Clock
               demo_client (Some 2%nat) 0 1 ∅ [] 0))
     = fst (@run demo_NostrCrypto demo_LnCrypto demo_Clock 0 demo_store
              (processed_before (Some 2%nat) 0 (@fetched demo_RelayPool 1 [] 0))).
Proof.
  assert (2 <= 0 + length (@fetched demo_RelayPool 1%Z [] 0%Z))%nat as Hn
      by (vm_compute; lia).
  split; [exact Hn|].
  exact (proj2 (@Client_GetEvents_cancelled demo_NostrCrypto demo_LnCrypto
                  demo_RelayPool demo_Clock demo_client 2 0 1 ∅ [] 0 Hn)).
Defined.

(** Two records were stored before the cancellation, none is returned. *)
Example Client_GetEvents_cancelled_demo :
  snd (@Client_GetEvents demo_NostrCrypto demo_LnCrypto demo_RelayPool demo_Clock
         demo_client (Some 2%nat) 0 1 ∅ [] 0)
  = ([], Some (ErrWrap "fetching events of kind" ErrCancelled), [])
  /\ length (MapStore_GetEvents
               (Client.store
                  (fst (@Client_GetEvents demo_NostrCrypto demo_LnCrypto demo_RelayPool
                          demo_Clock demo_client (Some 2%nat) 0 1 ∅ [] 0))) 1 ∅)
     = 2%nat.
Proof. vm_compute. split; reflexivity. Qed.

(** ** The client: creation and publishing *)

Lemma IsValidNetwork_iff (network : string) :
  IsValidNetwork network = true <->
  In network ["mainnet"; "testnet"; "testnet4"; "signet"; "simnet"; "regtest"].
Proof.
  unfold IsValidNetwork. cbn [In].
  repeat match goal with
         | |- context [String.eqb network ?lit] =>
             destruct (String.eqb_spec network lit) as [->|?]; [by intuition|]
         end.
  split; [done|]. intros Hin. repeat destruct Hin as [<-|Hin]; done.
Qed.

Section ClientProofs.
Context `{NostrCrypto} `{LnCrypto} `{NostrSigner} `{LightningNode} `{Clock}.

(** X18: [NewClient] returns a client exactly when the identity signer gives its
    key and the Lightning node reports one of the six known networks; the
    client then caches that key and that report and starts with an empty
    store. Nothing else about the node is checked. *)
Theorem NewClient_iff (c : Client.t) :
  NewClient = Ok c <->
  Signer_GetPublicKey = Ok (Client.pub c)
  /\ ln_GetNodeInfo = Ok (Client.info c)
  /\ In (info_Network (Client.info c))
       ["mainnet"; "testnet"; "testnet4"; "signet"; "simnet"; "regtest"]
  /\ Client.store c = NewMapStore.
Proof.
  rewrite <- IsValidNetwork_iff. split.
  - apply NewClient_Ok.
  - intros (Hpub & Hinfo & Hnet & Hstore).
    unfold NewClient, Client_GetNodeInfo, checkNetwork.
    rewrite Hpub, Hinfo, Hnet. simpl. destruct c. simpl in *. by subst.
Qed.

Lemma checkLightningSig_ext (e e' : Event.t) (pubKeyID : string) :
  Event.NostrEvent e = Event.NostrEvent e' ->
  checkLightningSig e pubKeyID = checkLightningSig e' pubKeyID.
Proof.
  intros Hev. unfold checkLightningSig, Hash, copyWithoutSig. by rewrite Hev.
Qed.

(** [Verify] looks at the record, the kind and the identifier that
    [GetIdentifier] answers, and at nothing else of the event. *)
Lemma Verify_ext (now : nostr.Timestamp) (e e' : Event.t) :
  Event.NostrEvent e = Event.NostrEvent e' ->
  Event.kind e = Event.kind e' ->
  snd (GetIdentifier e) = snd (GetIdentifier e') ->
  snd (Verify now e) = snd (Verify now e').
Proof.
  intros Hev Hkind Hid. unfold Verify. rewrite Hev.
  destruct (_ <? nostr.Event.CreatedAt _); [done|].
  destruct (negb (String.eqb _ (GetID _))); [done|].
  destruct (MaxContentSize <? _); [done|].
  destruct (GetIdentifier_fst e) as (Hn & Hk & _).
  destruct (GetIdentifier_fst e') as (Hn' & Hk' & _).
  destruct (GetIdentifier e) as [e1 r], (GetIdentifier e') as [e1' r'].
  simpl in *. subst r'. destruct r as [idx|err]; [|done].
  destruct (_ && _); [done|]. destruct (kTagInvalid _ _); [done|].
  destruct (CheckSignature _) as [ok err]. destruct (_ || _); [done|].
  unfold RequiresLnSignature. rewrite Hk, Hk', Hkind.
  destruct (Event.kind e' =? KindNodeAnnouncement); [|done].
  rewrite (checkLightningSig_ext e1 e1') by congruence.
  destruct (checkLightningSig e1' _) as [ok' err']. by destruct (_ || _).
Qed.

Lemma SignEvent_Ok (ev ev2 : Event.t) :
  SignEvent ev = Ok ev2 ->
  Event.kind ev2 = Event.kind ev /\ Event.id ev2 = Event.id ev
  /\ Event.finalized ev2 = true
  /\ exists tags,
       Signer_SignEvent (with_tags (Event.NostrEvent ev) tags)
       = Ok (Event.NostrEvent ev2)
       /\ nostr.Find tags "d" = nostr.Find (ev_Tags ev) "d"
       /\ nostr.Find tags "k" = nostr.Find (ev_Tags ev) "k".
Proof.
  unfold SignEvent, IsFinalized. destruct (Event.finalized ev) eqn:Hfin; [|done].
  cbn [negb]. destruct (RequiresLnSignature ev).
  - unfold signWithLn. destruct (nostr.Find _ "sig"); [done|].
    destruct (SignMessage _) as [sig|]; [|done].
    unfold append_tag. cbn [Event.NostrEvent Event.kind Event.finalized Event.id].
    destruct (Signer_SignEvent _) as [nev|] eqn:Hsign; [|done].
    intros [= <-]. cbn. repeat split; [done|].
    exists (ev_Tags ev ++ [["sig"; sig]]). split; [exact Hsign|].
    rewrite !Find_app. split; by destruct (nostr.Find (ev_Tags ev) _).
  - destruct (Signer_SignEvent _) as [nev|] eqn:Hsign; [|done].
    intros [= <-]. cbn. repeat split; [done|].
    exists (ev_Tags ev). split; [|done].
    destruct ev as [[] ? ? ?]. exact Hsign.
Qed.

(** X19: what [Publish] hands to the relays verifies at the receiver. With an
    identity signer that leaves the tags alone, and whatever else the two
    signers do: when [Publish] returns a record, [NewEventFromNostrRelay]
    accepts it, builds an event of the published kind, and [Verify] answers
    valid for that event at the clock reading of the publisher's check. *)
Theorem Publish_verifies_at_receiver {A : Type} `{Marshal A} (c : Client.t) (step : nat)
    (data : A) (kind : Kind) (opts : list string) (nev : nostr.Event.t) :
  (forall r r', Signer_SignEvent r = Ok r' -> nostr.Event.Tags r' = nostr.Event.Tags r) ->
  in_int kind ->
  Publish c step data kind opts = Ok nev ->
  exists lev,
    NewEventFromNostrRelay nev = Ok lev
    /\ Event.kind lev = kind
    /\ snd (Verify (Now (S step)) lev) = (true, None).
Proof.
  intros Hkeep Hkind. unfold Publish.
  destruct (json_Marshal data) as [b|]; [|done].
  destruct (Finalize _ _ _ kind opts) as [e1|] eqn:Hf; [|done].
  destruct (SignEvent e1) as [ev2|] eqn:Hs; [|done].
  pose proof (Verify_fst (Now (S step)) ev2) as Hrec.
  destruct (Verify (Now (S step)) ev2) as [ev3 [ok err]] eqn:Hv.
  destruct ok; [|done]. destruct err; [done|]. cbn [negb is_nil orb].
  intros [= <-]. cbn [fst] in Hrec.
  destruct (SignEvent_Ok _ _ Hs) as (Hk2 & Hid2 & _ & tags & Hsign & Hd & Hk).
  apply Hkeep in Hsign. cbn in Hsign.
  destruct (Finalize_tags _ _ _ _ _ _ Hf) as (_ & _ & Hk1 & _ & Hid1).
  pose proof (Finalize_parse _ _ _ _ _ _ Hkind Hf) as Hparse.
  assert (parseIdentifier (nostr.Event.Tags (Event.NostrEvent ev3))
          = parseIdentifier (ev_Tags e1)) as Hsame.
  { apply parseIdentifier_ext; rewrite Hrec, Hsign; done. }
  assert (exists id, parseIdentifier (ev_Tags e1) = Ok id /\ Identifier.Kind id = kind)
    as (id & Hid & Hkid).
  { rewrite Hparse. destruct (kind =? KindNodeAnnouncement); eexists; done. }
  rewrite Hid in Hsame.
  exists (Event.mk (Event.NostrEvent ev3) (Identifier.Kind id) true (Some id)).
  split; [|split; [done|]].
  - unfold NewEventFromNostrRelay, GetIdentifier, wrap.
    cbn [Event.id Event.NostrEvent]. by rewrite Hsame.
  - rewrite (Verify_ext _ _ ev2); [by rewrite Hv | by rewrite Hrec | cbn; congruence |].
    unfold GetIdentifier. cbn [Event.id]. rewrite Hid2, Hid1. cbn [wrap Event.id].
    rewrite <- Hrec, Hsame. done.
Qed.

End ClientProofs.

Lemma Publish_verifies_at_receiver_witness :
  exists nev lev,
    @Publish demo_NostrCrypto demo_LnCrypto demo_NostrSigner demo_LightningNode
      demo_Clock string demo_Marshal demo_client 0 "{}" 0 [] = Ok nev
    /\ NewEventFromNostrRelay nev = Ok lev
    /\ snd (@Verify demo_NostrCrypto demo_LnCrypto 1000 lev) = (true, None).
Proof.
  assert (forall r r', @Signer_SignEvent demo_NostrSigner r = Ok r' ->
                       nostr.Event.Tags r' = nostr.Event.Tags r) as Hkeep.
  { intros r r' [= <-]. reflexivity. }
  assert (in_int 0) as Hkind by (vm_compute; split; discriminate).
  eexists.
  match goal with
  | |- exists lev, ?P = Ok ?nev /\ _ =>
      assert (P = Ok nev) as Hp by (vm_compute; reflexivity)
  end.
  destruct (@Publish_verifies_at_receiver demo_NostrCrypto demo_LnCrypto demo_NostrSigner
              demo_LightningNode demo_Clock string demo_Marshal demo_client 0%nat "{}" 0
              [] _ Hkeep Hkind Hp) as (lev & Hrelay & _ & Hv).
  exists lev. split; [exact Hp|]. split; [exact Hrelay | exact Hv].
Defined.

(** ** The client's store and the envelopes *)

Section ClientStore.
Context `{NostrCrypto} `{LnCrypto} `{RelayPool} `{Clock}.

Lemma processEvent_invariant (now : nostr.Timestamp) (s : MapStore) (r : nostr.Event.t) :
  store_invariant s -> store_invariant (fst (processEvent now s r)).
Proof.
  intros Hs.
  destruct (processEvent_cases now s r)
    as [(e & _ & ->) | [(lev & w & _ & _ & ->)
        | [(lev & e & _ & _ & _ & ->) | (lev & _ & _ & _ & ->)]]];
    simpl; try done; by apply StoreEvent_invariant.
Qed.

Lemma run_invariant (step : nat) (s : MapStore) (recs : list nostr.Event.t) :
  store_invariant s -> store_invariant (fst (run step s recs)).
Proof.
  revert step s. induction recs as [|r recs IH]; intros step s Hs; [done|].
  cbn [run]. pose proof (processEvent_invariant (Now step) s r Hs) as Hs1.
  destruct (processEvent (Now step) s r) as [s1 w]. simpl in Hs1.
  pose proof (IH (S step) s1 Hs1) as Hs2.
  by destruct (run (S step) s1 recs) as [s2 ws].
Qed.

Lemma syncStoreWithPool_invariant (ctx : Ctx) (step : nat) (s : MapStore)
    (urls : list string) (f : Filter) :
  store_invariant s ->
  store_invariant (snd (fst (fst (syncStoreWithPool ctx step s urls f)))).
Proof.
  intros Hs. destruct ctx as [n|].
  - rewrite syncStoreWithPool_cancelled_store. simpl. by apply run_invariant.
  - rewrite syncStoreWithPool_never_cancelled. simpl. by apply run_invariant.
Qed.

(** X20: [GetEvents] keeps the store of the client in shape under every context,
    cancelled or not, and whatever the relays deliver; and each event it
    returns is of the requested kind, carries an identifier whose Lightning
    key the filter admits, and is signed by the identity that the store
    binds to that key. *)
Theorem Client_GetEvents_invariant (c : Client.t) (ctx : Ctx) (step : nat) (kind : Kind)
    (pubkeys : gset string) (urls : list string) (since : nostr.Timestamp) :
  store_invariant (Client.store c) ->
  store_invariant
    (Client.store (fst (Client_GetEvents c ctx step kind pubkeys urls since)))
  /\ forall e,
       In e (fst (fst (snd (Client_GetEvents c ctx step kind pubkeys urls since)))) ->
       Event.kind e = kind
       /\ exists id,
            snd (GetIdentifier e) = Ok id
            /\ filter_admits pubkeys (Identifier.PubKey id)
            /\ ev_PubKey e
               = pub (lastAnnouncement
                        (node_of
                           (Client.store
                              (fst (Client_GetEvents c ctx step kind pubkeys urls since)))
                           (Identifier.PubKey id))).
Proof.
  intros Hs.
  assert (forall s e, store_invariant s -> In e (MapStore_GetEvents s kind pubkeys) ->
            Event.kind e = kind
            /\ exists id, snd (GetIdentifier e) = Ok id
                 /\ filter_admits pubkeys (Identifier.PubKey id)
                 /\ ev_PubKey e = pub (lastAnnouncement (node_of s (Identifier.PubKey id))))
    as Hout.
  { intros s e Hinv (P & ns & X & HP & HX & Hk & Hadm)%MapStore_GetEvents_iff.
    destruct (Hinv P ns HP) as [_ Hslots].
    destruct (Hslots X e HX) as (Hpub & id & Hid & <- & <-).
    split; [done|]. exists id. unfold node_of. by rewrite HP. }
  unfold Client_GetEvents. cbv zeta.
  pose proof (syncStoreWithPool_invariant ctx step (Client.store c) urls
                (kindFilter since KindNodeAnnouncement) Hs) as Hs1.
  destruct (syncStoreWithPool ctx step (Client.store c) urls _)
    as [[[step1 s1] [err|]] err2]; simpl in Hs1.
  { simpl. split; [done|]. by intros e []. }
  destruct (negb (kind =? KindNodeAnnouncement)).
  - pose proof (syncStoreWithPool_invariant ctx step1 s1 urls
                  (kindFilter since kind) Hs1) as Hs2.
    destruct (syncStoreWithPool ctx step1 s1 urls _)
      as [[[step2 s2] [err|]] err3]; simpl in Hs2.
    { simpl. split; [done|]. by intros e []. }
    simpl. split; [done|]. intros e. by apply Hout.
  - simpl. split; [done|]. intros e. by apply Hout.
Qed.

End ClientStore.

Lemma Client_GetEvents_invariant_witness :
  store_invariant demo_store
  /\ store_invariant
       (Client.store
          (fst (@Client_GetEvents demo_NostrCrypto demo_LnCrypto demo_RelayPool demo_Clock
                  demo_client (Some 3%nat) 0 1 ∅ [] 0))).
Proof.
  assert (store_invariant demo_store) as Hs by apply StoreAll_invariant.
  split; [exact Hs|].
  exact (proj1 (@Client_GetEvents_invariant demo_NostrCrypto demo_LnCrypto demo_RelayPool
                  demo_Clock demo_client (Some 3%nat) 0 1 ∅ [] 0 Hs)).
Defined.

Section EnvelopeProofs.
Context `{NostrCrypto} `{LnCrypto} `{LightningNode} `{RelayPool} `{Clock} `{Nip19}.
Context {T : Type} `{Unmarshal T}.

Lemma wrapEvents_acc (events : list Event.t) (envs : list (EventEnvelope.t T))
    (errs : list Error) :
  wrapEvents events envs errs =
  (envs ++ fst (wrapEvents events [] []), errs ++ snd (wrapEvents events [] [])).
Proof.
  revert envs errs. induction events as [|ev events IH]; intros envs errs.
  - simpl. by rewrite !app_nil_r.
  - cbn [wrapEvents]. destruct (NewEventEnvelope ev) as [env|err].
    + destruct (GetAlias _) as [alias|err].
      * rewrite (IH (envs ++ _)), (IH ([] ++ _)). simpl. by rewrite <- app_assoc.
      * rewrite (IH (envs ++ _)), (IH ([] ++ _) ([] ++ _)). simpl.
        by rewrite <- !app_assoc.
    + rewrite IH, (IH [] ([] ++ _)). simpl. by rewrite <- app_assoc.
Qed.

(** X21: [GetEventEnvelopes] on top of a [GetEvents] that did not fail: the
    client and the warnings of the fetch are passed on, the envelopes are,
    in order, those of the events whose envelope can be built, each with the
    alias of its node or the empty alias when the lookup fails, and one
    warning is added for each event that is skipped and for each alias that
    is missing. *)
Theorem GetEventEnvelopes_spec (c c1 : Client.t) (ctx : Ctx) (step : nat) (kind : Kind)
    (pubkeys : gset string) (urls : list string) (since : nostr.Timestamp)
    (events : list Event.t) (warnings : list Error) :
  Client_GetEvents c ctx step kind pubkeys urls since = (c1, (events, None, warnings)) ->
  exists envelopes added,
    GetEventEnvelopes c ctx step kind pubkeys urls since
    = (c1, (envelopes, None, warnings ++ added))
    /\ Forall2
         (fun ev env =>
            exists env0,
              NewEventEnvelope ev = Ok env0
              /\ env = with_alias env0
                         match GetAlias (Identifier.PubKey (EventEnvelope.Id env0)) with
                         | Ok alias => alias
                         | Err _ => EmptyString
                         end)
         (List.filter envelope_builds events) envelopes
    /\ length added =
       length (List.filter
                 (fun ev =>
                    match NewEventEnvelope ev with
                    | Err _ => true
                    | Ok env0 =>
                        match GetAlias (Identifier.PubKey (EventEnvelope.Id env0)) with
                        | Ok _ => false
                        | Err _ => true
                        end
                    end) events).
Proof.
  intros Hg. unfold GetEventEnvelopes. rewrite Hg, wrapEvents_acc. cbn [app].
  eexists. eexists. split; [reflexivity|]. clear Hg.
  induction events as [|ev events [IH1 IH2]]; [by split; [constructor|]|].
  cbn [wrapEvents List.filter]. unfold envelope_builds at 1.
  destruct (NewEventEnvelope ev) as [env|err] eqn:Hnew.
  - destruct (GetAlias _) as [alias|err] eqn:Halias;
      rewrite wrapEvents_acc; cbn [fst snd app length].
    + split; [|done]. constructor; [|done]. exists env. by rewrite Halias.
    + split; [|by rewrite IH2]. constructor; [|done]. exists env. by rewrite Halias.
  - rewrite wrapEvents_acc. cbn [fst snd app length]. split; [done | by rewrite IH2].
Qed.

(** X22: the envelope of an event that [GetEvents] takes out of a store in shape:
    the identifier is there, so building the envelope can only fail on the
    payload or on the encoding of the author's key, and the envelope carries
    the identifier, the ID, the time stamp and the decoded payload. *)
Theorem stored_event_envelope (s : MapStore) (kind : Kind) (pubkeys : gset string)
    (e : Event.t) :
  store_invariant s ->
  In e (MapStore_GetEvents s kind pubkeys) ->
  exists id,
    snd (GetIdentifier e) = Ok id
    /\ filter_admits pubkeys (Identifier.PubKey id)
    /\ NewEventEnvelope e =
       match json_Unmarshal (nostr.Event.Content (Event.NostrEvent e)) with
       | Err err => Err err
       | Ok payload =>
           match EncodePublicKey (ev_PubKey e) with
           | Err err => Err err
           | Ok npub =>
               Ok (EventEnvelope.mk id EmptyString (nostr.Event.ID (Event.NostrEvent e))
                     npub (ev_CreatedAt e) payload)
           end
       end.
Proof.
  intros Hinv (P & ns & X & HP & HX & _ & Hadm)%MapStore_GetEvents_iff.
  destruct (Hinv P ns HP) as [_ Hslots].
  destruct (Hslots X e HX) as (_ & id & Hid & <- & _).
  exists id. split; [done|]. split; [done|].
  unfold NewEventEnvelope. by rewrite Hid.
Qed.

End EnvelopeProofs.

Lemma GetEventEnvelopes_spec_witness :
  exists c1 events warnings envelopes added,
    @Client_GetEvents demo_NostrCrypto demo_LnCrypto demo_RelayPool demo_Clock
      demo_client None 0 1 ∅ [] 0 = (c1, (events, None, warnings))
    /\ @GetEventEnvelopes demo_NostrCrypto demo_LnCrypto failing_LightningNode
         demo_RelayPool demo_Clock demo_Nip19 string demo_Unmarshal
         demo_client None 0 1 ∅ [] 0
       = (c1, (envelopes, None, warnings ++ added)).
Proof.
  assert (exists c1 events warnings,
             @Client_GetEvents demo_NostrCrypto demo_LnCrypto demo_RelayPool demo_Clock
               demo_client None 0 1 ∅ [] 0 = (c1, (events, None, warnings)))
    as (c1 & events & warnings & Hg) by (do 3 eexists; vm_compute; reflexivity).
  destruct (@GetEventEnvelopes_spec demo_NostrCrypto demo_LnCrypto failing_LightningNode
              demo_RelayPool demo_Clock demo_Nip19 string demo_Unmarshal
              demo_client c1 None 0 1 ∅ [] 0 events warnings Hg)
    as (envelopes & added & Hr & _).
  exists c1, events, warnings, envelopes, added. split; [exact Hg | exact Hr].
Defined.

(** Four envelopes without alias and five warnings: the forged record, and
    the four failed alias lookups. *)
Example GetEventEnvelopes_demo :
  let r := @GetEventEnvelopes demo_NostrCrypto demo_LnCrypto failing_LightningNode
             demo_RelayPool demo_Clock demo_Nip19 string demo_Unmarshal
             demo_client None 0 1 ∅ [] 0 in
  List.map EventEnvelope.Alias (fst (fst (snd r))) = [""; ""; ""; ""]
  /\ length (snd (snd r)) = 5%nat.
Proof. vm_compute. split; reflexivity. Qed.

Lemma stored_event_envelope_witness :
  store_invariant demo_store
  /\ In (relay_event (demo_record 100 [["d"; "P1"]; ["k"; "0"]]))
       (MapStore_GetEvents demo_store 0 {[ "P1" ]})
  /\ exists id,
       snd (GetIdentifier (relay_event (demo_record 100 [["d"; "P1"]; ["k"; "0"]]))) = Ok id
       /\ filter_admits {[ "P1" ]} (Identifier.PubKey id).
Proof.
  assert (store_invariant demo_store) as Hs by apply StoreAll_invariant.
  assert (In (relay_event (demo_record 100 [["d"; "P1"]; ["k"; "0"]]))
            (MapStore_GetEvents demo_store 0 {[ "P1" ]})) as Hin.
  { vm_compute. left. reflexivity. }
  split; [exact Hs|]. split; [exact Hin|].
  destruct (@stored_event_envelope demo_Nip19 string demo_Unmarshal demo_store 0
              {[ "P1" ]} _ Hs Hin) as (id & Hid & Hadm & _).
  exists id. split; [exact Hid | exact Hadm].
Defined.

(** ** The payload of a node-info record *)

Lemma primaryLoop_spec (contacts : list ContactInfo.t) (count : Z) :
  0 <= count <= 1 ->
  primaryLoop contacts count = None <->
  count + Z.of_nat (length (List.filter ContactInfo.Primary contacts)) <= 1.
Proof.
  revert count. induction contacts as [|c contacts IH]; intros count Hcount.
  - simpl. split; [lia | done].
  - cbn [primaryLoop List.filter]. destruct (ContactInfo.Primary c).
    + cbv zeta. rewrite wrap64_id by (unfold in_int, int_min, int_max; lia).
      cbn [length]. destruct (1 <? count + 1) eqn:Hlt.
      * apply Z.ltb_lt in Hlt. split; [done | lia].
      * apply Z.ltb_ge in Hlt. rewrite IH by lia. lia.
    + by apply IH.
Qed.

(** X23: [Validate] accepts a node-info payload exactly when the struct checks of
    the validator pass and at most one contact is marked primary; a failure
    of the struct checks is reported before the contacts are counted. *)
Theorem NodeInfo_Validate_iff `{StructValidator} (n : NodeInfo.t) :
  (NodeInfo_Validate n = None <->
   validate_Struct n = None
   /\ (length (List.filter ContactInfo.Primary (NodeInfo.ContactInfo n)) <= 1)%nat)
  /\ (NodeInfo_Validate n = Some ErrSeveralPrimary <->
      validate_Struct n = None
      /\ (1 < length (List.filter ContactInfo.Primary (NodeInfo.ContactInfo n)))%nat).
Proof.
  unfold NodeInfo_Validate. destruct (validate_Struct n) as [err|].
  { split; split; [done | by intros [? _] | done | by intros [? _]]. }
  pose proof (primaryLoop_spec (NodeInfo.ContactInfo n) 0 ltac:(lia)) as Hloop.
  split.
  - rewrite Hloop. split; [intros ?; split; [done | lia] | intros [_ ?]; lia].
  - destruct (primaryLoop (NodeInfo.ContactInfo n) 0) as [[]|] eqn:Hl.
    + exfalso. clear Hloop. revert Hl. generalize 0.
      induction (NodeInfo.ContactInfo n) as [|c cs IH]; intros count; simpl; [done|].
      destruct (ContactInfo.Primary c); [|apply IH].
      destruct (1 <? _); [done | apply IH].
    + split; [intros _; split; [done|] | done].
      destruct (decide (1 < length (List.filter ContactInfo.Primary
                                      (NodeInfo.ContactInfo n)))%nat); [done|].
      assert (Some ErrSeveralPrimary = @None ValidateError) by (apply Hloop; lia). done.
    + split; [done|]. intros [_ Hmany].
      assert (0 + Z.of_nat (length (List.filter ContactInfo.Primary
                                      (NodeInfo.ContactInfo n))) <= 1)
        by (by apply Hloop). lia.
Qed.

Example NodeInfo_Validate_demo :
  let contact primary := ContactInfo.mk "email" "a@b.c" "" primary in
  @NodeInfo_Validate demo_StructValidator
    (NodeInfo.mk None None None [contact true; contact false; contact true] ∅)
  = Some ErrSeveralPrimary
  /\ @NodeInfo_Validate demo_StructValidator
       (NodeInfo.mk None None None [contact false; contact true] ∅)
     = None.
Proof. vm_compute. split; reflexivity. Qed.

(** ** Replays, and what reaches the store *)

(** X24: replaying an event that was just accepted is rejected as stale and
    changes nothing: storing is idempotent. *)
Theorem StoreEvent_replay (s : MapStore) (ev : Event.t) :
  snd (StoreEvent s ev) = None ->
  exists err,
    StoreEvent (fst (StoreEvent s ev)) ev = (fst (StoreEvent s ev), Some err)
    /\ (err = ErrStaleAnnouncement (ev_CreatedAt ev) (ev_CreatedAt ev)
        \/ err = ErrStaleRecord (ev_CreatedAt ev) (ev_CreatedAt ev)).
Proof.
  destruct (GetIdentifier ev) as [ev1 [id|err]] eqn:Hg.
  2:{ by rewrite (StoreEvent_parse_error _ _ _ _ Hg). }
  destruct (GetIdentifier_pair _ _ _ Hg) as (_ & _ & Hc & Hp).
  rewrite (StoreEvent_branch _ _ _ _ Hg). cbn [fst snd]. intros Hok.
  rewrite (StoreEvent_branch _ _ _ _ Hg). destruct s as [m].
  rewrite node_of_insert, decide_True by done. cbn [records].
  rewrite insert_insert_eq.
  set (ns := node_of {| records := m |} (Identifier.PubKey id)) in *.
  destruct (store_branch ns ev1 id) as [ns1 e] eqn:Hb. simpl in Hok. subst e.
  cbn [fst]. unfold store_branch in *.
  destruct (Event.kind ev1 =? KindNodeAnnouncement).
  - apply registerAnnouncement_ok in Hb as [_ ->].
    unfold registerAnnouncement. cbn [lastAnnouncement createdAt].
    assert ((ev_CreatedAt ev1 >=? ev_CreatedAt ev1) = true) as ->
        by (rewrite Z.geb_leb; apply Z.leb_refl).
    rewrite Hc. eexists. split; [reflexivity | by left].
  - apply storeRegularEvent_ok in Hb as (Hpub & _ & ->).
    unfold storeRegularEvent. cbn [lastAnnouncement events].
    rewrite Hpub, String.eqb_refl, lookup_insert_eq. cbn [negb].
    assert ((ev_CreatedAt ev1 >=? ev_CreatedAt ev1) = true) as ->
        by (rewrite Z.geb_leb; apply Z.leb_refl).
    rewrite Hc. eexists. split; [reflexivity | by right].
Qed.

Lemma StoreEvent_replay_witness :
  snd (StoreEvent NewMapStore (relay_event (plain_record "A" 10 [["d"; "P"]; ["k"; "0"]])))
  = None
  /\ exists err,
       StoreEvent
         (fst (StoreEvent NewMapStore
                 (relay_event (plain_record "A" 10 [["d"; "P"]; ["k"; "0"]]))))
         (relay_event (plain_record "A" 10 [["d"; "P"]; ["k"; "0"]]))
       = (fst (StoreEvent NewMapStore
                 (relay_event (plain_record "A" 10 [["d"; "P"]; ["k"; "0"]]))),
          Some err).
Proof.
  assert (snd (StoreEvent NewMapStore
                 (relay_event (plain_record "A" 10 [["d"; "P"]; ["k"; "0"]]))) = None)
    as Hok by (vm_compute; reflexivity).
  split; [exact Hok|].
  destruct (StoreEvent_replay _ _ Hok) as (err & Hr & _).
  exists err. exact Hr.
Defined.

Section Gatekeeping.
Context `{NostrCrypto} `{LnCrypto} `{RelayPool} `{Clock}.

(** X25: the store after a pass over the records of the relays is the store
    after [StoreEvent] on exactly the records that parse and verify, in the
    order of delivery: no record reaches the store unverified, and none that
    verifies is held back. *)
Theorem run_stores_verified (step : nat) (s : MapStore) (recs : list nostr.Event.t) :
  fst (run step s recs) = StoreAll s (verified_events step recs).
Proof.
  revert step s. induction recs as [|r recs IH]; intros step s; [done|].
  cbn [run verified_events]. unfold StoreAll. rewrite fold_left_app.
  specialize (IH (S step)).
  assert (fst (processEvent (Now step) s r) =
          StoreAll s match NewEventFromNostrRelay r with
                     | Ok lev =>
                         match snd (Verify (Now step) lev) with
                         | (true, None) => [lev]
                         | _ => []
                         end
                     | Err _ => []
                     end) as Hstep.
  { destruct (processEvent_cases (Now step) s r)
      as [(e & -> & ->) | [(lev & w & -> & Hv & ->)
          | [(lev & e & -> & -> & _ & ->) | (lev & -> & -> & _ & ->)]]];
      try done.
    destruct (snd (Verify (Now step) lev)) as [[|] [|]]; done. }
  destruct (processEvent (Now step) s r) as [s1 w]. cbn [fst] in Hstep. subst s1.
  change (fold_left (fun s0 ev => fst (StoreEvent s0 ev)) ?l ?s0) with (StoreAll s0 l).
  rewrite <- IH. by destruct (run (S step) _ recs).
Qed.

End Gatekeeping.

(** Of the five records of the batch the forged one is held back. *)
Example verified_events_demo :
  List.map ev_CreatedAt
    (@verified_events demo_NostrCrypto demo_LnCrypto demo_Clock 0 demo_batch)
  = [200; 200; 200; 200].
Proof. vm_compute. reflexivity. Qed.
